(** * The persistent workspace state of Salto (local-workspace/state/state.ts)

    A shallow embedding of [localState] and of the functions it is built
    from: the stream codec ([parseStateContent], [createStateTextPerAccount],
    [calculateContentAndHash]), the lazy load of the quick-access cache
    ([loadStateData], [syncQuickAccessStateData]), the dirty tracking
    ([setDirty], [flush], [calculateHashImpl]) and the migration between
    storage backends ([updateConfig]); and a model of the remote-map location
    cache pool.

    Promises are modelled by their outcome ([result]); the closure variables
    of [localState], the durable storage and the persisted quick-access cache
    form one explicit [World] threaded through every operation. *)

From Stdlib Require Import String Ascii ZArith NArith List Bool Lia Permutation DecimalString.
From stdpp Require Import base option list gmap strings fin_maps sorting.

Set Warnings "-register-all".

Local Open Scope string_scope.
Local Open Scope list_scope.

(** ** Outcomes of awaited promises *)

Definition error := string.

Inductive result (A : Type) : Type :=
| Ok (a : A)
| Err (e : error).
Arguments Ok {A} a.
Arguments Err {A} e.

Definition isOk {A} (r : result A) : bool :=
  match r with Ok _ => true | Err _ => false end.

Definition rbind {A B} (r : result A) (k : A -> result B) : result B :=
  match r with
  | Ok a => k a
  | Err e => Err e
  end.

Declare Scope result_scope.
Delimit Scope result_scope with res.
Notation "'let?' x ':=' c 'in' k" := (rbind c (fun x => k))
  (at level 10, x name, c at level 100, k at level 200) : result_scope.

(** ** JSON values, as [stream-json] hands them to the line handler *)

(** The members of an object are kept in the order in which JavaScript
    enumerates its own keys ([Object.keys]). *)
Inductive json : Type :=
| JNull
| JBool (b : bool)
| JNum (z : Z)
| JStr (s : string)
| JArr (items : list json)
| JObj (members : list (string * json)).

(** lodash [_.isPlainObject]. *)
Definition isPlainObject (v : json) : bool :=
  match v with JObj _ => true | _ => false end.

(** [Object.keys(value)]. *)
Definition Object_keys (v : json) : list string :=
  match v with JObj members => map fst members | _ => [] end.

(** [Array.prototype.concat] with one argument: an array argument is spread,
    any other value is appended as a single item. *)
Definition Array_concat (arr : list json) (value : json) : list json :=
  match value with
  | JArr items => arr ++ items
  | v => arr ++ [v]
  end.

(** ** JavaScript objects used as dictionaries ([Record<string, V>])

    An object is represented by its entries in insertion order, with unique
    keys. Enumeration ([Object.entries], [_.mapValues]) visits the keys that
    are array indices first, in ascending numeric order, and then the other
    keys in insertion order. *)

Definition JsObject (V : Type) := list (string * V).

Definition digit_of (c : ascii) : option N :=
  let n := N_of_ascii c in
  if ((48 <=? n) && (n <=? 57))%N then Some (n - 48)%N else None.

Fixpoint digits_value (s : string) (acc : N) : option N :=
  match s with
  | EmptyString => Some acc
  | String c s' =>
      match digit_of c with
      | Some d => digits_value s' (10 * acc + d)%N
      | None => None
      end
  end.

(** A canonical numeric string of an integer in [0, 2^32 - 2]. *)
Definition arrayIndex (k : string) : option N :=
  match k with
  | EmptyString => None
  | String c rest =>
      match digits_value k 0%N with
      | Some n =>
          if (Ascii.eqb c "0" && negb (String.eqb rest ""))%bool then None
          else if (n <? 2 ^ 32 - 1)%N then Some n else None
      | None => None
      end
  end.

Definition isArrayIndex (k : string) : bool :=
  match arrayIndex k with Some _ => true | None => false end.

Definition indexValue (k : string) : N :=
  match arrayIndex k with Some n => n | None => 0%N end.

Fixpoint insertByIndex {V} (e : string * V) (l : list (string * V)) : list (string * V) :=
  match l with
  | [] => [e]
  | e' :: l' =>
      if (indexValue (fst e) <=? indexValue (fst e'))%N then e :: l
      else e' :: insertByIndex e l'
  end.

Definition sortByIndex {V} (l : list (string * V)) : list (string * V) :=
  fold_right insertByIndex [] l.

Definition Object_entries {V} (o : JsObject V) : list (string * V) :=
  sortByIndex (List.filter (fun e => isArrayIndex (fst e)) o)
    ++ List.filter (fun e => negb (isArrayIndex (fst e))) o.

(** [o[k]]. *)
Fixpoint obj_get {V} (o : JsObject V) (k : string) : option V :=
  match o with
  | [] => None
  | (k', v) :: o' => if String.eqb k' k then Some v else obj_get o' k
  end.

(** lodash [_.mapValues(o, f)]: a fresh object filled in enumeration order. *)
Definition mapValues {V W} (f : V -> string -> W) (o : JsObject V) : JsObject W :=
  map (fun e => (fst e, f (snd e) (fst e))) (Object_entries o).

(** The step of lodash [_.groupBy]: push onto the array stored under the key,
    or create the key with a one-item array. *)
Fixpoint groupPush {A} (k : string) (x : A) (o : JsObject (list A)) : JsObject (list A) :=
  match o with
  | [] => [(k, [x])]
  | (k', xs) :: o' =>
      if String.eqb k' k then (k', xs ++ [x]) :: o'
      else (k', xs) :: groupPush k x o'
  end.

Definition groupBy {A} (key : A -> string) (l : list A) : JsObject (list A) :=
  fold_left (fun o x => groupPush (key x) x o) l [].

(** lodash [_.sortBy] on a string key: a stable ascending sort. Strings
    compare byte by byte here, as JavaScript compares code units. *)
Fixpoint sortInsert {A} (key : A -> string) (x : A) (l : list A) : list A :=
  match l with
  | [] => [x]
  | y :: l' =>
      if String.leb (key x) (key y) then x :: l
      else y :: sortInsert key x l'
  end.

Definition sortBy {A} (key : A -> string) (l : list A) : list A :=
  fold_right (sortInsert key) [] l.

(** ** The data model *)

(** Element identifiers: the adapter (account) first, then the rest of the
    hierarchical name. *)
Record ElemID : Type := mkElemID {
  adapter : string;
  nameParts : list string;
}.

Definition getFullName (id : ElemID) : string :=
  String.concat "." (adapter id :: nameParts id).

(** An element is opaque to the state: an identifier and a serializable
    body. *)
Record Element : Type := mkElement {
  elemID : ElemID;
  body : json;
}.

(** [Path] of workspace/path_index.ts: the segments of one file path. *)
Definition Path := list string.

(** [type PathEntry = [string, string[][]]] *)
Definition PathEntry : Type := string * list Path.

Definition Buffer := list Byte.byte.

(** [NamedStream] of content_providers: a name and the bytes the stream
    yields. *)
Record NamedStream : Type := mkNamedStream {
  name : string;
  stream : Buffer;
}.

(** [ContentAndHash] of content_providers. *)
Record ContentAndHash : Type := mkContentAndHash {
  account : string;
  content : Buffer;
  contentHash : string;
}.

Module ParsedState.
Record t : Type := mk {
  elements : list Element;
  accounts : list json;
  pathIndices : list json;
}.
End ParsedState.

(** [state.StateData]: the remote maps of the quick-access cache. *)
Module StateData.
Record t : Type := mk {
  elements : gmap string Element;
  pathIndex : gmap string (list Path);
  accounts : gmap string (list json);
  saltoMetadata : gmap string string;
}.
End StateData.

(** ** Interfaces of the collaborators

    The storage behind the content providers (file system, object storage) is
    an abstract [Durable]; a provider operation reads it or returns the
    storage it leaves behind together with its outcome. *)

(** [staticFiles.StateStaticFilesSource]; state.ts calls its [rename]. *)
Record StateStaticFilesSource (Durable : Type) : Type := mkStaticFiles {
  static_rename : string -> Durable -> result unit * Durable;
}.
Arguments static_rename {Durable} _ _ _.

(** [StateContentProvider] of content_providers. *)
Record StateContentProvider (Durable : Type) : Type := mkProvider {
  findStateFiles : string -> Durable -> result (list string);
  getHash : list string -> Durable -> result string;
  readContents : list string -> Durable -> result (list NamedStream);
  writeContents : string -> list ContentAndHash -> Durable -> result unit * Durable;
  rename : string -> string -> Durable -> result unit * Durable;
  clear : string -> Durable -> result unit * Durable;
  staticFilesSource : StateStaticFilesSource Durable;
}.
Arguments findStateFiles {Durable} _ _ _.
Arguments getHash {Durable} _ _ _.
Arguments readContents {Durable} _ _ _.
Arguments writeContents {Durable} _ _ _ _.
Arguments rename {Durable} _ _ _ _.
Arguments clear {Durable} _ _ _.
Arguments staticFilesSource {Durable} _.

(** [StateConfig] of the workspace package, with its optional members. *)
Record S3Options : Type := mkS3Options {
  bucket : option string;
  s3prefix : option string;
}.

Record StateConfig : Type := mkStateConfig {
  provider : string;
  options_file_localStorageDir : option string;
  options_s3 : option S3Options;
}.

(** The arguments of [updateConfig]. *)
Record UpdateConfigArgs : Type := mkUpdateConfigArgs {
  workspaceId : string;
  stateConfig : option StateConfig;
}.

(** What state.ts imports and does not define: the element serialization,
    the text and compression libraries, the digests, [path], the file system
    and the two provider constructors, the persistent maps behind the
    quick-access cache, and the change application of the in-memory state. *)
Class Collaborators : Type := {
  Durable : Type;
  CacheStore : Type;
  Changes : Type;
  (* serialization.serializeStream, serialization.deserializeParsed *)
  serializeStream : list Element -> string;
  deserializeParsed : json -> result (list Element);
  (* the text pathIndex.serializePathIndexByAccount emits for one account *)
  serializedPathIndex : list PathEntry -> string;
  safeJsonStringify : json -> string;
  EOL : string;
  (* getStream.buffer (createGZipWriteStream fileContent) *)
  createGZipWriteStream : string -> Buffer;
  createGunzip : Buffer -> result string;
  (* stream-json's jsonl parser: the values of the lines, in order *)
  parser : string -> result (list json);
  Buffer_toString : Buffer -> string;
  toMD5 : string -> string;
  getHashFromHashes : list string -> string;
  path_dirname : string -> string;
  path_basename : string -> string;
  path_join : string -> string -> string;
  mkdirp : string -> Durable -> result unit * Durable;
  getLocalStoragePath : string -> string;
  createFileStateContentProvider : string -> StateContentProvider Durable;
  createS3StateContentProvider : string -> S3Options -> StateContentProvider Durable;
  (* state.buildStateData and the flush of its remote maps *)
  buildStateData : CacheStore -> result StateData.t;
  flushStateData : StateData.t -> CacheStore -> result unit * CacheStore;
  (* the change application of the in-memory state *)
  applyChanges : Changes -> StateData.t -> result StateData.t;
}.

Section Model.
Context `{C : Collaborators}.

(** ** Stream codec: reading *)

Definition emptyParsedState : ParsedState.t :=
  ParsedState.mk [] [] [].

(** The handler at the end of the chain in [parseStateContent], for the
    line [key] of a stream. Logging leaves the result alone. *)
Definition parseLine (res : ParsedState.t) (key : nat) (value : json) : result ParsedState.t :=
  if Nat.eqb key 0 then
    (let? parsed := deserializeParsed value in
     Ok (ParsedState.mk (ParsedState.elements res ++ parsed)
           (ParsedState.accounts res) (ParsedState.pathIndices res)))%res
  else if Nat.eqb key 1 then
    if isPlainObject value then
      Ok (ParsedState.mk (ParsedState.elements res)
            (ParsedState.accounts res ++ map JStr (Object_keys value))
            (ParsedState.pathIndices res))
    else
      Ok (ParsedState.mk (ParsedState.elements res)
            (ParsedState.accounts res ++ [value])
            (ParsedState.pathIndices res))
  else if Nat.eqb key 2 then
    Ok (ParsedState.mk (ParsedState.elements res) (ParsedState.accounts res)
          (Array_concat (ParsedState.pathIndices res) value))
  else if Nat.eqb key 3 then
    Ok res
  else
    Ok res.

(** The lines of one stream, numbered by the parser from [key]. *)
Fixpoint parseLines (res : ParsedState.t) (key : nat) (values : list json) : result ParsedState.t :=
  match values with
  | [] => Ok res
  | value :: rest =>
      (let? res' := parseLine res key value in parseLines res' (S key) rest)%res
  end.

(** One content stream through [createGunzip], the jsonl parser and the
    handler. *)
Definition parseStream (res : ParsedState.t) (s : NamedStream) : result ParsedState.t :=
  (let? text := createGunzip (stream s) in
   let? values := parser text in
   parseLines res 0 values)%res.

Fixpoint parseStreams (res : ParsedState.t) (contentStreams : list NamedStream) : result ParsedState.t :=
  match contentStreams with
  | [] => Ok res
  | s :: rest => (let? res' := parseStream res s in parseStreams res' rest)%res
  end.

Definition parseStateContent (contentStreams : list NamedStream) : result ParsedState.t :=
  parseStreams emptyParsedState contentStreams.

(** ** The choice of a content provider *)

Definition defaultStateConfig : StateConfig :=
  mkStateConfig "file" None None.

Definition dquote : string := String (ascii_of_nat 34) EmptyString.

Definition missingBucketMessage : string :=
  ("Missing key " ++ dquote ++ "options.s3.bucket" ++ dquote
     ++ " in workspace state configuration")%string.

Definition getStateContentProvider (workspaceId : string) (stateConfig : option StateConfig)
  : result (StateContentProvider Durable) :=
  let stateConfig := default defaultStateConfig stateConfig in
  if String.eqb (provider stateConfig) "file" then
    let localStorageDir :=
      default (getLocalStoragePath workspaceId) (options_file_localStorageDir stateConfig) in
    Ok (createFileStateContentProvider localStorageDir)
  else if String.eqb (provider stateConfig) "s3" then
    match options_s3 stateConfig with
    | None => Err missingBucketMessage
    | Some options =>
        match bucket options with
        | None => Err missingBucketMessage
        | Some _ => Ok (createS3StateContentProvider workspaceId options)
        end
    end
  else Err ("Unsupported state provider " ++ provider stateConfig)%string.

(** ** The world of one [localState]

    [dirty], [cacheDirty], [contentsAndHash], [currentFilePrefix] and
    [currentContentProvider] are the closure variables of [localState];
    [staticFilesSourceArg] is its optional argument; [innerStateData] is the
    lazily loaded data of the in-memory state; [durable] and [cacheStore] are
    the storage outside the process. [trace] records the calls made to the
    content providers, the file system and the cache store, oldest first. *)

Inductive Event : Type :=
| EvFindStateFiles (p : StateContentProvider Durable) (prefix : string)
| EvGetHash (p : StateContentProvider Durable) (filePaths : list string)
| EvReadContents (p : StateContentProvider Durable) (filePaths : list string)
| EvWriteContents (p : StateContentProvider Durable) (prefix : string)
    (contents : list ContentAndHash)
| EvRename (p : StateContentProvider Durable) (oldPrefix newPrefix : string)
| EvClear (p : StateContentProvider Durable) (prefix : string)
| EvStaticRename (newPrefix : string)
| EvMkdirp (dir : string)
| EvBuildStateData
| EvFlushStateData.

Record World : Type := mkWorld {
  durable : Durable;
  cacheStore : CacheStore;
  dirty : bool;
  cacheDirty : bool;
  contentsAndHash : option (result (list ContentAndHash));
  currentFilePrefix : string;
  currentContentProvider : StateContentProvider Durable;
  staticFilesSourceArg : option (StateStaticFilesSource Durable);
  innerStateData : option StateData.t;
  trace : list Event;
}.

Definition with_durable (d : Durable) (w : World) : World :=
  mkWorld d (cacheStore w) (dirty w) (cacheDirty w) (contentsAndHash w)
    (currentFilePrefix w) (currentContentProvider w) (staticFilesSourceArg w)
    (innerStateData w) (trace w).

Definition with_cacheStore (c : CacheStore) (w : World) : World :=
  mkWorld (durable w) c (dirty w) (cacheDirty w) (contentsAndHash w)
    (currentFilePrefix w) (currentContentProvider w) (staticFilesSourceArg w)
    (innerStateData w) (trace w).

Definition with_dirty (b : bool) (w : World) : World :=
  mkWorld (durable w) (cacheStore w) b (cacheDirty w) (contentsAndHash w)
    (currentFilePrefix w) (currentContentProvider w) (staticFilesSourceArg w)
    (innerStateData w) (trace w).

Definition with_cacheDirty (b : bool) (w : World) : World :=
  mkWorld (durable w) (cacheStore w) (dirty w) b (contentsAndHash w)
    (currentFilePrefix w) (currentContentProvider w) (staticFilesSourceArg w)
    (innerStateData w) (trace w).

Definition with_contentsAndHash (c : option (result (list ContentAndHash))) (w : World) : World :=
  mkWorld (durable w) (cacheStore w) (dirty w) (cacheDirty w) c
    (currentFilePrefix w) (currentContentProvider w) (staticFilesSourceArg w)
    (innerStateData w) (trace w).

Definition with_currentFilePrefix (p : string) (w : World) : World :=
  mkWorld (durable w) (cacheStore w) (dirty w) (cacheDirty w) (contentsAndHash w)
    p (currentContentProvider w) (staticFilesSourceArg w)
    (innerStateData w) (trace w).

Definition with_currentContentProvider (p : StateContentProvider Durable) (w : World) : World :=
  mkWorld (durable w) (cacheStore w) (dirty w) (cacheDirty w) (contentsAndHash w)
    (currentFilePrefix w) p (staticFilesSourceArg w)
    (innerStateData w) (trace w).

Definition with_innerStateData (sd : option StateData.t) (w : World) : World :=
  mkWorld (durable w) (cacheStore w) (dirty w) (cacheDirty w) (contentsAndHash w)
    (currentFilePrefix w) (currentContentProvider w) (staticFilesSourceArg w)
    sd (trace w).

Definition logEvent (ev : Event) (w : World) : World :=
  mkWorld (durable w) (cacheStore w) (dirty w) (cacheDirty w) (contentsAndHash w)
    (currentFilePrefix w) (currentContentProvider w) (staticFilesSourceArg w)
    (innerStateData w) (trace w ++ [ev]).

(** The state of a [localState] that has just been created. *)
Definition localState (filePrefix : string) (contentProvider : StateContentProvider Durable)
    (staticFiles : option (StateStaticFilesSource Durable))
    (d : Durable) (c : CacheStore) : World :=
  mkWorld d c false false None filePrefix contentProvider staticFiles None [].

(** ** Asynchronous operations: a state monad over [World] with failure

    A failed operation keeps the changes made before the failure. *)

Definition M (A : Type) : Type := World -> result A * World.

Definition ret {A} (a : A) : M A := fun w => (Ok a, w).

Definition throw {A} (e : error) : M A := fun w => (Err e, w).

Definition bind {A B} (m : M A) (k : A -> M B) : M B :=
  fun w =>
    match m w with
    | (Ok a, w') => k a w'
    | (Err e, w') => (Err e, w')
    end.

Definition gets {A} (f : World -> A) : M A := fun w => (Ok (f w), w).

Definition modify (f : World -> World) : M unit := fun w => (Ok tt, f w).

Definition liftResult {A} (r : result A) : M A := fun w => (r, w).

(** [Promise.all] of two operations: both run; the first failure is the
    outcome. *)
Definition promiseAll2 (a b : M unit) : M unit :=
  fun w =>
    let (ra, w1) := a w in
    let (rb, w2) := b w1 in
    (match ra with Err e => Err e | Ok _ => rb end, w2).

End Model.

Declare Scope world_scope.
Delimit Scope world_scope with M.
Notation "'let*' x ':=' c 'in' k" := (bind c (fun x => k))
  (at level 10, x name, c at level 100, k at level 200) : world_scope.
Notation "c ';;' k" := (bind c (fun _ => k))
  (at level 100, k at level 200, right associativity) : world_scope.

(** ** The path index on the wire

    Modelled from the spec: pathIndex.loadPathIndex and the grouping of
    pathIndex.serializePathIndexByAccount (workspace package, not among the
    sources). A path index line is an array of
    [[identifier, list of path segment lists]] entries; a parsed item that
    is not of that shape yields no entry. An entry belongs to the account
    its identifier starts with. *)

Definition pathJson (p : Path) : json := JArr (map JStr p).

Definition pathEntryJson (e : PathEntry) : json :=
  JArr [JStr (fst e); JArr (map pathJson (snd e))].

Definition decodeString (v : json) : option string :=
  match v with JStr s => Some s | _ => None end.

Definition decodePath (v : json) : option Path :=
  match v with JArr segs => mapM decodeString segs | _ => None end.

Definition decodePathEntry (v : json) : option PathEntry :=
  match v with
  | JArr [JStr key; JArr paths] =>
      match mapM decodePath paths with
      | Some ps => Some (key, ps)
      | None => None
      end
  | _ => None
  end.

Definition loadPathIndex (parsedEntries : list json) : list PathEntry :=
  omap decodePathEntry parsedEntries.

(** [ElemID.fromFullName(key).adapter]: the name up to the first dot. *)
Fixpoint adapterOfFullName (fullName : string) : string :=
  match fullName with
  | EmptyString => EmptyString
  | String c rest =>
      if Ascii.eqb c "." then EmptyString else String c (adapterOfFullName rest)
  end.

Definition groupPathIndexByAccount (entries : list PathEntry) : JsObject (list PathEntry) :=
  groupBy (fun e => adapterOfFullName (fst e)) entries.

(** [setAll] of the remote maps: one [set] per entry, in order. *)
Definition elements_setAll (els : list Element) (m : gmap string Element) : gmap string Element :=
  fold_left (fun acc e => <[getFullName (elemID e) := e]> acc) els m.

Definition pathIndex_setAll (entries : list PathEntry) (m : gmap string (list Path))
  : gmap string (list Path) :=
  fold_left (fun acc e => <[fst e := snd e]> acc) entries m.

Section LocalState.
Context `{C : Collaborators}.
Local Open Scope world_scope.

(** Calls into the outside world, each recorded in the trace. *)

Definition callRead {A} (ev : Event) (f : Durable -> result A) : M A :=
  fun w => (f (durable w), logEvent ev w).

Definition callWrite (ev : Event) (f : Durable -> result unit * Durable) : M unit :=
  fun w => let (r, d) := f (durable w) in (r, with_durable d (logEvent ev w)).

Definition callBuildStateData : M StateData.t :=
  fun w => (buildStateData (cacheStore w), logEvent EvBuildStateData w).

Definition callFlushStateData (sd : StateData.t) : M unit :=
  fun w =>
    let (r, c) := flushStateData sd (cacheStore w) in
    (r, with_cacheStore c (logEvent EvFlushStateData w)).

(** [currentStaticFilesSource()] *)
Definition currentStaticFilesSource (w : World) : StateStaticFilesSource Durable :=
  default (staticFilesSource (currentContentProvider w)) (staticFilesSourceArg w).

(** [setDirty()] *)
Definition setDirty : M unit :=
  modify (fun w => with_contentsAndHash None (with_dirty true w)).

(** ** Lazy load of the quick-access cache *)

(** [syncQuickAccessStateData]: the remote maps of [stateData] after the
    reparse. The steps that can fail here are the read of the state files
    and their parsing; the updates of the remote maps that follow them
    ([clear], [setAll], [set]) are taken to succeed. *)
Definition syncQuickAccessStateData (stateData : StateData.t) (filePaths : list string)
    (newHash : string) : M StateData.t :=
  let* p := gets currentContentProvider in
  let* streams := callRead (EvReadContents p filePaths) (readContents p filePaths) in
  let* res := liftResult (parseStateContent streams) in
  ret (StateData.mk
         (elements_setAll (ParsedState.elements res) ∅)
         (pathIndex_setAll (loadPathIndex (ParsedState.pathIndices res)) ∅)
         (<["account_names" := ParsedState.accounts res]> ∅)
         (<["hash" := newHash]> (StateData.saltoMetadata stateData))).

(** [loadStateData] *)
Definition loadStateData : M StateData.t :=
  let* quickAccessStateData := callBuildStateData in
  let* p := gets currentContentProvider in
  let* prefix := gets currentFilePrefix in
  let* filePaths := callRead (EvFindStateFiles p prefix) (findStateFiles p prefix) in
  let* stateFilesHash := callRead (EvGetHash p filePaths) (getHash p filePaths) in
  let quickAccessHash :=
    default (toMD5 (safeJsonStringify (JArr [])))
      (StateData.saltoMetadata quickAccessStateData !! "hash") in
  if decide (quickAccessHash <> stateFilesHash) then
    let* synced := syncQuickAccessStateData quickAccessStateData filePaths stateFilesHash in
    modify (with_cacheDirty true) ;;
    ret synced
  else ret quickAccessStateData.

(** ** The in-memory state

    Modelled from the spec: state.buildInMemState (workspace package, not
    among the sources). The data is loaded on first access and kept; every
    operation goes through it. *)

Definition stateData : M StateData.t :=
  let* loaded := gets innerStateData in
  match loaded with
  | Some sd => ret sd
  | None =>
      let* sd := loadStateData in
      modify (with_innerStateData (Some sd)) ;;
      ret sd
  end.

Definition inMemState_getAll : M (list Element) :=
  let* sd := stateData in
  ret (map snd (map_to_list (StateData.elements sd))).

Definition inMemState_getPathIndex : M (gmap string (list Path)) :=
  let* sd := stateData in
  ret (StateData.pathIndex sd).

Definition inMemState_set (element : Element) : M unit :=
  let* sd := stateData in
  modify (with_innerStateData (Some
    (StateData.mk (<[getFullName (elemID element) := element]> (StateData.elements sd))
       (StateData.pathIndex sd) (StateData.accounts sd) (StateData.saltoMetadata sd)))).

Definition inMemState_remove (id : ElemID) : M unit :=
  let* sd := stateData in
  modify (with_innerStateData (Some
    (StateData.mk (delete (getFullName id) (StateData.elements sd))
       (StateData.pathIndex sd) (StateData.accounts sd) (StateData.saltoMetadata sd)))).

Definition inMemState_getHash : M (option string) :=
  let* sd := stateData in
  ret (StateData.saltoMetadata sd !! "hash").

Definition inMemState_setHash (newHash : string) : M unit :=
  let* sd := stateData in
  modify (with_innerStateData (Some
    (StateData.mk (StateData.elements sd) (StateData.pathIndex sd) (StateData.accounts sd)
       (<["hash" := newHash]> (StateData.saltoMetadata sd))))).

Definition inMemState_flush : M unit :=
  let* sd := stateData in
  callFlushStateData sd.

Definition inMemState_clear : M unit :=
  let* sd := stateData in
  modify (with_innerStateData (Some (StateData.mk ∅ ∅ ∅ ∅))).

Definition inMemState_updateStateFromChanges (changes : Changes) : M unit :=
  let* sd := stateData in
  let* sd' := liftResult (applyChanges changes sd) in
  modify (with_innerStateData (Some sd')).

(** The in-memory state has nothing to migrate: its [updateConfig] is
    taken to succeed and to leave the data as it is. *)
Definition inMemState_updateConfig (args : UpdateConfigArgs) : M unit :=
  ret tt.

(** ** Stream codec: writing *)

(** [yieldWithEOL] *)
Definition yieldWithEOL (streams : list string) : string :=
  String.concat "" (map (fun s => (s ++ EOL)%string) streams).

(** [pathIndex.serializePathIndexByAccount] *)
Definition serializePathIndexByAccount (entries : list PathEntry) : JsObject string :=
  mapValues (fun es _ => serializedPathIndex es) (groupPathIndexByAccount entries).

(** [getStateStream(account)] inside [createStateTextPerAccount]. *)
Definition getStateStream (accountToElementStreams accountToPathIndex : JsObject string)
    (account : string) : string :=
  yieldWithEOL
    [ default "" (obj_get accountToElementStreams account);
      safeJsonStringify (JStr account);
      default "[]" (obj_get accountToPathIndex account) ].

(** The pure part of [createStateTextPerAccount], from the elements and the
    path index entries read from the in-memory state. *)
Definition stateTextPerAccount (elements : list Element) (pathIndexEntries : list PathEntry)
  : JsObject string :=
  let elementsByAccount := groupBy (fun element => adapter (elemID element)) elements in
  let accountToElementStreams :=
    mapValues (fun accountElements _ =>
                 serializeStream (sortBy (fun element => getFullName (elemID element)) accountElements))
      elementsByAccount in
  let accountToPathIndex := serializePathIndexByAccount pathIndexEntries in
  mapValues (fun _ account => getStateStream accountToElementStreams accountToPathIndex account)
    accountToElementStreams.

(** [createStateTextPerAccount] *)
Definition createStateTextPerAccount : M (JsObject string) :=
  let* elements := inMemState_getAll in
  let* index := inMemState_getPathIndex in
  ret (stateTextPerAccount elements (map_to_list index)).

(** The body of the [map] in [calculateContentAndHash]. *)
Definition contentAndHashOf (entry : string * string) : ContentAndHash :=
  let (account, fileContent) := entry in
  let content := createGZipWriteStream fileContent in
  let contentHash := toMD5 (Buffer_toString content) in
  mkContentAndHash account content contentHash.

(** [calculateContentAndHash] *)
Definition calculateContentAndHash : M (list ContentAndHash) :=
  let* stateTextPerAccount := createStateTextPerAccount in
  ret (map contentAndHashOf (Object_entries stateTextPerAccount)).

(** [getContentAndHash]: the promise is stored before it settles, so a
    rejection is memoized like a value. *)
Definition getContentAndHash : M (list ContentAndHash) :=
  fun w =>
    match contentsAndHash w with
    | Some settled => (settled, w)
    | None =>
        let (r, w') := calculateContentAndHash w in
        (r, with_contentsAndHash (Some r) w')
    end.

(** [calculateHashImpl] *)
Definition calculateHashImpl : M unit :=
  let* isDirty := gets dirty in
  if negb isDirty then ret tt
  else
    let* contents := getContentAndHash in
    let finalHash := getHashFromHashes (map contentHash contents) in
    inMemState_setHash finalHash.

(** ** The operations of the returned state *)

Definition state_set (element : Element) : M unit :=
  inMemState_set element ;;
  setDirty.

Definition state_remove (id : ElemID) : M unit :=
  inMemState_remove id ;;
  setDirty.

Definition state_rename (newPrefix : string) : M unit :=
  let* static := gets currentStaticFilesSource in
  let* p := gets currentContentProvider in
  let* prefix := gets currentFilePrefix in
  promiseAll2
    (callWrite (EvStaticRename newPrefix) (static_rename static newPrefix))
    (callWrite (EvRename p prefix newPrefix) (rename p prefix newPrefix)) ;;
  modify (with_currentFilePrefix newPrefix) ;;
  setDirty.

Definition flush : M unit :=
  let* isDirty := gets dirty in
  if negb isDirty then
    let* isCacheDirty := gets cacheDirty in
    if isCacheDirty then
      inMemState_flush ;;
      modify (with_cacheDirty false)
    else ret tt
  else
    let* prefix := gets currentFilePrefix in
    callWrite (EvMkdirp (path_dirname prefix)) (mkdirp (path_dirname prefix)) ;;
    let* contents := getContentAndHash in
    let updatedHash := getHashFromHashes (map contentHash contents) in
    let* p := gets currentContentProvider in
    let* prefix := gets currentFilePrefix in
    callWrite (EvWriteContents p prefix contents) (writeContents p prefix contents) ;;
    inMemState_setHash updatedHash ;;
    inMemState_flush ;;
    modify (with_dirty false).

Definition calculateHash : M unit := calculateHashImpl.

Definition state_clear : M unit :=
  let* p := gets currentContentProvider in
  let* prefix := gets currentFilePrefix in
  promiseAll2
    (callWrite (EvClear p prefix) (clear p prefix))
    inMemState_clear ;;
  setDirty.

Definition updateStateFromChanges (changes : Changes) : M unit :=
  inMemState_updateStateFromChanges changes ;;
  setDirty.

Definition tempPrefixOf (prefix : string) : string :=
  path_join (path_dirname prefix) (".tmp_" ++ path_basename prefix)%string.

(** [updateConfig], up to the write under the temporary prefix. *)
Definition updateConfig_writeNew (args : UpdateConfigArgs)
  : M (StateContentProvider Durable * string) :=
  let* newProvider := liftResult (getStateContentProvider (workspaceId args) (stateConfig args)) in
  let* contents := getContentAndHash in
  let* prefix := gets currentFilePrefix in
  let tempPrefix := tempPrefixOf prefix in
  callWrite (EvWriteContents newProvider tempPrefix contents)
    (writeContents newProvider tempPrefix contents) ;;
  ret (newProvider, tempPrefix).

(** [updateConfig], from the clear of the old content on. *)
Definition updateConfig_swap (args : UpdateConfigArgs)
    (written : StateContentProvider Durable * string) : M unit :=
  let (newProvider, tempPrefix) := written in
  let* old := gets currentContentProvider in
  let* prefix := gets currentFilePrefix in
  callWrite (EvClear old prefix) (clear old prefix) ;;
  callWrite (EvRename newProvider tempPrefix (path_basename prefix))
    (rename newProvider tempPrefix (path_basename prefix)) ;;
  modify (with_currentContentProvider newProvider) ;;
  inMemState_updateConfig args.

Definition updateConfig (args : UpdateConfigArgs) : M unit :=
  let* written := updateConfig_writeNew args in
  updateConfig_swap args written.

End LocalState.

(** ** Opening a state *)

(** The arguments of [loadState]. [envName], [remoteMapCreator] and
    [persistent] select the quick-access cache; the state is opened here on
    the [CacheStore] they stand for. *)
Module LoadStateArgs.
Record t `{C : Collaborators} : Type := mk {
  workspaceId : string;
  stateConfig : option StateConfig;
  baseDir : string;
  staticFilesSource : option (StateStaticFilesSource Durable);
}.
End LoadStateArgs.

(** [loadState] *)
Definition loadState `{C : Collaborators} (args : LoadStateArgs.t) (d : Durable) (c : CacheStore)
  : result World :=
  (let? contentProvider :=
     getStateContentProvider (LoadStateArgs.workspaceId args) (LoadStateArgs.stateConfig args) in
   Ok (localState (LoadStateArgs.baseDir args) contentProvider
         (LoadStateArgs.staticFilesSource args) d c))%res.

(** ** The remote-map location cache pool

    Modelled from the spec: createLocationCachePool and its counters
    (local-workspace/remote_map/location_cache, not among the sources; only
    its tests are). The pool maps a location to a resource and a reference
    count. [get] on a location it holds increments the count, returns the
    shared resource and records a reuse; otherwise it creates a resource
    sized by the capacity hint, with count one, and records a creation.
    [release] decrements the count and removes the entry when it reaches
    zero. Resources are told apart by a serial number. *)

Module LocationCachePool.

Record LocationCache : Type := mkLocationCache {
  location : string;
  capacity : nat;
  serial : nat;
}.

Record PoolEntry : Type := mkPoolEntry {
  resource : LocationCache;
  refcount : nat;
}.

Inductive PoolEvent : Type :=
| LocationCacheCreated (location : string)
| LocationCacheReuse (location : string).

Record Pool : Type := mkPool {
  entries : gmap string PoolEntry;
  nextSerial : nat;
  events : list PoolEvent;
}.

Definition createLocationCachePool : Pool :=
  mkPool ∅ 0 [].

Definition get (loc : string) (capacityHint : nat) (pool : Pool) : LocationCache * Pool :=
  match entries pool !! loc with
  | Some e =>
      (resource e,
       mkPool (<[loc := mkPoolEntry (resource e) (S (refcount e))]> (entries pool))
         (nextSerial pool)
         (events pool ++ [LocationCacheReuse loc]))
  | None =>
      let fresh := mkLocationCache loc capacityHint (nextSerial pool) in
      (fresh,
       mkPool (<[loc := mkPoolEntry fresh 1]> (entries pool))
         (S (nextSerial pool))
         (events pool ++ [LocationCacheCreated loc]))
  end.

Definition release (handle : LocationCache) (pool : Pool) : Pool :=
  match entries pool !! location handle with
  | Some e =>
      match refcount e with
      | S (S n) =>
          mkPool (<[location handle := mkPoolEntry (resource e) (S n)]> (entries pool))
            (nextSerial pool) (events pool)
      | _ =>
          mkPool (delete (location handle) (entries pool)) (nextSerial pool) (events pool)
      end
  | None => pool
  end.

(** One [get] per capacity hint, in order: the handles and the pool left. *)
Fixpoint getMany (loc : string) (capacityHints : list nat) (pool : Pool)
  : list LocationCache * Pool :=
  match capacityHints with
  | [] => ([], pool)
  | hint :: rest =>
      let (handle, pool1) := get loc hint pool in
      let (handles, pool2) := getMany loc rest pool1 in
      (handle :: handles, pool2)
  end.

Definition releaseMany (handles : list LocationCache) (pool : Pool) : Pool :=
  fold_left (fun p h => release h p) handles pool.

Definition createdCount (loc : string) (log : list PoolEvent) : nat :=
  length (List.filter
            (fun ev => match ev with
                       | LocationCacheCreated l => String.eqb l loc
                       | _ => false
                       end) log).

Definition reuseCount (loc : string) (log : list PoolEvent) : nat :=
  length (List.filter
            (fun ev => match ev with
                       | LocationCacheReuse l => String.eqb l loc
                       | _ => false
                       end) log).

End LocationCachePool.

(** * Notions used to state the properties *)

(** Every group of a grouping holds items of its own key only, and is not
    empty. *)
Definition wellGrouped {A} (key : A -> string) (o : JsObject (list A)) : Prop :=
  forall k xs, (k, xs) ∈ o -> xs <> [] /\ forall x, x ∈ xs -> key x = k.

Section Notions.
Context `{C : Collaborators}.
Local Open Scope world_scope.

Definition preserves {A} (R : World -> World -> Prop) (m : M A) : Prop :=
  forall w, R w (snd (m w)).

Class Frame (R : World -> World -> Prop) : Prop := {
  frame_refl : forall w, R w w;
  frame_trans : forall w1 w2 w3, R w1 w2 -> R w2 w3 -> R w1 w3;
}.

(** Events that leave the durable storage as it is. *)
Definition isReadEvent (ev : Event) : Prop :=
  match ev with
  | EvFindStateFiles _ _ | EvGetHash _ _ | EvReadContents _ _ | EvBuildStateData => True
  | _ => False
  end.

(** Events that write neither the durable storage nor the file system; the
    flush of the cache store is one. *)
Definition isNotDurableWrite (ev : Event) : Prop :=
  match ev with
  | EvFindStateFiles _ _ | EvGetHash _ _ | EvReadContents _ _ | EvBuildStateData
  | EvFlushStateData => True
  | _ => False
  end.

Definition tracedBy (P : Event -> Prop) (w w' : World) : Prop :=
  exists evs, trace w' = trace w ++ evs /\ Forall P evs.

(** The frame of the lazy load: everything but [cacheDirty], the loaded
    data and the trace, which grows by reads only. *)
Record loadFrame (w w' : World) : Prop := mkLoadFrame {
  lf_durable : durable w' = durable w;
  lf_cacheStore : cacheStore w' = cacheStore w;
  lf_dirty : dirty w' = dirty w;
  lf_contentsAndHash : contentsAndHash w' = contentsAndHash w;
  lf_currentFilePrefix : currentFilePrefix w' = currentFilePrefix w;
  lf_currentContentProvider : currentContentProvider w' = currentContentProvider w;
  lf_staticFilesSourceArg : staticFilesSourceArg w' = staticFilesSourceArg w;
  lf_trace : tracedBy isReadEvent w w';
}.

(** [onFailure R m]: when [m] fails from [w], the world it leaves is
    related to [w] by [R]. *)
Definition onFailure {A} (R : World -> World -> Prop) (m : M A) : Prop :=
  forall w e, fst (m w) = Err e -> R w (snd (m w)).

(** The frame of everything that obtains content: the storage, the flags
    [dirty], the prefix and the provider stay; the trace grows by events
    satisfying [P]. *)
Record ioFrame (P : Event -> Prop) (w w' : World) : Prop := mkIoFrame {
  io_dirty : dirty w' = dirty w;
  io_currentFilePrefix : currentFilePrefix w' = currentFilePrefix w;
  io_currentContentProvider : currentContentProvider w' = currentContentProvider w;
  io_staticFilesSourceArg : staticFilesSourceArg w' = staticFilesSourceArg w;
  io_trace : tracedBy P w w';
}.

(** The frame of the operations that neither write durable content nor
    touch the cache store. *)
Record readFrame (w w' : World) : Prop := mkReadFrame {
  rf_durable : durable w' = durable w;
  rf_cacheStore : cacheStore w' = cacheStore w;
  rf_io : ioFrame isReadEvent w w';
}.

(** The hash the quick-access cache has recorded, as [loadStateData] reads
    it. *)
Definition quickAccessHashOf (sd : StateData.t) : string :=
  default (toMD5 (safeJsonStringify (JArr []))) (StateData.saltoMetadata sd !! "hash").

(** The cache after [syncQuickAccessStateData] has run with the parse
    result [res]. *)
Definition syncedStateData (quick : StateData.t) (res : ParsedState.t) (newHash : string)
  : StateData.t :=
  StateData.mk
    (elements_setAll (ParsedState.elements res) ∅)
    (pathIndex_setAll (loadPathIndex (ParsedState.pathIndices res)) ∅)
    (<["account_names" := ParsedState.accounts res]> ∅)
    (<["hash" := newHash]> (StateData.saltoMetadata quick)).

(** The world once the cache is opened and the durable hash is known. *)
Definition afterHashCheck (w : World) (filePaths : list string) : World :=
  logEvent (EvGetHash (currentContentProvider w) filePaths)
    (logEvent (EvFindStateFiles (currentContentProvider w) (currentFilePrefix w))
       (logEvent EvBuildStateData w)).

(** The per-account content and hash of loaded state data, as
    [calculateContentAndHash] computes them. *)
Definition contentsOf (sd : StateData.t) : list ContentAndHash :=
  map contentAndHashOf
    (Object_entries
       (stateTextPerAccount (map snd (map_to_list (StateData.elements sd)))
          (map_to_list (StateData.pathIndex sd)))).

(** [saltoMetadata.set('hash', newHash)] on state data. *)
Definition withHash (newHash : string) (sd : StateData.t) : StateData.t :=
  StateData.mk (StateData.elements sd) (StateData.pathIndex sd) (StateData.accounts sd)
    (<["hash" := newHash]> (StateData.saltoMetadata sd)).

(** The digest [flush] and [calculateHashImpl] store for given contents. *)
Definition combinedHash (contents : list ContentAndHash) : string :=
  getHashFromHashes (map contentHash contents).

(** What [getContentAndHash] yields once the data is loaded: the memoized
    outcome if there is one, the computed contents otherwise. *)
Definition currentContents (w : World) (sd : StateData.t) : result (list ContentAndHash) :=
  match contentsAndHash w with
  | Some settled => settled
  | None => Ok (contentsOf sd)
  end.

(** The world after a successful [flush] of dirty, loaded state. *)
Definition flushedWorld (w : World) (sd : StateData.t) (contents : list ContentAndHash)
    (d : Durable) (c : CacheStore) : World :=
  mkWorld d c false (cacheDirty w) (Some (Ok contents))
    (currentFilePrefix w) (currentContentProvider w) (staticFilesSourceArg w)
    (Some (withHash (combinedHash contents) sd))
    (trace w ++ [EvMkdirp (path_dirname (currentFilePrefix w));
                 EvWriteContents (currentContentProvider w) (currentFilePrefix w) contents;
                 EvFlushStateData]).

Definition anyEvent (ev : Event) : Prop := True.

(** What follows the durable write in [flush]. *)
Definition afterWrite (updatedHash : string) : M unit :=
  inMemState_setHash updatedHash ;;
  inMemState_flush ;;
  modify (with_dirty false).

Definition writeFrame (w w' : World) : Prop :=
  durable w' = durable w /\ tracedBy anyEvent w w'.

(** The world after a [flush] whose durable write failed. *)
Definition writeFailedWorld (w : World) (sd : StateData.t) (contents : list ContentAndHash)
    (d : Durable) : World :=
  mkWorld d (cacheStore w) true (cacheDirty w) (Some (Ok contents))
    (currentFilePrefix w) (currentContentProvider w) (staticFilesSourceArg w)
    (Some sd)
    (trace w ++ [EvMkdirp (path_dirname (currentFilePrefix w));
                 EvWriteContents (currentContentProvider w) (currentFilePrefix w) contents]).

(** What [updateConfig] never changes, whatever its outcome. *)
Record configFrame (w w' : World) : Prop := mkConfigFrame {
  cf_dirty : dirty w' = dirty w;
  cf_currentFilePrefix : currentFilePrefix w' = currentFilePrefix w;
  cf_cacheStore : cacheStore w' = cacheStore w;
  cf_staticFilesSourceArg : staticFilesSourceArg w' = staticFilesSourceArg w;
}.

(** [updateConfig] step by step, once the new provider is chosen and the
    contents are obtained. *)
Definition afterTempWrite (w : World) (newProvider : StateContentProvider Durable)
    (contents : list ContentAndHash) (d : Durable) : World :=
  with_durable d
    (logEvent (EvWriteContents newProvider (tempPrefixOf (currentFilePrefix w)) contents) w).

Definition afterClear (w : World) (d : Durable) : World :=
  with_durable d (logEvent (EvClear (currentContentProvider w) (currentFilePrefix w)) w).

Definition afterRename (w : World) (newProvider : StateContentProvider Durable)
    (tempPrefix : string) (d : Durable) : World :=
  with_currentContentProvider newProvider
    (with_durable d
       (logEvent (EvRename newProvider tempPrefix (path_basename (currentFilePrefix w))) w)).

Definition afterFailedRename (w : World) (newProvider : StateContentProvider Durable)
    (tempPrefix : string) (d : Durable) : World :=
  with_durable d
    (logEvent (EvRename newProvider tempPrefix (path_basename (currentFilePrefix w))) w).

Definition notRead (ev : Event) : Prop := ~ isReadEvent ev.

(** The frame of [updateConfig] as the specification states it: the flags,
    the memoized contents and the prefix are unchanged and nothing is
    read. *)
Definition changesOnlyProvider (args : UpdateConfigArgs) (w : World) : Prop :=
  let w' := snd (updateConfig args w) in
  dirty w' = dirty w
  /\ cacheDirty w' = cacheDirty w
  /\ contentsAndHash w' = contentsAndHash w
  /\ currentFilePrefix w' = currentFilePrefix w
  /\ tracedBy notRead w w'.





(** Contents are only memoized from loaded data. *)
Definition memoImpliesLoaded (w : World) : Prop :=
  forall contents, contentsAndHash w = Some (Ok contents) -> innerStateData w <> None.


(** The operations of the state returned by [localState]. *)
Inductive Operation : Type :=
| OpGetAll
| OpSet (element : Element)
| OpRemove (id : ElemID)
| OpRename (newPrefix : string)
| OpFlush
| OpCalculateHash
| OpClear
| OpUpdateStateFromChanges (changes : Changes)
| OpUpdateConfig (args : UpdateConfigArgs).

Definition run (op : Operation) (w : World) : World :=
  match op with
  | OpGetAll => snd (inMemState_getAll w)
  | OpSet element => snd (state_set element w)
  | OpRemove id => snd (state_remove id w)
  | OpRename newPrefix => snd (state_rename newPrefix w)
  | OpFlush => snd (flush w)
  | OpCalculateHash => snd (calculateHash w)
  | OpClear => snd (state_clear w)
  | OpUpdateStateFromChanges changes => snd (updateStateFromChanges changes w)
  | OpUpdateConfig args => snd (updateConfig args w)
  end.

(** The worlds a [localState] goes through, each operation being awaited
    before the next is issued. *)
Inductive reachable : World -> Prop :=
| reachable_localState filePrefix contentProvider staticFiles d c :
    reachable (localState filePrefix contentProvider staticFiles d c)
| reachable_run op w :
    reachable w -> reachable (run op w).

Definition keepsMemo (w w' : World) : Prop :=
  memoImpliesLoaded w -> memoImpliesLoaded w'.

(** A content stream through [createGunzip] and the jsonl parser. *)
Definition readBack (b : Buffer) : result (list json) :=
  (let? text := createGunzip b in parser text)%res.

(** The text [getStateStream] yields for an account with the given
    elements and, if the path index has a group for it, path entries. *)
Definition accountText (accountElements : list Element) (account : string)
    (pathEntries : option (list PathEntry)) : string :=
  yieldWithEOL
    [ serializeStream (sortBy (fun element => getFullName (elemID element)) accountElements);
      safeJsonStringify (JStr account);
      default "[]" (option_map serializedPathIndex pathEntries) ].

(** The libraries read the stream of one account back as they wrote it:
    three lines, holding a value that deserializes to the sorted elements,
    the account name, and the path entries. *)
Definition roundTrips (accountElements : list Element) (account : string)
    (pathEntries : option (list PathEntry)) : Prop :=
  exists j,
    readBack (createGZipWriteStream (accountText accountElements account pathEntries))
    = Ok [j; JStr account; JArr (map pathEntryJson (default [] pathEntries))]
    /\ deserializeParsed j
       = Ok (sortBy (fun element => getFullName (elemID element)) accountElements).

Definition codecRoundTrips (elements : list Element) (pathIndexEntries : list PathEntry)
  : Prop :=
  forall account accountElements,
    (account, accountElements) ∈ groupBy (fun element => adapter (elemID element)) elements ->
    roundTrips accountElements account
      (obj_get (groupPathIndexByAccount pathIndexEntries) account).

(** The content hash as the specification states it: the digest of the
    uncompressed state text of the account. *)
Definition hashesStateText (elements : list Element) (pathIndexEntries : list PathEntry)
  : Prop :=
  forall account fileContent,
    (account, fileContent) ∈ Object_entries (stateTextPerAccount elements pathIndexEntries) ->
    contentHash (contentAndHashOf (account, fileContent)) = toMD5 fileContent.

(** The round trip as the specification states it: every lookup in the
    path index is preserved. *)
Definition roundTripExact (elements : list Element) (index : gmap string (list Path)) : Prop :=
  forall streams : list NamedStream,
    map stream streams
    = map content
        (map contentAndHashOf
           (Object_entries (stateTextPerAccount elements (map_to_list index)))) ->
    exists res,
      parseStateContent streams = Ok res
      /\ ParsedState.elements res ≡ₚ elements
      /\ forall key,
           pathIndex_setAll (loadPathIndex (ParsedState.pathIndices res)) ∅ !! key
           = index !! key.

End Notions.

(** * Further notions *)

Section MoreNotions.
Context `{C : Collaborators}.
Local Open Scope world_scope.

(** Two parse results put together, component by component. *)
Definition appendParsed (a b : ParsedState.t) : ParsedState.t :=
  ParsedState.mk (ParsedState.elements a ++ ParsedState.elements b)
    (ParsedState.accounts a ++ ParsedState.accounts b)
    (ParsedState.pathIndices a ++ ParsedState.pathIndices b).

(** The ways in which one content stream can make [parseStateContent]
    fail with [e]: in [createGunzip], in the jsonl parser, or in
    [deserializeParsed] on its first line. *)
Definition streamFailsWith (s : NamedStream) (e : error) : Prop :=
  createGunzip (stream s) = Err e
  \/ (exists text, createGunzip (stream s) = Ok text /\ parser text = Err e)
  \/ (exists text first rest,
        createGunzip (stream s) = Ok text
        /\ parser text = Ok (first :: rest)
        /\ deserializeParsed first = Err e).

End MoreNotions.

Section ProviderNotions.
Context `{C : Collaborators}.
Local Open Scope world_scope.

(** [stateConfig.options?.s3?.bucket] *)
Definition configuredBucket (config : StateConfig) : option string :=
  match options_s3 config with
  | Some options => bucket options
  | None => None
  end.

(** The configurations [getStateContentProvider] rejects, with the message
    of the error it throws. *)
Definition rejectedConfig (config : StateConfig) (e : error) : Prop :=
  (provider config = "s3" /\ configuredBucket config = None /\ e = missingBucketMessage)
  \/ (provider config <> "file" /\ provider config <> "s3"
      /\ e = ("Unsupported state provider " ++ provider config)%string).

(** The operations that change the elements of the state. *)
Inductive Mutation : Type :=
| SetElement (element : Element)
| RemoveElement (id : ElemID)
| ApplyChanges (changes : Changes).

Definition mutate (m : Mutation) : M unit :=
  match m with
  | SetElement element => state_set element
  | RemoveElement id => state_remove id
  | ApplyChanges changes => updateStateFromChanges changes
  end.

(** The steps at which [updateConfig] can fail with [e] before it
    switches the provider: the choice of the new provider, the contents,
    the write under the temporary prefix, the clear of the old content, and
    the rename; each is reached only when the ones before it succeeded and
    acts on the storage they left. *)
Definition configFailsWith (args : UpdateConfigArgs) (w : World) (e : error) : Prop :=
  let old := currentContentProvider w in
  let prefix := currentFilePrefix w in
  let temp := tempPrefixOf prefix in
  getStateContentProvider (workspaceId args) (stateConfig args) = Err e
  \/ exists newProvider,
       getStateContentProvider (workspaceId args) (stateConfig args) = Ok newProvider
       /\ (fst (getContentAndHash w) = Err e
           \/ exists contents,
                fst (getContentAndHash w) = Ok contents
                /\ (fst (writeContents newProvider temp contents (durable w)) = Err e
                    \/ exists d,
                         writeContents newProvider temp contents (durable w) = (Ok tt, d)
                         /\ (fst (clear old prefix d) = Err e
                             \/ exists d1,
                                  clear old prefix d = (Ok tt, d1)
                                  /\ fst (rename newProvider temp (path_basename prefix) d1)
                                     = Err e))).

End ProviderNotions.

Section FlushNotions.
Context `{C : Collaborators}.
Local Open Scope world_scope.

(** The world after a successful [rename] to [newPrefix] that left the
    storage [d]. *)
Definition renamedWorld (w : World) (newPrefix : string) (d : Durable) : World :=
  mkWorld d (cacheStore w) true (cacheDirty w) None newPrefix
    (currentContentProvider w) (staticFilesSourceArg w) (innerStateData w)
    (trace w ++ [EvStaticRename newPrefix;
                 EvRename (currentContentProvider w) (currentFilePrefix w) newPrefix]).

(** The world in which the in-memory clear of [clear] runs, the provider's
    [clear] having been issued. *)
Definition afterProviderClear (w : World) : World :=
  with_durable (snd (clear (currentContentProvider w) (currentFilePrefix w) (durable w)))
    (logEvent (EvClear (currentContentProvider w) (currentFilePrefix w)) w).

(** The calls a [flush] may make when the provider is [p] and the prefix
    is [prefix]: reads, the flush of the cache store, the creation of the
    directory of [prefix], and writes through [p] under [prefix]. *)
Definition flushes (p : StateContentProvider Durable) (prefix : string) (ev : Event) : Prop :=
  match ev with
  | EvWriteContents p' prefix' _ => p' = p /\ prefix' = prefix
  | EvMkdirp dir => dir = path_dirname prefix
  | EvRename _ _ _ | EvClear _ _ | EvStaticRename _ => False
  | _ => True
  end.

(** The prefix, the provider and the static files source given to
    [localState] stay, and the trace grows by events satisfying [P]. *)
Record callsOnly (P : Event -> Prop) (w w' : World) : Prop := mkCallsOnly {
  co_currentFilePrefix : currentFilePrefix w' = currentFilePrefix w;
  co_currentContentProvider : currentContentProvider w' = currentContentProvider w;
  co_staticFilesSourceArg : staticFilesSourceArg w' = staticFilesSourceArg w;
  co_trace : tracedBy P w w';
}.

(** [callsOnly P] for the operations started with the provider [p] and the
    prefix [prefix]. *)
Definition atTarget (p : StateContentProvider Durable) (prefix : string)
    (P : Event -> Prop) (w w' : World) : Prop :=
  currentContentProvider w = p -> currentFilePrefix w = prefix -> callsOnly P w w'.

(** The world of a dirty [flush] once the directory of the prefix has been
    created, leaving the storage [d]. *)
Definition afterMkdirp (w : World) (d : Durable) : World :=
  with_durable d (logEvent (EvMkdirp (path_dirname (currentFilePrefix w))) w).

(** The world of a dirty [flush] of [w] once the contents have been
    obtained, in the world [wb], and handed to the provider's write, which
    left the storage [d]. *)
Definition afterContentWrite (w wb : World) (contents : list ContentAndHash) (d : Durable)
  : World :=
  with_durable d
    (logEvent (EvWriteContents (currentContentProvider w) (currentFilePrefix w) contents) wb).

(** What follows the durable write in [flush] when the data [sd] is
    loaded: the hash is recorded, the cache is persisted and, if that
    succeeds, [dirty] is cleared. *)
Definition afterWriteLoaded (updatedHash : string) (sd : StateData.t) (w : World)
  : result unit * World :=
  let hashed := with_innerStateData (Some (withHash updatedHash sd)) w in
  match flushStateData (withHash updatedHash sd) (cacheStore w) with
  | (Ok _, c) => (Ok tt, with_dirty false (with_cacheStore c (logEvent EvFlushStateData hashed)))
  | (Err e, c) => (Err e, with_cacheStore c (logEvent EvFlushStateData hashed))
  end.

(** [ensures Q m]: when [m] succeeds, the world it leaves satisfies [Q]. *)
Definition ensures {A} (Q : World -> Prop) (m : M A) : Prop :=
  forall w a, fst (m w) = Ok a -> Q (snd (m w)).

(** The world after a [flush] of dirty, loaded state whose contents were
    memoized and whose cache data [sd] already records their hash. *)
Definition flushedAsHashed (w : World) (sd : StateData.t) (contents : list ContentAndHash)
    (d : Durable) (c : CacheStore) : World :=
  mkWorld d c false (cacheDirty w) (Some (Ok contents))
    (currentFilePrefix w) (currentContentProvider w) (staticFilesSourceArg w)
    (Some sd)
    (trace w ++ [EvMkdirp (path_dirname (currentFilePrefix w));
                 EvWriteContents (currentContentProvider w) (currentFilePrefix w) contents;
                 EvFlushStateData]).

End FlushNotions.

Section LoadNotions.
Context `{C : Collaborators}.
Local Open Scope world_scope.

(** The steps at which [loadStateData] can fail with [e], in order: the
    opening of the cache, the listing of the state files, their hash, and,
    when the recorded hash differs, their reading and their parsing. *)
Definition loadFailsWith (w : World) (e : error) : Prop :=
  let p := currentContentProvider w in
  buildStateData (cacheStore w) = Err e
  \/ exists quick,
       buildStateData (cacheStore w) = Ok quick
       /\ (findStateFiles p (currentFilePrefix w) (durable w) = Err e
           \/ exists filePaths,
                findStateFiles p (currentFilePrefix w) (durable w) = Ok filePaths
                /\ (getHash p filePaths (durable w) = Err e
                    \/ exists stateFilesHash,
                         getHash p filePaths (durable w) = Ok stateFilesHash
                         /\ quickAccessHashOf quick <> stateFilesHash
                         /\ (readContents p filePaths (durable w) = Err e
                             \/ exists streams,
                                  readContents p filePaths (durable w) = Ok streams
                                  /\ parseStateContent streams = Err e))).

(** The world after a stale cache has been refreshed by a first access and
    persisted by the [flush] that follows. *)
Definition refreshedWorld (w : World) (filePaths : list string) (synced : StateData.t)
    (c : CacheStore) : World :=
  mkWorld (durable w) c false false (contentsAndHash w)
    (currentFilePrefix w) (currentContentProvider w) (staticFilesSourceArg w)
    (Some synced)
    (trace w ++ [EvBuildStateData;
                 EvFindStateFiles (currentContentProvider w) (currentFilePrefix w);
                 EvGetHash (currentContentProvider w) filePaths;
                 EvReadContents (currentContentProvider w) filePaths;
                 EvFlushStateData]).

End LoadNotions.

Section TextNotions.
Context `{C : Collaborators}.

(** The elements of [elements] that belong to [account], in their order. *)
Definition elementsOf (account : string) (elements : list Element) : list Element :=
  List.filter (fun element => String.eqb (adapter (elemID element)) account) elements.

(** The content units [calculateContentAndHash] makes of given elements
    and path index entries. *)
Definition contentUnits (elements : list Element) (pathIndexEntries : list PathEntry)
  : list ContentAndHash :=
  map contentAndHashOf (Object_entries (stateTextPerAccount elements pathIndexEntries)).

End TextNotions.

(** The order [_.sortBy] sorts by. *)
Definition keyLe {A} (key : A -> string) (x y : A) : Prop :=
  String.leb (key x) (key y) = true.

Section CurrentNotions.
Context `{C : Collaborators}.
Local Open Scope world_scope.

(** Memoized contents are those of the data in memory. *)
Definition memoCurrent (w : World) : Prop :=
  forall contents,
    contentsAndHash w = Some (Ok contents) ->
    exists sd, innerStateData w = Some sd /\ contents = contentsOf sd.

Definition keepsCurrent (w w' : World) : Prop :=
  memoCurrent w -> memoCurrent w'.

End CurrentNotions.

Section ReloadNotions.
Context `{C : Collaborators}.

(** The elements map holds every element under its full name, as the
    elements source of the state does. *)
Definition keyedByFullName (m : gmap string Element) : Prop :=
  forall k e, m !! k = Some e -> getFullName (elemID e) = k.

(** The provider [p] shows under [prefix], in the storage [d], the files
    [filePaths] with the hash [stateFilesHash], and reads from them the
    bytes of [contents], unit by unit. *)
Record showsContents (p : StateContentProvider Durable) (prefix : string) (d : Durable)
    (contents : list ContentAndHash) (filePaths : list string) (stateFilesHash : string)
    (streams : list NamedStream) : Prop := mkShowsContents {
  shows_files : findStateFiles p prefix d = Ok filePaths;
  shows_hash : getHash p filePaths d = Ok stateFilesHash;
  shows_streams : readContents p filePaths d = Ok streams;
  shows_bytes : map stream streams = map content contents;
}.

End ReloadNotions.

Section FootprintNotions.
Context `{C : Collaborators}.
Local Open Scope world_scope.

(** What the operations other than [flush], [rename] and [updateConfig]
    leave alone: the cache store, the prefix, the provider and the static
    files source given to [localState]; and they never clear [dirty]. *)
Record mutationFrame (w w' : World) : Prop := mkMutationFrame {
  mf_cacheStore : cacheStore w' = cacheStore w;
  mf_currentFilePrefix : currentFilePrefix w' = currentFilePrefix w;
  mf_currentContentProvider : currentContentProvider w' = currentContentProvider w;
  mf_staticFilesSourceArg : staticFilesSourceArg w' = staticFilesSourceArg w;
  mf_dirty : dirty w = true -> dirty w' = true;
}.

(** The operations that only read the storage. *)
Definition readsOnly (op : Operation) : bool :=
  match op with
  | OpGetAll | OpSet _ | OpRemove _ | OpCalculateHash | OpUpdateStateFromChanges _ => true
  | _ => false
  end.

End FootprintNotions.

(** * In-memory collaborators

    Stand-ins for what state.ts imports, with which the operations above can
    be run on concrete workspaces: storage held in memory, UNIX-style paths,
    JSON text with a small parser, a gzip framing that stores its payload,
    and MD5 digests. *)

Module Doubles.

(** ** Paths of the form [dir/base] *)

Fixpoint splitOn (sep : ascii) (s : string) : list string :=
  match s with
  | EmptyString => [EmptyString]
  | String c rest =>
      if Ascii.eqb c sep then EmptyString :: splitOn sep rest
      else match splitOn sep rest with
           | piece :: pieces => String c piece :: pieces
           | [] => [String c EmptyString]
           end
  end.

Definition basename (p : string) : string :=
  List.last (splitOn "/" p) EmptyString.

Definition dirname (p : string) : string :=
  match List.removelast (splitOn "/" p) with
  | [] => "."
  | dirs => String.concat "/" dirs
  end.

Definition join (dir base : string) : string :=
  if String.eqb dir "." then base else (dir ++ "/" ++ base)%string.

(** ** JSON text *)

Fixpoint render (v : json) : string :=
  match v with
  | JNull => "null"
  | JBool true => "true"
  | JBool false => "false"
  | JNum z => DecimalString.NilZero.string_of_int (Z.to_int z)
  | JStr s => (dquote ++ s ++ dquote)%string
  | JArr items => ("[" ++ String.concat "," (map render items) ++ "]")%string
  | JObj members =>
      ("{" ++ String.concat ","
                (map (fun kv => (dquote ++ fst kv ++ dquote ++ ":" ++ render (snd kv))%string)
                   members)
           ++ "}")%string
  end.

Definition isQuote (c : ascii) : bool := Ascii.eqb c (ascii_of_nat 34).

Definition isDigit (c : ascii) : bool :=
  match digit_of c with Some _ => true | None => false end.

(** The characters up to the closing quote, and what follows it. *)
Fixpoint readString (s : string) : option (string * string) :=
  match s with
  | EmptyString => None
  | String c rest =>
      if isQuote c then Some (EmptyString, rest)
      else match readString rest with
           | Some (str, rest') => Some (String c str, rest')
           | None => None
           end
  end.

Fixpoint readDigits (s : string) : string * string :=
  match s with
  | EmptyString => (EmptyString, EmptyString)
  | String c rest =>
      if isDigit c then let (ds, rest') := readDigits rest in (String c ds, rest')
      else (EmptyString, s)
  end.

Definition readNumber (s : string) : option (json * string) :=
  match s with
  | String "-" rest =>
      let (ds, rest') := readDigits rest in
      match DecimalString.NilZero.int_of_string (String "-" ds) with
      | Some i => Some (JNum (Z.of_int i), rest')
      | None => None
      end
  | _ =>
      let (ds, rest') := readDigits s in
      match DecimalString.NilZero.int_of_string ds with
      | Some i => Some (JNum (Z.of_int i), rest')
      | None => None
      end
  end.

(** A recursive-descent reader for the texts [render] writes (no white
    space, no escapes); [fuel] bounds the nesting and the item counts. *)
Fixpoint readValue (fuel : nat) (s : string) : option (json * string) :=
  match fuel with
  | O => None
  | S fuel' =>
      match s with
      | String "n" (String "u" (String "l" (String "l" rest))) => Some (JNull, rest)
      | String "t" (String "r" (String "u" (String "e" rest))) => Some (JBool true, rest)
      | String "f" (String "a" (String "l" (String "s" (String "e" rest)))) =>
          Some (JBool false, rest)
      | String "[" (String "]" rest) => Some (JArr [], rest)
      | String "[" rest =>
          match readItems fuel' rest with
          | Some (items, rest') => Some (JArr items, rest')
          | None => None
          end
      | String "{" (String "}" rest) => Some (JObj [], rest)
      | String "{" rest =>
          match readMembers fuel' rest with
          | Some (members, rest') => Some (JObj members, rest')
          | None => None
          end
      | String c rest =>
          if isQuote c then
            match readString rest with
            | Some (str, rest') => Some (JStr str, rest')
            | None => None
            end
          else readNumber s
      | EmptyString => None
      end
  end
with readItems (fuel : nat) (s : string) : option (list json * string) :=
  match fuel with
  | O => None
  | S fuel' =>
      match readValue fuel' s with
      | Some (v, String "," rest) =>
          match readItems fuel' rest with
          | Some (vs, rest') => Some (v :: vs, rest')
          | None => None
          end
      | Some (v, String "]" rest) => Some ([v], rest)
      | _ => None
      end
  end
with readMembers (fuel : nat) (s : string) : option (list (string * json) * string) :=
  match fuel with
  | O => None
  | S fuel' =>
      match s with
      | String c rest =>
          if isQuote c then
            match readString rest with
            | Some (key, String ":" rest') =>
                match readValue fuel' rest' with
                | Some (v, String "," rest'') =>
                    match readMembers fuel' rest'' with
                    | Some (ms, rest''') => Some ((key, v) :: ms, rest''')
                    | None => None
                    end
                | Some (v, String "}" rest'') => Some ([(key, v)], rest'')
                | _ => None
                end
            | _ => None
            end
          else None
      | EmptyString => None
      end
  end.

Definition parseJson (line : string) : result json :=
  match readValue (S (String.length line)) line with
  | Some (v, EmptyString) => Ok v
  | _ => Err "Unexpected token in JSON"
  end.

Definition LF : string := String (ascii_of_nat 10) EmptyString.

Fixpoint parseJsonLines (lines : list string) : result (list json) :=
  match lines with
  | [] => Ok []
  | line :: rest =>
      if String.eqb line "" then parseJsonLines rest
      else
        match parseJson line with
        | Ok v =>
            match parseJsonLines rest with
            | Ok vs => Ok (v :: vs)
            | Err e => Err e
            end
        | Err e => Err e
        end
  end.

Definition jsonl (text : string) : result (list json) :=
  parseJsonLines (splitOn (ascii_of_nat 10) text).

(** ** Elements as JSON *)

Definition elementJson (e : Element) : json :=
  JObj [("elemID", JObj [("adapter", JStr (adapter (elemID e)));
                         ("nameParts", JArr (map JStr (nameParts (elemID e))))]);
        ("body", body e)].

Definition decodeElement (v : json) : option Element :=
  match v with
  | JObj [(_, JObj [(_, JStr a); (_, JArr parts)]); (_, b)] =>
      match mapM decodeString parts with
      | Some ps => Some (mkElement (mkElemID a ps) b)
      | None => None
      end
  | _ => None
  end.

Definition serializeElements (els : list Element) : string :=
  render (JArr (map elementJson els)).

Definition deserializeElements (v : json) : result (list Element) :=
  match v with
  | JArr items =>
      match mapM decodeElement items with
      | Some els => Ok els
      | None => Err "failed to deserialize an element"
      end
  | _ => Err "expected an array of elements"
  end.

(** ** Compression framing: the gzip header, then the payload as it is *)

Definition gzipHeader : Buffer :=
  [Byte.x1f; Byte.x8b; Byte.x08; Byte.x00; Byte.x00; Byte.x00; Byte.x00; Byte.x00;
   Byte.x00; Byte.x03].

Definition gzipStore (text : string) : Buffer :=
  gzipHeader ++ list_byte_of_string text.

Fixpoint stripHeader (header bytes : Buffer) : option Buffer :=
  match header, bytes with
  | [], _ => Some bytes
  | h :: header', b :: bytes' =>
      if Byte.eqb h b then stripHeader header' bytes' else None
  | _ :: _, [] => None
  end.

Definition gunzipStore (bytes : Buffer) : result string :=
  match stripHeader gzipHeader bytes with
  | Some payload => Ok (string_of_list_byte payload)
  | None => Err "incorrect header check"
  end.

(** ** MD5 (RFC 1321), on the bytes of a string, in lower-case hexadecimal *)

Definition mask32 (x : Z) : Z := Z.land x 0xffffffff.

Definition rotl32 (x : Z) (n : Z) : Z :=
  mask32 (Z.lor (Z.shiftl (mask32 x) n) (Z.shiftr (mask32 x) (32 - n))).

Definition not32 (x : Z) : Z := Z.lxor (mask32 x) 0xffffffff.

Definition md5K : list Z :=
  [0xd76aa478; 0xe8c7b756; 0x242070db; 0xc1bdceee; 0xf57c0faf; 0x4787c62a; 0xa8304613; 0xfd469501;
   0x698098d8; 0x8b44f7af; 0xffff5bb1; 0x895cd7be; 0x6b901122; 0xfd987193; 0xa679438e; 0x49b40821;
   0xf61e2562; 0xc040b340; 0x265e5a51; 0xe9b6c7aa; 0xd62f105d; 0x02441453; 0xd8a1e681; 0xe7d3fbc8;
   0x21e1cde6; 0xc33707d6; 0xf4d50d87; 0x455a14ed; 0xa9e3e905; 0xfcefa3f8; 0x676f02d9; 0x8d2a4c8a;
   0xfffa3942; 0x8771f681; 0x6d9d6122; 0xfde5380c; 0xa4beea44; 0x4bdecfa9; 0xf6bb4b60; 0xbebfbc70;
   0x289b7ec6; 0xeaa127fa; 0xd4ef3085; 0x04881d05; 0xd9d4d039; 0xe6db99e5; 0x1fa27cf8; 0xc4ac5665;
   0xf4292244; 0x432aff97; 0xab9423a7; 0xfc93a039; 0x655b59c3; 0x8f0ccc92; 0xffeff47d; 0x85845dd1;
   0x6fa87e4f; 0xfe2ce6e0; 0xa3014314; 0x4e0811a1; 0xf7537e82; 0xbd3af235; 0x2ad7d2bb; 0xeb86d391]%Z.

Definition md5Shifts : list Z :=
  [7; 12; 17; 22; 7; 12; 17; 22; 7; 12; 17; 22; 7; 12; 17; 22;
   5; 9; 14; 20; 5; 9; 14; 20; 5; 9; 14; 20; 5; 9; 14; 20;
   4; 11; 16; 23; 4; 11; 16; 23; 4; 11; 16; 23; 4; 11; 16; 23;
   6; 10; 15; 21; 6; 10; 15; 21; 6; 10; 15; 21; 6; 10; 15; 21]%Z.

Definition md5State : Type := Z * Z * Z * Z.

Definition md5Step (words : list Z) (st : md5State) (i : nat) : md5State :=
  let '(a, b, c, d) := st in
  let f :=
    if (i <? 16)%nat then Z.lor (Z.land b c) (Z.land (not32 b) d)
    else if (i <? 32)%nat then Z.lor (Z.land d b) (Z.land (not32 d) c)
    else if (i <? 48)%nat then Z.lxor b (Z.lxor c d)
    else Z.lxor c (Z.lor b (not32 d)) in
  let g :=
    if (i <? 16)%nat then i
    else if (i <? 32)%nat then ((5 * i + 1) mod 16)%nat
    else if (i <? 48)%nat then ((3 * i + 5) mod 16)%nat
    else ((7 * i) mod 16)%nat in
  let sum := mask32 (f + a + nth i md5K 0 + nth g words 0)%Z in
  (d, mask32 (b + rotl32 sum (nth i md5Shifts 0))%Z, b, c).

Definition md5Block (st : md5State) (words : list Z) : md5State :=
  let '(a0, b0, c0, d0) := st in
  let '(a, b, c, d) := fold_left (md5Step words) (seq 0 64) st in
  (mask32 (a0 + a), mask32 (b0 + b), mask32 (c0 + c), mask32 (d0 + d))%Z.

Fixpoint littleEndianWords (bytes : list Z) : list Z :=
  match bytes with
  | b0 :: b1 :: b2 :: b3 :: rest =>
      (b0 + 256 * b1 + 65536 * b2 + 16777216 * b3)%Z :: littleEndianWords rest
  | _ => []
  end.

Fixpoint blocksOf (fuel : nat) (words : list Z) : list (list Z) :=
  match fuel, words with
  | S fuel', _ :: _ => firstn 16 words :: blocksOf fuel' (skipn 16 words)
  | _, _ => []
  end.

Definition littleEndianBytes (count : nat) (x : Z) : list Z :=
  map (fun k => Z.land (Z.shiftr x (8 * Z.of_nat k)) 255) (seq 0 count).

Definition md5Pad (bytes : list Z) : list Z :=
  let len := Z.of_nat (length bytes) in
  let zeros := Z.to_nat ((55 - len) mod 64) in
  bytes ++ [128%Z] ++ repeat 0%Z zeros ++ littleEndianBytes 8 (8 * len).

Definition hexDigit (x : Z) : ascii :=
  nth (Z.to_nat x) (list_ascii_of_string "0123456789abcdef") "0"%char.

Definition hexByte (x : Z) : string :=
  String (hexDigit (Z.shiftr x 4)) (String (hexDigit (Z.land x 15)) EmptyString).

Definition md5 (text : string) : string :=
  let bytes := map (fun b => Z.of_N (Byte.to_N b)) (list_byte_of_string text) in
  let words := littleEndianWords (md5Pad bytes) in
  let '(a, b, c, d) :=
    fold_left md5Block (blocksOf (length words) words)
      (0x67452301, 0xefcdab89, 0x98badcfe, 0x10325476)%Z in
  String.concat ""
    (map hexByte (littleEndianBytes 4 a ++ littleEndianBytes 4 b
                    ++ littleEndianBytes 4 c ++ littleEndianBytes 4 d)).

Definition hashOfHashes (hashes : list string) : string :=
  md5 (render (JArr (map JStr hashes))).

(** ** Storage held in memory

    Modelled from the spec: the content providers (content_providers, not
    among the sources). A backend owns named blobs, one per account under a
    prefix; it enumerates, reads, writes, renames and clears them, and its
    hash combines the digests of the blobs asked for. [rename] keeps the
    directory of the old prefix and replaces its last component. A backend
    that is not writable fails every write and leaves the storage as it
    was. *)

Record Blob : Type := mkBlob {
  blobBackend : string;
  blobPrefix : string;
  blobAccount : string;
  blobBytes : Buffer;
}.

Definition Storage : Type := list Blob.

Definition blobPath (b : Blob) : string :=
  (blobPrefix b ++ "." ++ blobAccount b ++ ".jsonl.zip")%string.

Definition inPrefix (backend prefix : string) (b : Blob) : bool :=
  String.eqb (blobBackend b) backend && String.eqb (blobPrefix b) prefix.

Definition findBlob (backend : string) (d : Storage) (path : string) : option Blob :=
  List.find (fun b => String.eqb (blobBackend b) backend && String.eqb (blobPath b) path) d.

Definition memFindStateFiles (backend prefix : string) (d : Storage) : result (list string) :=
  Ok (map blobPath (List.filter (inPrefix backend prefix) d)).

Definition memGetHash (backend : string) (filePaths : list string) (d : Storage) : result string :=
  match mapM (findBlob backend d) filePaths with
  | Some blobs => Ok (hashOfHashes (map (fun b => md5 (string_of_list_byte (blobBytes b))) blobs))
  | None => Err "ENOENT: no such file"
  end.

Definition memReadContents (backend : string) (filePaths : list string) (d : Storage)
  : result (list NamedStream) :=
  match mapM (findBlob backend d) filePaths with
  | Some blobs => Ok (map (fun b => mkNamedStream (blobPath b) (blobBytes b)) blobs)
  | None => Err "ENOENT: no such file"
  end.

Definition overwrittenBy (backend prefix : string) (contents : list ContentAndHash) (b : Blob) : bool :=
  inPrefix backend prefix b
  && existsb (fun c => String.eqb (account c) (blobAccount b)) contents.

Definition memWriteContents (writable : bool) (backend prefix : string)
    (contents : list ContentAndHash) (d : Storage) : result unit * Storage :=
  if writable then
    (Ok tt,
     List.filter (fun b => negb (overwrittenBy backend prefix contents b)) d
       ++ map (fun c => mkBlob backend prefix (account c) (content c)) contents)
  else (Err "EROFS: read-only storage", d).

Definition memRename (backend oldPrefix newPrefix : string) (d : Storage) : result unit * Storage :=
  (Ok tt,
   map (fun b =>
          if inPrefix backend oldPrefix b
          then mkBlob backend (join (dirname oldPrefix) newPrefix) (blobAccount b) (blobBytes b)
          else b) d).

Definition memClear (backend prefix : string) (d : Storage) : result unit * Storage :=
  (Ok tt, List.filter (fun b => negb (inPrefix backend prefix b)) d).

Definition memStaticFiles : StateStaticFilesSource Storage :=
  mkStaticFiles Storage (fun _ d => (Ok tt, d)).

Definition memProvider (writable : bool) (backend : string) : StateContentProvider Storage :=
  mkProvider Storage
    (memFindStateFiles backend)
    (memGetHash backend)
    (memReadContents backend)
    (memWriteContents writable backend)
    (memRename backend)
    (memClear backend)
    memStaticFiles.

(** ** The collaborators assembled *)

Definition inMemory : Collaborators := {|
  Durable := Storage;
  CacheStore := StateData.t;
  Changes := list Element;
  serializeStream := serializeElements;
  deserializeParsed := deserializeElements;
  serializedPathIndex := fun entries => render (JArr (map pathEntryJson entries));
  safeJsonStringify := render;
  EOL := LF;
  createGZipWriteStream := gzipStore;
  createGunzip := gunzipStore;
  parser := jsonl;
  Buffer_toString := string_of_list_byte;
  toMD5 := md5;
  getHashFromHashes := hashOfHashes;
  path_dirname := dirname;
  path_basename := basename;
  path_join := join;
  mkdirp := fun _ d => (Ok tt, d);
  getLocalStoragePath := fun workspaceId => ("/home/.salto/" ++ workspaceId)%string;
  createFileStateContentProvider := fun dir => memProvider true ("file:" ++ dir)%string;
  createS3StateContentProvider :=
    fun _ options => memProvider true ("s3:" ++ default "" (bucket options))%string;
  buildStateData := fun c => Ok c;
  flushStateData := fun sd _ => (Ok tt, sd);
  applyChanges := fun els sd =>
    Ok (StateData.mk (elements_setAll els (StateData.elements sd))
          (StateData.pathIndex sd) (StateData.accounts sd) (StateData.saltoMetadata sd));
|}.


End Doubles.

(** ** Sample workspaces over the in-memory collaborators *)

Module Samples.
Import Doubles.

#[local] Existing Instance inMemory.

Definition accountType : Element :=
  mkElement (mkElemID "salesforce" ["Account"]) (JObj [("label", JStr "Account")]).

Definition leadType : Element :=
  mkElement (mkElemID "salesforce" ["Lead"]) JNull.

Definition ticketField : Element :=
  mkElement (mkElemID "zendesk" ["ticket"; "field"; "subject"]) (JArr [JNum 1]).

Definition sampleElements : list Element := [leadType; ticketField; accountType].

Definition sampleIndex : gmap string (list Path) :=
  {[ "salesforce.Account" := [["salesforce"; "Types"; "Account"]] ]}.

(** A path index with an entry for an account that has no element. *)
Definition orphanIndex : gmap string (list Path) :=
  {[ "netsuite.customer" := [["netsuite"; "Types"; "customer"]] ]}.

Definition sampleContents : list ContentAndHash :=
  map contentAndHashOf
    (Object_entries (stateTextPerAccount sampleElements (map_to_list sampleIndex))).

Definition filePrefix : string := "ws/envs/prod/state".

Definition fileBackend : StateContentProvider Storage :=
  memProvider true "file:/home/.salto/ws".

Definition readOnlyBackend : StateContentProvider Storage :=
  memProvider false "file:/home/.salto/ws".

Definition s3Backend : StateContentProvider Storage :=
  memProvider true "s3:salto-state".

Definition s3Config : UpdateConfigArgs :=
  mkUpdateConfigArgs "ws"
    (Some (mkStateConfig "s3" None (Some (mkS3Options (Some "salto-state") None)))).

(** The storage after the sample elements were flushed to the file
    backend. *)
Definition storedState : Storage :=
  map (fun c => mkBlob "file:/home/.salto/ws" filePrefix (account c) (content c))
    sampleContents.

Definition emptyCache : StateData.t := StateData.mk ∅ ∅ ∅ ∅.

(** A state opened on stored content with an empty cache. *)
Definition opened : World :=
  localState filePrefix fileBackend None storedState emptyCache.

(** A loaded state with unflushed elements, on a writable and on a
    read-only backend. *)
Definition loadedData : StateData.t :=
  StateData.mk (elements_setAll sampleElements ∅) sampleIndex ∅ ∅.

Definition edited : World :=
  mkWorld [] emptyCache true false None filePrefix fileBackend None (Some loadedData) [].

Definition editedReadOnly : World :=
  mkWorld [] emptyCache true false None filePrefix readOnlyBackend None (Some loadedData) [].

Definition storedFiles : list string :=
  ["ws/envs/prod/state.salesforce.jsonl.zip"; "ws/envs/prod/state.zendesk.jsonl.zip"].

Definition storedHash : string :=
  hashOfHashes (map contentHash sampleContents).

Definition storedStreams : list NamedStream :=
  map (fun b => mkNamedStream (blobPath b) (blobBytes b)) storedState.

End Samples.

Module MoreSamples.
Import Doubles Samples.
#[local] Existing Instance inMemory.

(** A state file whose bytes are not a gzip stream. *)
Definition corruptState : Storage :=
  [mkBlob "file:/home/.salto/ws" filePrefix "salesforce" []].

Definition openedCorrupt : World :=
  localState filePrefix fileBackend None corruptState emptyCache.

(** The stored sample opened on a backend that refuses writes. *)
Definition openedReadOnly : World :=
  localState filePrefix readOnlyBackend None storedState emptyCache.

(** States renamed before anything was read: dirty, with no data
    loaded. *)
Definition renamed : World := run (OpRename "staging") opened.

Definition renamedReadOnly : World := run (OpRename "staging") openedReadOnly.

(** A state file in the old format: the accounts line is a dictionary
    from adapter name to the time of its last fetch, and a version line
    and one more line follow the path index. *)
Definition legacyText : string :=
  String.concat LF
    [serializeElements [accountType; leadType];
     render (JObj [("salesforce", JStr "2020-02-06T15:22:51.000Z");
                   ("netsuite", JStr "2020-02-07T09:01:13.000Z")]);
     render (JArr (map pathEntryJson (map_to_list sampleIndex)));
     render (JStr "0.1.2");
     render (JStr "trailer")].

Definition legacyStream : NamedStream :=
  mkNamedStream "ws/envs/prod/state.salesforce.jsonl.zip" (gzipStore legacyText).

(** A backend on which nothing can be removed. *)
Definition lockedBackend : StateContentProvider Storage :=
  mkProvider Storage
    (memFindStateFiles "file:/home/.salto/ws")
    (memGetHash "file:/home/.salto/ws")
    (memReadContents "file:/home/.salto/ws")
    (memWriteContents true "file:/home/.salto/ws")
    (memRename "file:/home/.salto/ws")
    (fun _ d => (Err "EACCES: permission denied", d))
    memStaticFiles.

(** The edited sample flushed to that backend. *)
Definition flushedLocked : World :=
  snd (flush (mkWorld [] emptyCache true false None filePrefix lockedBackend None
                (Some loadedData) [])).

(** The edited sample after its hash was calculated: dirty, with its
    contents memoized. *)
Definition hashedEdited : World := snd (calculateHash edited).

Definition hashedData : StateData.t := withHash storedHash loadedData.

(** The sample elements in another order. *)
Definition reorderedElements : list Element := [accountType; leadType; ticketField].

End MoreSamples.

(** * Properties of the model *)

(** ** What an operation leaves alone

    [preserves R m]: running [m] from any world [w] ends in a world related
    to [w] by [R], whether [m] succeeds or fails. *)

Lemma world_ext `{C : Collaborators} (w w' : World) :
  durable w = durable w' ->
  cacheStore w = cacheStore w' ->
  dirty w = dirty w' ->
  cacheDirty w = cacheDirty w' ->
  contentsAndHash w = contentsAndHash w' ->
  currentFilePrefix w = currentFilePrefix w' ->
  currentContentProvider w = currentContentProvider w' ->
  staticFilesSourceArg w = staticFilesSourceArg w' ->
  innerStateData w = innerStateData w' ->
  trace w = trace w' ->
  w = w'.
Proof. destruct w, w'; cbn; intros; subst; reflexivity. Qed.

(** Equality of two worlds built by the setters, field by field. *)
Ltac world_eq :=
  apply world_ext;
  cbn [durable cacheStore dirty cacheDirty contentsAndHash currentFilePrefix
       currentContentProvider staticFilesSourceArg innerStateData trace
       with_durable with_cacheStore with_dirty with_cacheDirty
       with_contentsAndHash with_currentFilePrefix with_currentContentProvider
       with_innerStateData logEvent];
  rewrite <- ?app_assoc; try reflexivity.

Section Frames.
Context `{C : Collaborators}.
Local Open Scope world_scope.

Lemma preserves_ret {A} R `{!Frame R} (a : A) : preserves R (ret a).
Proof. intros w. apply frame_refl. Qed.

Lemma preserves_throw {A} R `{!Frame R} (e : error) : preserves R (@throw _ A e).
Proof. intros w. apply frame_refl. Qed.

Lemma preserves_gets {A} R `{!Frame R} (f : World -> A) : preserves R (gets f).
Proof. intros w. apply frame_refl. Qed.

Lemma preserves_liftResult {A} R `{!Frame R} (r : result A) : preserves R (liftResult r).
Proof. intros w. apply frame_refl. Qed.

Lemma preserves_bind {A B} R `{!Frame R} (m : M A) (k : A -> M B) :
  preserves R m -> (forall a, preserves R (k a)) -> preserves R (bind m k).
Proof.
  intros Hm Hk w. unfold bind. specialize (Hm w).
  destruct (m w) as [[a|e] w1]; cbn in *; [|exact Hm].
  eapply frame_trans; [exact Hm|apply Hk].
Qed.

Lemma preserves_modify R (f : World -> World) :
  (forall w, R w (f w)) -> preserves R (modify f).
Proof. intros Hf w. apply Hf. Qed.

Lemma preserves_promiseAll2 R `{!Frame R} (a b : M unit) :
  preserves R a -> preserves R b -> preserves R (promiseAll2 a b).
Proof.
  intros Ha Hb w. unfold promiseAll2. specialize (Ha w).
  destruct (a w) as [ra w1]. specialize (Hb w1).
  destruct (b w1) as [rb w2]. cbn in *.
  eapply frame_trans; eassumption.
Qed.

Lemma preserves_if {A} R (b : bool) (m1 m2 : M A) :
  preserves R m1 -> preserves R m2 -> preserves R (if b then m1 else m2).
Proof. destruct b; auto. Qed.

Lemma tracedBy_refl P w : tracedBy P w w.
Proof. exists []. split; [symmetry; apply app_nil_r|constructor]. Qed.

Lemma tracedBy_same P w w' : trace w' = trace w -> tracedBy P w w'.
Proof. intros H. exists []. split; [rewrite H; symmetry; apply app_nil_r|constructor]. Qed.

Lemma tracedBy_trans P w1 w2 w3 :
  tracedBy P w1 w2 -> tracedBy P w2 w3 -> tracedBy P w1 w3.
Proof.
  intros (l1 & H1 & F1) (l2 & H2 & F2). exists (l1 ++ l2). split.
  - rewrite H2, H1. symmetry. apply app_assoc.
  - apply Forall_app; split; assumption.
Qed.

Lemma tracedBy_logEvent (P : Event -> Prop) ev w w' :
  P ev -> trace w' = trace (logEvent ev w) -> tracedBy P w w'.
Proof.
  intros Hev Htr. exists [ev]. split; [exact Htr|]. constructor; [exact Hev|constructor].
Qed.

Lemma tracedBy_weaken (P Q : Event -> Prop) w w' :
  (forall ev, P ev -> Q ev) -> tracedBy P w w' -> tracedBy Q w w'.
Proof.
  intros HPQ (l & Hl & F). exists l. split; [exact Hl|].
  eapply Forall_impl; [exact F|exact HPQ].
Qed.

#[global] Instance loadFrame_Frame : Frame loadFrame.
Proof.
  split.
  - intros w. split; try reflexivity. apply tracedBy_refl.
  - intros w1 w2 w3 [] []. split; try congruence.
    eapply tracedBy_trans; eassumption.
Qed.

Lemma loadFrame_callRead {A} ev (f : Durable -> result A) :
  isReadEvent ev -> preserves loadFrame (callRead ev f).
Proof.
  intros Hev w. cbn. split; try reflexivity.
  eapply tracedBy_logEvent; [exact Hev|reflexivity].
Qed.

Lemma loadFrame_callBuildStateData : preserves loadFrame callBuildStateData.
Proof.
  intros w. cbn. split; try reflexivity.
  apply (tracedBy_logEvent isReadEvent EvBuildStateData); [exact I|reflexivity].
Qed.

Lemma loadFrame_with_cacheDirty b w : loadFrame w (with_cacheDirty b w).
Proof. split; try reflexivity. apply tracedBy_same. reflexivity. Qed.

Lemma loadFrame_with_innerStateData sd w : loadFrame w (with_innerStateData sd w).
Proof. split; try reflexivity. apply tracedBy_same. reflexivity. Qed.

Lemma syncQuickAccessStateData_frame sd filePaths newHash :
  preserves loadFrame (syncQuickAccessStateData sd filePaths newHash).
Proof.
  unfold syncQuickAccessStateData.
  apply preserves_bind; [apply _|apply preserves_gets, _|intros p].
  apply preserves_bind; [apply _|apply loadFrame_callRead; exact I|intros streams].
  apply preserves_bind; [apply _|apply preserves_liftResult, _|intros res].
  apply preserves_ret, _.
Qed.

Lemma loadStateData_frame : preserves loadFrame loadStateData.
Proof.
  unfold loadStateData.
  apply preserves_bind; [apply _|apply loadFrame_callBuildStateData|intros quick].
  apply preserves_bind; [apply _|apply preserves_gets, _|intros p].
  apply preserves_bind; [apply _|apply preserves_gets, _|intros prefix].
  apply preserves_bind; [apply _|apply loadFrame_callRead; exact I|intros filePaths].
  apply preserves_bind; [apply _|apply loadFrame_callRead; exact I|intros stateFilesHash].
  destruct (decide _).
  - apply preserves_bind; [apply _|apply syncQuickAccessStateData_frame|intros synced].
    apply preserves_bind; [apply _| |intros _; apply preserves_ret, _].
    apply preserves_modify. apply loadFrame_with_cacheDirty.
  - apply preserves_ret, _.
Qed.

Lemma stateData_frame : preserves loadFrame stateData.
Proof.
  unfold stateData.
  apply preserves_bind; [apply _|apply preserves_gets, _|intros loaded].
  destruct loaded as [sd|]; [apply preserves_ret, _|].
  apply preserves_bind; [apply _|apply loadStateData_frame|intros sd].
  apply preserves_bind; [apply _| |intros _; apply preserves_ret, _].
  apply preserves_modify. apply loadFrame_with_innerStateData.
Qed.

Lemma preserves_weaken {A} (R R' : World -> World -> Prop) (m : M A) :
  (forall w w', R w w' -> R' w w') -> preserves R m -> preserves R' m.
Proof. intros HRR Hm w. apply HRR, Hm. Qed.

Lemma onFailure_preserves {A} R (m : M A) : preserves R m -> onFailure R m.
Proof. intros Hm w e _. apply Hm. Qed.

Lemma onFailure_bind {A B} R `{!Frame R} (m : M A) (k : A -> M B) :
  preserves R m -> (forall a, onFailure R (k a)) -> onFailure R (bind m k).
Proof.
  intros Hm Hk w e. unfold bind. specialize (Hm w).
  destruct (m w) as [[a|e'] w1]; cbn in *; [|intros _; exact Hm].
  intros Hfail. eapply frame_trans; [exact Hm|]. eapply Hk, Hfail.
Qed.

Lemma onFailure_modify R (f : World -> World) : onFailure R (modify f).
Proof. intros w e H. discriminate H. Qed.

Lemma onFailure_ret {A} R (a : A) : onFailure R (ret a).
Proof. intros w e H. discriminate H. Qed.

#[global] Instance ioFrame_Frame P : Frame (ioFrame P).
Proof.
  split.
  - intros w. split; try reflexivity. apply tracedBy_refl.
  - intros w1 w2 w3 [] []. split; try congruence.
    eapply tracedBy_trans; eassumption.
Qed.

#[global] Instance readFrame_Frame : Frame readFrame.
Proof.
  split.
  - intros w. split; try reflexivity. apply frame_refl.
  - intros w1 w2 w3 [] []. split; try congruence.
    eapply frame_trans; eassumption.
Qed.

Lemma loadFrame_readFrame w w' : loadFrame w w' -> readFrame w w'.
Proof. intros []. split; [assumption|assumption|]. split; assumption. Qed.

Lemma ioFrame_weaken (P Q : Event -> Prop) w w' :
  (forall ev, P ev -> Q ev) -> ioFrame P w w' -> ioFrame Q w w'.
Proof. intros HPQ []. split; try assumption. eapply tracedBy_weaken; eassumption. Qed.

Lemma readFrame_with_innerStateData sd w : readFrame w (with_innerStateData sd w).
Proof. split; try reflexivity. split; try reflexivity. apply tracedBy_same. reflexivity. Qed.

Lemma readFrame_with_contentsAndHash c w : readFrame w (with_contentsAndHash c w).
Proof. split; try reflexivity. split; try reflexivity. apply tracedBy_same. reflexivity. Qed.

Lemma stateData_readFrame : preserves readFrame stateData.
Proof. eapply preserves_weaken; [apply loadFrame_readFrame|apply stateData_frame]. Qed.

Lemma inMemState_getAll_readFrame : preserves readFrame inMemState_getAll.
Proof.
  unfold inMemState_getAll.
  apply preserves_bind; [apply _|apply stateData_readFrame|intros sd].
  apply preserves_ret, _.
Qed.

Lemma inMemState_getPathIndex_readFrame : preserves readFrame inMemState_getPathIndex.
Proof.
  unfold inMemState_getPathIndex.
  apply preserves_bind; [apply _|apply stateData_readFrame|intros sd].
  apply preserves_ret, _.
Qed.

Lemma inMemState_setHash_readFrame h : preserves readFrame (inMemState_setHash h).
Proof.
  unfold inMemState_setHash.
  apply preserves_bind; [apply _|apply stateData_readFrame|intros sd].
  apply preserves_modify. intros w. apply readFrame_with_innerStateData.
Qed.

Lemma calculateContentAndHash_readFrame : preserves readFrame calculateContentAndHash.
Proof.
  unfold calculateContentAndHash, createStateTextPerAccount.
  apply preserves_bind; [apply _| |intros t; apply preserves_ret, _].
  apply preserves_bind; [apply _|apply inMemState_getAll_readFrame|intros els].
  apply preserves_bind; [apply _|apply inMemState_getPathIndex_readFrame|intros idx].
  apply preserves_ret, _.
Qed.

Lemma getContentAndHash_readFrame : preserves readFrame getContentAndHash.
Proof.
  intros w. unfold getContentAndHash.
  destruct (contentsAndHash w) as [settled|]; [apply frame_refl|].
  pose proof (calculateContentAndHash_readFrame w) as H.
  destruct (calculateContentAndHash w) as [r w']. cbn in *.
  eapply frame_trans; [exact H|apply readFrame_with_contentsAndHash].
Qed.

Lemma calculateHashImpl_readFrame : preserves readFrame calculateHashImpl.
Proof.
  unfold calculateHashImpl.
  apply preserves_bind; [apply _|apply preserves_gets, _|intros isDirty].
  destruct (negb isDirty); [apply preserves_ret, _|].
  apply preserves_bind; [apply _|apply getContentAndHash_readFrame|intros contents].
  apply inMemState_setHash_readFrame.
Qed.

(** Leaves for the [ioFrame]. *)

Lemma ioFrame_callWrite P ev (f : Durable -> result unit * Durable) :
  P ev -> preserves (ioFrame P) (callWrite ev f).
Proof.
  intros Hev w. unfold callWrite. destruct (f (durable w)) as [r d]. cbn.
  split; try reflexivity.
  apply (tracedBy_logEvent P ev); [exact Hev|reflexivity].
Qed.

Lemma ioFrame_callFlushStateData P sd :
  P EvFlushStateData -> preserves (ioFrame P) (callFlushStateData sd).
Proof.
  intros Hev w. unfold callFlushStateData.
  destruct (flushStateData sd (cacheStore w)) as [r c]. cbn.
  split; try reflexivity.
  apply (tracedBy_logEvent P EvFlushStateData); [exact Hev|reflexivity].
Qed.

Lemma readFrame_ioFrame (P : Event -> Prop) {A} (m : M A) :
  (forall ev, isReadEvent ev -> P ev) -> preserves readFrame m -> preserves (ioFrame P) m.
Proof.
  intros HP Hm. eapply preserves_weaken; [|exact Hm].
  intros w w' []. eapply ioFrame_weaken; eassumption.
Qed.

Lemma inMemState_flush_ioFrame P :
  (forall ev, isReadEvent ev -> P ev) -> P EvFlushStateData ->
  preserves (ioFrame P) inMemState_flush.
Proof.
  intros HP Hflush. unfold inMemState_flush.
  apply preserves_bind; [apply _| |intros sd].
  - apply readFrame_ioFrame; [exact HP|apply stateData_readFrame].
  - apply ioFrame_callFlushStateData, Hflush.
Qed.

Lemma inMemState_flush_durable (w : World) :
  durable (snd (inMemState_flush w)) = durable w.
Proof.
  unfold inMemState_flush, bind.
  pose proof (stateData_readFrame w) as [Hd _ _].
  destruct (stateData w) as [[sd|e] w1]; cbn in *; [|exact Hd].
  unfold callFlushStateData. destruct (flushStateData sd (cacheStore w1)). cbn. exact Hd.
Qed.

End Frames.

(** * Properties *)

(** ** The line handler of [parseStateContent] *)

Section ParseProofs.
Context `{C : Collaborators}.

Lemma parseLine_from_3 (res : ParsedState.t) (key : nat) (value : json) :
  parseLine res (3 + key) value = Ok res.
Proof. destruct key; reflexivity. Qed.

Lemma parseLines_from_3 (values : list json) :
  forall (res : ParsedState.t) (key : nat),
    parseLines res (3 + key) values = Ok res.
Proof.
  induction values as [|v vs IH]; intros res key; [reflexivity|].
  cbn [parseLines]. rewrite parseLine_from_3. cbn [rbind].
  apply (IH res (S key)).
Qed.

Lemma parseLines_firstn_3 (res : ParsedState.t) (values : list json) :
  parseLines res 0 values = parseLines res 0 (firstn 3 values).
Proof.
  destruct values as [|v0 [|v1 [|v2 rest]]]; try reflexivity.
  cbn [firstn parseLines].
  destruct (parseLine res 0 v0) as [r0|]; [|reflexivity]. cbn [rbind].
  destruct (parseLine r0 1 v1) as [r1|]; [|reflexivity]. cbn [rbind].
  destruct (parseLine r1 2 v2) as [r2|]; [|reflexivity]. cbn [rbind].
  apply (parseLines_from_3 rest r2 0).
Qed.

Lemma parseLine_after_0_ok (res : ParsedState.t) (key : nat) (value : json) :
  isOk (parseLine res (S key) value) = true.
Proof.
  destruct key as [|[|[|key]]]; cbn; try reflexivity.
  destruct (isPlainObject value); reflexivity.
Qed.

Lemma parseLines_after_0_ok (values : list json) :
  forall (res : ParsedState.t) (key : nat),
    isOk (parseLines res (S key) values) = true.
Proof.
  induction values as [|v vs IH]; intros res key; [reflexivity|].
  cbn [parseLines].
  pose proof (parseLine_after_0_ok res key v) as Hok.
  destruct (parseLine res (S key) v) as [r|e]; [|discriminate Hok].
  cbn [rbind]. apply IH.
Qed.

(** C8. The three legacy variants of a state stream. For the line
    handler: an object on line 1 contributes its keys as account names;
    line 3 (the old version line) is ignored; a line with any further index
    is skipped and leaves the result as it was, so that the lines of a
    stream parse as the first three of them do; and no line after line 0
    can make the handler fail. For a whole stream through [createGunzip],
    the jsonl parser and the handler: a stream whose line 1 is an object
    with the given members parses, and adds the elements of its line 0,
    the keys of that object as account names and the path entries of its
    line 2, whatever lines follow and whether or not there are any; the
    same holds with a plain account name on line 1; and a stream that
    decompresses, parses as JSON lines and has a first line that
    [deserializeParsed] accepts never makes [parseStateContent] fail,
    whatever its other lines are: parsing goes on with the streams after
    it. *)
Theorem parseStateContent_legacy_variants :
  forall (res : ParsedState.t) (members : list (string * json)) (value : json)
         (key : nat) (values : list json),
    parseLine res 1 (JObj members)
      = Ok (ParsedState.mk (ParsedState.elements res)
              (ParsedState.accounts res ++ map JStr (map fst members))
              (ParsedState.pathIndices res))
    /\ parseLine res 3 value = Ok res
    /\ parseLine res (4 + key) value = Ok res
    /\ parseLines res 0 values = parseLines res 0 (firstn 3 values)
    /\ isOk (parseLine res (S key) value) = true
    /\ (forall (s : NamedStream) (text : string) (first third : json) (rest : list json)
               (parsed : list Element),
          createGunzip (stream s) = Ok text ->
          parser text = Ok (first :: JObj members :: third :: rest) ->
          deserializeParsed first = Ok parsed ->
          parseStream res s
          = Ok (ParsedState.mk (ParsedState.elements res ++ parsed)
                  (ParsedState.accounts res ++ map JStr (map fst members))
                  (Array_concat (ParsedState.pathIndices res) third))
          /\ parseStateContent [s]
             = Ok (ParsedState.mk parsed (map JStr (map fst members)) (Array_concat [] third)))
    /\ (forall (s : NamedStream) (text : string) (first second third : json) (rest : list json)
               (parsed : list Element),
          createGunzip (stream s) = Ok text ->
          parser text = Ok (first :: second :: third :: rest) ->
          deserializeParsed first = Ok parsed ->
          parseStream res s
          = Ok (ParsedState.mk (ParsedState.elements res ++ parsed)
                  (ParsedState.accounts res
                     ++ (if isPlainObject second then map JStr (Object_keys second)
                         else [second]))
                  (Array_concat (ParsedState.pathIndices res) third)))
    /\ (forall (s : NamedStream) (text : string) (first : json) (rest : list json)
               (parsed : list Element) (later : list NamedStream),
          createGunzip (stream s) = Ok text ->
          parser text = Ok (first :: rest) ->
          deserializeParsed first = Ok parsed ->
          exists r,
            parseStream res s = Ok r
            /\ parseStreams res (s :: later) = parseStreams r later).
Proof.
  intros res members value key values.
  assert (Hstream : forall (s : NamedStream) text first second third rest parsed,
            createGunzip (stream s) = Ok text ->
            parser text = Ok (first :: second :: third :: rest) ->
            deserializeParsed first = Ok parsed ->
            forall base,
            parseStream base s
            = Ok (ParsedState.mk (ParsedState.elements base ++ parsed)
                    (ParsedState.accounts base
                       ++ (if isPlainObject second then map JStr (Object_keys second)
                           else [second]))
                    (Array_concat (ParsedState.pathIndices base) third))).
  { intros s text first second third rest parsed Hz Hp Hd base.
    unfold parseStream. rewrite Hz. cbn [rbind]. rewrite Hp. cbn [rbind].
    rewrite parseLines_firstn_3. cbn [firstn parseLines].
    unfold parseLine at 1. cbn [Nat.eqb]. rewrite Hd. cbn [rbind].
    unfold parseLine at 1. cbn [Nat.eqb].
    destruct (isPlainObject second); reflexivity. }
  split; [reflexivity|].
  split; [reflexivity|].
  split; [apply (parseLine_from_3 res (S key))|].
  split; [apply parseLines_firstn_3|].
  split; [apply parseLine_after_0_ok|].
  split.
  { intros s text first third rest parsed Hz Hp Hd. split.
    - apply (Hstream s text first (JObj members) third rest parsed Hz Hp Hd res).
    - unfold parseStateContent. cbn [parseStreams].
      rewrite (Hstream s text first (JObj members) third rest parsed Hz Hp Hd emptyParsedState).
      reflexivity. }
  split.
  { intros s text first second third rest parsed Hz Hp Hd.
    apply (Hstream s text first second third rest parsed Hz Hp Hd res). }
  intros s text first rest parsed later Hz Hp Hd.
  assert (Hok : isOk (parseStream res s) = true).
  { unfold parseStream. rewrite Hz. cbn [rbind]. rewrite Hp. cbn [rbind parseLines].
    unfold parseLine at 1. cbn [Nat.eqb]. rewrite Hd. cbn [rbind].
    apply parseLines_after_0_ok. }
  destruct (parseStream res s) as [r|e] eqn:Hs; [|discriminate Hok].
  exists r. split; [reflexivity|]. cbn [parseStreams]. rewrite Hs. reflexivity.
Qed.

End ParseProofs.

(** ** The location cache pool *)

Section PoolProofs.
Import LocationCachePool.

Lemma get_held (loc : string) (hint : nat) (pool : Pool) (e : PoolEntry) :
  entries pool !! loc = Some e ->
  get loc hint pool
  = (resource e,
     mkPool (<[loc := mkPoolEntry (resource e) (S (refcount e))]> (entries pool))
       (nextSerial pool) (events pool ++ [LocationCacheReuse loc])).
Proof. intros Hheld. unfold get. rewrite Hheld. reflexivity. Qed.

Lemma get_free (loc : string) (hint : nat) (pool : Pool) :
  entries pool !! loc = None ->
  get loc hint pool
  = (mkLocationCache loc hint (nextSerial pool),
     mkPool (<[loc := mkPoolEntry (mkLocationCache loc hint (nextSerial pool)) 1]> (entries pool))
       (S (nextSerial pool)) (events pool ++ [LocationCacheCreated loc])).
Proof. intros Hfree. unfold get. rewrite Hfree. reflexivity. Qed.

Lemma getMany_cons (loc : string) (hint : nat) (hints : list nat) (pool : Pool) :
  getMany loc (hint :: hints) pool
  = ((get loc hint pool).1 :: (getMany loc hints (get loc hint pool).2).1,
     (getMany loc hints (get loc hint pool).2).2).
Proof.
  cbn [getMany]. destruct (get loc hint pool) as [h p1]. cbn [fst snd].
  destruct (getMany loc hints p1); reflexivity.
Qed.

Lemma getMany_held (loc : string) (hints : list nat) :
  forall (pool : Pool) (res : LocationCache) (n : nat),
    entries pool !! loc = Some (mkPoolEntry res n) ->
    (getMany loc hints pool).1 = replicate (length hints) res
    /\ entries (getMany loc hints pool).2
       = <[loc := mkPoolEntry res (length hints + n)]> (entries pool)
    /\ nextSerial (getMany loc hints pool).2 = nextSerial pool
    /\ events (getMany loc hints pool).2
       = events pool ++ replicate (length hints) (LocationCacheReuse loc).
Proof.
  induction hints as [|hint hints IH]; intros pool res n Hheld.
  - cbn. rewrite insert_id; [|exact Hheld]. rewrite app_nil_r. done.
  - rewrite getMany_cons, (get_held loc hint pool _ Hheld). cbn [fst snd resource refcount].
    set (pool1 := mkPool _ _ _).
    assert (Hheld1 : entries pool1 !! loc = Some (mkPoolEntry res (S n))).
    { unfold pool1. cbn. apply lookup_insert_eq. }
    destruct (IH pool1 res (S n) Hheld1) as (Hh & He & Hs & Hev).
    rewrite Hh, He, Hs, Hev. unfold pool1. cbn.
    rewrite insert_insert_eq. rewrite <- app_assoc.
    replace (length hints + S n) with (S (length hints + n)) by lia.
    done.
Qed.

Lemma releaseMany_held (loc : string) (res : LocationCache) (k : nat) :
  location res = loc ->
  forall (pool : Pool) (n : nat),
    entries pool !! loc = Some (mkPoolEntry res (S (k + n))) ->
    releaseMany (replicate k res) pool
    = mkPool (<[loc := mkPoolEntry res (S n)]> (entries pool)) (nextSerial pool) (events pool).
Proof.
  intros Hloc. induction k as [|k IH]; intros pool n Hheld.
  - cbn in *. rewrite insert_id; [|exact Hheld]. destruct pool; reflexivity.
  - cbn [replicate releaseMany fold_left].
    unfold release at 2. rewrite Hloc, Hheld. cbn [refcount resource].
    fold (releaseMany (replicate k res)
            (mkPool (<[loc := mkPoolEntry res (S (k + n))]> (entries pool))
               (nextSerial pool) (events pool))).
    rewrite (IH _ n); cbn; [|apply lookup_insert_eq].
    rewrite insert_insert_eq. reflexivity.
Qed.

(** C9. Starting from a pool that does not hold the location, N calls of
    [get] (one per capacity hint, N >= 1) followed by N - 1 calls of
    [release] record exactly one creation and N - 1 reuses for the location,
    every handle being the one resource created by the first call; the entry
    is then held once. Releasing the last reference removes the entry, and
    the next [get] records a second creation, of a new resource, and no
    reuse. *)
Theorem pool_shares_then_recreates :
  forall (pool : Pool) (loc : string) (hint : nat) (hints : list nat) (hint' : nat),
    entries pool !! loc = None ->
    let shared := mkLocationCache loc hint (nextSerial pool) in
    let acquired := getMany loc (hint :: hints) pool in
    let handles := acquired.1 in
    let pool2 := releaseMany (tail handles) acquired.2 in
    let pool3 := release shared pool2 in
    let again := get loc hint' pool3 in
    handles = replicate (S (length hints)) shared
    /\ events pool2
       = events pool ++ LocationCacheCreated loc
           :: replicate (length hints) (LocationCacheReuse loc)
    /\ createdCount loc (events pool2) = createdCount loc (events pool) + 1
    /\ reuseCount loc (events pool2) = reuseCount loc (events pool) + length hints
    /\ entries pool2 !! loc = Some (mkPoolEntry shared 1)
    /\ entries pool3 !! loc = None
    /\ events again.2 = events pool2 ++ [LocationCacheCreated loc]
    /\ serial again.1 <> serial shared
    /\ entries again.2 !! loc = Some (mkPoolEntry again.1 1).
Proof.
  intros pool loc hint hints hint' Hfree shared acquired handles pool2 pool3 again.
  set (pool1 := (get loc hint pool).2).
  assert (Hget : get loc hint pool
                 = (shared, mkPool (<[loc := mkPoolEntry shared 1]> (entries pool))
                              (S (nextSerial pool))
                              (events pool ++ [LocationCacheCreated loc]))).
  { apply get_free, Hfree. }
  assert (Hheld1 : entries pool1 !! loc = Some (mkPoolEntry shared 1)).
  { unfold pool1. rewrite Hget. cbn. apply lookup_insert_eq. }
  destruct (getMany_held loc hints pool1 shared 1 Hheld1) as (Hh & He & Hs & Hev).
  assert (Hacq : acquired = (shared :: (getMany loc hints pool1).1, (getMany loc hints pool1).2)).
  { unfold acquired, pool1. rewrite getMany_cons. rewrite Hget at 1. reflexivity. }
  assert (Hhandles : handles = replicate (S (length hints)) shared).
  { unfold handles. rewrite Hacq. cbn [fst]. rewrite Hh. reflexivity. }
  assert (Hpool2 : pool2 = mkPool (<[loc := mkPoolEntry shared 1]> (entries pool))
                             (S (nextSerial pool))
                             (events pool ++ LocationCacheCreated loc
                                :: replicate (length hints) (LocationCacheReuse loc))).
  { unfold pool2. rewrite Hhandles. cbn [tail replicate]. rewrite Hacq. cbn [snd].
    rewrite (releaseMany_held loc shared (length hints) eq_refl _ 0).
    - rewrite He, Hs, Hev. unfold pool1. rewrite Hget. cbn.
      rewrite !insert_insert_eq. rewrite <- app_assoc. reflexivity.
    - rewrite He.
      replace (S (length hints + 0)) with (length hints + 1) by lia.
      apply lookup_insert_eq. }
  assert (Hpool3 : pool3 = mkPool (delete loc (entries pool2)) (nextSerial pool2) (events pool2)).
  { unfold pool3, release. cbn [location shared].
    rewrite Hpool2. cbn. rewrite lookup_insert_eq. reflexivity. }
  assert (Hfree3 : entries pool3 !! loc = None).
  { rewrite Hpool3. cbn. apply lookup_delete_eq. }
  assert (Hagain : again = (mkLocationCache loc hint' (nextSerial pool3),
                            mkPool (<[loc := mkPoolEntry (mkLocationCache loc hint' (nextSerial pool3)) 1]>
                                      (entries pool3))
                              (S (nextSerial pool3))
                              (events pool3 ++ [LocationCacheCreated loc]))).
  { apply get_free, Hfree3. }
  split; [exact Hhandles|].
  split; [rewrite Hpool2; reflexivity|].
  split.
  { rewrite Hpool2. cbn [events]. unfold createdCount.
    rewrite List.filter_app, length_app. cbn [List.filter].
    rewrite String.eqb_refl. cbn [length].
    assert (Hnone : forall n, List.filter
              (fun ev => match ev with
                         | LocationCacheCreated l => String.eqb l loc
                         | LocationCacheReuse _ => false
                         end) (replicate n (LocationCacheReuse loc)) = []).
    { induction n; [reflexivity|]. cbn. assumption. }
    rewrite Hnone. cbn. reflexivity. }
  split.
  { rewrite Hpool2. cbn [events]. unfold reuseCount.
    rewrite List.filter_app, length_app. cbn [List.filter].
    assert (Hall : forall n, length (List.filter
              (fun ev => match ev with
                         | LocationCacheCreated _ => false
                         | LocationCacheReuse l => String.eqb l loc
                         end) (replicate n (LocationCacheReuse loc))) = n).
    { induction n; [reflexivity|]. cbn. rewrite String.eqb_refl. cbn. congruence. }
    rewrite Hall. reflexivity. }
  split; [rewrite Hpool2; cbn; apply lookup_insert_eq|].
  split; [exact Hfree3|].
  rewrite Hagain. cbn [fst snd events serial entries].
  split; [rewrite Hpool3; reflexivity|].
  split; [rewrite Hpool3, Hpool2; cbn; lia|].
  apply lookup_insert_eq.
Qed.

End PoolProofs.

(** ** The lazy load *)

Section LoadProofs.
Context `{C : Collaborators}.
Local Open Scope world_scope.

Lemma stateData_loaded (w : World) (sd : StateData.t) :
  innerStateData w = Some sd -> stateData w = (Ok sd, w).
Proof. intros H. unfold stateData, bind, gets, ret. rewrite H. reflexivity. Qed.

Lemma stateData_unloaded (w : World) :
  innerStateData w = None ->
  stateData w
  = match loadStateData w with
    | (Ok sd, w') => (Ok sd, with_innerStateData (Some sd) w')
    | (Err e, w') => (Err e, w')
    end.
Proof.
  intros H. unfold stateData, bind, gets, ret, modify. rewrite H.
  destruct (loadStateData w) as [[sd|e] w']; reflexivity.
Qed.

Lemma stateData_inner (w : World) (sd : StateData.t) :
  fst (stateData w) = Ok sd -> innerStateData (snd (stateData w)) = Some sd.
Proof.
  destruct (innerStateData w) as [sd0|] eqn:Hin.
  - rewrite (stateData_loaded w sd0 Hin). cbn. congruence.
  - rewrite (stateData_unloaded w Hin).
    destruct (loadStateData w) as [[sd1|e] w']; cbn; congruence.
Qed.

(** C2. The lazy load, once the cache is opened and the provider has
    listed and hashed the durable state files. When the hash recorded in the
    cache equals the durable one, the cache is returned as opened: nothing
    is read or parsed and no flag changes. When they differ, the durable
    content is read and parsed in full, and the elements, the path index and
    the accounts of the cache are replaced by the parse result, the recorded
    hash becoming the durable one; [cacheDirty] is set, [dirty] and the
    durable storage are left as they were. *)
Theorem loadStateData_staleness :
  forall (w : World) (quick : StateData.t) (filePaths : list string) (stateFilesHash : string),
    buildStateData (cacheStore w) = Ok quick ->
    findStateFiles (currentContentProvider w) (currentFilePrefix w) (durable w) = Ok filePaths ->
    getHash (currentContentProvider w) filePaths (durable w) = Ok stateFilesHash ->
    (quickAccessHashOf quick = stateFilesHash ->
       loadStateData w = (Ok quick, afterHashCheck w filePaths))
    /\ (quickAccessHashOf quick <> stateFilesHash ->
        forall (streams : list NamedStream) (res : ParsedState.t),
          readContents (currentContentProvider w) filePaths (durable w) = Ok streams ->
          parseStateContent streams = Ok res ->
          let synced := syncedStateData quick res stateFilesHash in
          let w' := snd (loadStateData w) in
          loadStateData w
          = (Ok synced,
             with_cacheDirty true
               (logEvent (EvReadContents (currentContentProvider w) filePaths)
                  (afterHashCheck w filePaths)))
          /\ StateData.saltoMetadata synced !! "hash" = Some stateFilesHash
          /\ quickAccessHashOf synced = stateFilesHash
          /\ cacheDirty w' = true
          /\ dirty w' = dirty w
          /\ durable w' = durable w).
Proof.
  intros w quick filePaths stateFilesHash Hbuild Hfind Hhash.
  split.
  - intros Hsame.
    unfold loadStateData, bind, callBuildStateData, callRead, gets, ret. cbn.
    rewrite Hbuild, Hfind. cbn. rewrite Hhash.
    fold (quickAccessHashOf quick).
    destruct (decide (quickAccessHashOf quick <> stateFilesHash)) as [Hne|_];
      [contradiction|reflexivity].
  - intros Hstale streams res Hread Hparse synced w'.
    assert (Hload : loadStateData w
                    = (Ok synced,
                       with_cacheDirty true
                         (logEvent (EvReadContents (currentContentProvider w) filePaths)
                            (afterHashCheck w filePaths)))).
    { unfold loadStateData, bind, callBuildStateData, callRead, gets, ret. cbn.
      rewrite Hbuild, Hfind. cbn. rewrite Hhash.
      fold (quickAccessHashOf quick).
      destruct (decide (quickAccessHashOf quick <> stateFilesHash)) as [_|Heq];
        [|contradiction].
      unfold syncQuickAccessStateData, bind, callRead, gets, ret, liftResult, modify. cbn.
      rewrite Hread, Hparse. reflexivity. }
    split; [exact Hload|].
    assert (Hrec : StateData.saltoMetadata synced !! "hash" = Some stateFilesHash).
    { unfold synced, syncedStateData. cbn. apply lookup_insert_eq. }
    split; [exact Hrec|].
    split; [unfold quickAccessHashOf; rewrite Hrec; reflexivity|].
    unfold w'. rewrite Hload. cbn. auto.
Qed.

(** A reparse that fails makes the load fail: the cache is not returned
    with stale content. *)
Lemma loadStateData_reparse_failure (w : World) (quick : StateData.t)
    (filePaths : list string) (stateFilesHash : string) (streams : list NamedStream) (e : error) :
  buildStateData (cacheStore w) = Ok quick ->
  findStateFiles (currentContentProvider w) (currentFilePrefix w) (durable w) = Ok filePaths ->
  getHash (currentContentProvider w) filePaths (durable w) = Ok stateFilesHash ->
  quickAccessHashOf quick <> stateFilesHash ->
  readContents (currentContentProvider w) filePaths (durable w) = Ok streams ->
  parseStateContent streams = Err e ->
  fst (loadStateData w) = Err e.
Proof.
  intros Hbuild Hfind Hhash Hstale Hread Hparse.
  unfold loadStateData, bind, callBuildStateData, callRead, gets, ret. cbn.
  rewrite Hbuild, Hfind. cbn. rewrite Hhash.
  fold (quickAccessHashOf quick).
  destruct (decide (quickAccessHashOf quick <> stateFilesHash)) as [_|Heq];
    [|contradiction].
  unfold syncQuickAccessStateData, bind, callRead, gets, ret, liftResult, modify. cbn.
  rewrite Hread, Hparse. reflexivity.
Qed.

(** [loadStateData] as a cascade of outcomes. *)
Lemma loadStateData_eval (w : World) :
  loadStateData w
  = let p := currentContentProvider w in
    match buildStateData (cacheStore w) with
    | Err e => (Err e, logEvent EvBuildStateData w)
    | Ok quick =>
        match findStateFiles p (currentFilePrefix w) (durable w) with
        | Err e =>
            (Err e, logEvent (EvFindStateFiles p (currentFilePrefix w))
                      (logEvent EvBuildStateData w))
        | Ok filePaths =>
            match getHash p filePaths (durable w) with
            | Err e => (Err e, afterHashCheck w filePaths)
            | Ok stateFilesHash =>
                if decide (quickAccessHashOf quick <> stateFilesHash) then
                  let wr := logEvent (EvReadContents p filePaths) (afterHashCheck w filePaths) in
                  match readContents p filePaths (durable w) with
                  | Err e => (Err e, wr)
                  | Ok streams =>
                      match parseStateContent streams with
                      | Err e => (Err e, wr)
                      | Ok res =>
                          (Ok (syncedStateData quick res stateFilesHash),
                           with_cacheDirty true wr)
                      end
                  end
                else (Ok quick, afterHashCheck w filePaths)
            end
        end
    end.
Proof.
  unfold loadStateData, bind, callBuildStateData, callRead, gets, ret. cbn.
  destruct (buildStateData (cacheStore w)) as [quick|e]; [|reflexivity].
  destruct (findStateFiles _ _ (durable w)) as [filePaths|e]; [|reflexivity]. cbn.
  destruct (getHash _ filePaths (durable w)) as [stateFilesHash|e]; [|reflexivity].
  fold (quickAccessHashOf quick).
  destruct (decide (quickAccessHashOf quick <> stateFilesHash)) as [Hne|Heq]; [|reflexivity].
  unfold syncQuickAccessStateData, bind, callRead, gets, ret, liftResult, modify. cbn.
  destruct (readContents _ filePaths (durable w)) as [streams|e]; [|reflexivity].
  destruct (parseStateContent streams) as [res|e]; reflexivity.
Qed.


End LoadProofs.


(** ** Content, hash and flush *)

Section FlushProofs.
Context `{C : Collaborators}.
Local Open Scope world_scope.

Lemma with_contentsAndHash_same (w : World) (c : option (result (list ContentAndHash))) :
  contentsAndHash w = c -> with_contentsAndHash c w = w.
Proof. intros <-. destruct w; reflexivity. Qed.

Lemma with_innerStateData_same (w : World) (sd : option StateData.t) :
  innerStateData w = sd -> with_innerStateData sd w = w.
Proof. intros <-. destruct w; reflexivity. Qed.

Lemma withHash_idem (h : string) (sd : StateData.t) :
  withHash h (withHash h sd) = withHash h sd.
Proof. unfold withHash. cbn. rewrite insert_insert_eq. reflexivity. Qed.

Lemma calculateContentAndHash_loaded (w : World) (sd : StateData.t) :
  innerStateData w = Some sd ->
  calculateContentAndHash w = (Ok (contentsOf sd), w).
Proof.
  intros Hin.
  unfold calculateContentAndHash, createStateTextPerAccount,
    inMemState_getAll, inMemState_getPathIndex, bind, ret.
  rewrite (stateData_loaded w sd Hin). cbv beta iota.
  rewrite (stateData_loaded w sd Hin). reflexivity.
Qed.

Lemma getContentAndHash_memoized (w : World) (settled : result (list ContentAndHash)) :
  contentsAndHash w = Some settled -> getContentAndHash w = (settled, w).
Proof. intros H. unfold getContentAndHash. rewrite H. reflexivity. Qed.

Lemma getContentAndHash_loaded (w : World) (sd : StateData.t) :
  innerStateData w = Some sd ->
  getContentAndHash w
  = (currentContents w sd, with_contentsAndHash (Some (currentContents w sd)) w).
Proof.
  intros Hin. unfold getContentAndHash, currentContents.
  destruct (contentsAndHash w) as [settled|] eqn:Hmemo.
  - rewrite (with_contentsAndHash_same w _ Hmemo). reflexivity.
  - rewrite (calculateContentAndHash_loaded w sd Hin). reflexivity.
Qed.

Lemma getContentAndHash_memoizes (w : World) :
  contentsAndHash (snd (getContentAndHash w)) = Some (fst (getContentAndHash w)).
Proof.
  unfold getContentAndHash.
  destruct (contentsAndHash w) as [settled|] eqn:Hmemo; [exact Hmemo|].
  destruct (calculateContentAndHash w) as [r w']. reflexivity.
Qed.

Lemma inMemState_setHash_loaded (w : World) (sd : StateData.t) (h : string) :
  innerStateData w = Some sd ->
  inMemState_setHash h w = (Ok tt, with_innerStateData (Some (withHash h sd)) w).
Proof.
  intros Hin. unfold inMemState_setHash, bind, modify.
  rewrite (stateData_loaded w sd Hin). reflexivity.
Qed.

Lemma inMemState_flush_loaded (w : World) (sd : StateData.t) :
  innerStateData w = Some sd ->
  inMemState_flush w
  = (fst (flushStateData sd (cacheStore w)),
     with_cacheStore (snd (flushStateData sd (cacheStore w))) (logEvent EvFlushStateData w)).
Proof.
  intros Hin. unfold inMemState_flush, bind, callFlushStateData.
  rewrite (stateData_loaded w sd Hin).
  destruct (flushStateData sd (cacheStore w)); reflexivity.
Qed.

(** C5. [calculateHash] twice in a row. When the state is not dirty the
    call does nothing. When the first call succeeds, the second one succeeds
    and leaves the world exactly as the first left it: the digest stored in
    the cache metadata is the same, namely the combined digest of the
    memoized contents. Whatever the outcomes, neither call changes the
    durable storage or the cache store, and the only provider calls made are
    reads. *)
Theorem calculateHash_twice :
  forall w : World,
    let first := calculateHash w in
    let second := calculateHash (snd first) in
    (dirty w = false -> first = (Ok tt, w))
    /\ (fst first = Ok tt -> second = (Ok tt, snd first))
    /\ (dirty w = true -> fst first = Ok tt ->
        exists contents sd,
          contentsAndHash (snd first) = Some (Ok contents)
          /\ innerStateData (snd first) = Some sd
          /\ StateData.saltoMetadata sd !! "hash" = Some (combinedHash contents))
    /\ durable (snd second) = durable w
    /\ cacheStore (snd second) = cacheStore w
    /\ tracedBy isReadEvent w (snd second).
Proof.
  intros w first second.
  assert (Hclean : forall w0, dirty w0 = false -> calculateHash w0 = (Ok tt, w0)).
  { intros w0 H0. unfold calculateHash, calculateHashImpl, bind, gets, ret.
    rewrite H0. reflexivity. }
  assert (Hframe1 : readFrame w (snd first)) by apply calculateHashImpl_readFrame.
  assert (Hframe2 : readFrame (snd first) (snd second)) by apply calculateHashImpl_readFrame.
  assert (Hdirty : dirty w = true -> fst first = Ok tt ->
            exists contents sd,
              contentsAndHash (snd first) = Some (Ok contents)
              /\ innerStateData (snd first) = Some (withHash (combinedHash contents) sd)
              /\ dirty (snd first) = true).
  { intros Hd. unfold first, calculateHash, calculateHashImpl, bind, gets.
    rewrite Hd. cbn [negb].
    pose proof (getContentAndHash_memoizes w) as Hmemo.
    pose proof (getContentAndHash_readFrame w) as [_ _ [Hd1 _ _ _ _]].
    destruct (getContentAndHash w) as [[contents|e] wa]; cbn in *; [|discriminate].
    unfold inMemState_setHash, bind, modify.
    pose proof (stateData_frame wa) as Hfr.
    destruct (stateData wa) as [[sd|e] wb]; cbn in *; [|discriminate].
    intros _. exists contents, sd. destruct Hfr. cbn.
    split; [congruence|]. split; [reflexivity|congruence]. }
  split; [apply Hclean|].
  split.
  { intros Hok. unfold second. destruct (dirty w) eqn:Hd.
    - destruct (Hdirty eq_refl Hok) as (contents & sd & Hmemo & Hin & Hd1).
      set (w1 := snd first) in *.
      unfold calculateHash, calculateHashImpl, bind, gets.
      rewrite Hd1. cbn [negb].
      rewrite (getContentAndHash_memoized w1 _ Hmemo).
      fold (combinedHash contents).
      rewrite (inMemState_setHash_loaded w1 _ _ Hin), withHash_idem.
      rewrite (with_innerStateData_same w1 _ Hin). reflexivity.
    - unfold first. rewrite (Hclean w Hd). cbn. apply (Hclean w Hd). }
  split.
  { intros Hd Hok. destruct (Hdirty Hd Hok) as (contents & sd & Hmemo & Hin & _).
    exists contents, (withHash (combinedHash contents) sd).
    split; [exact Hmemo|]. split; [exact Hin|].
    unfold withHash. cbn. apply lookup_insert_eq. }
  destruct Hframe1 as [Hd1 Hc1 [_ _ _ _ Ht1]], Hframe2 as [Hd2 Hc2 [_ _ _ _ Ht2]].
  split; [congruence|]. split; [congruence|].
  eapply tracedBy_trans; eassumption.
Qed.

Lemma flush_clean_frame (w : World) :
  dirty w = false ->
  durable (snd (flush w)) = durable w
  /\ dirty (snd (flush w)) = false
  /\ tracedBy isNotDurableWrite w (snd (flush w)).
Proof.
  intros Hd. unfold flush, bind, gets. rewrite Hd. cbn [negb].
  destruct (cacheDirty w).
  - pose proof (inMemState_flush_durable w) as Hdur.
    pose proof (inMemState_flush_ioFrame isNotDurableWrite) as Hio.
    specialize (Hio ltac:(intros []; cbn; tauto) I w). destruct Hio as [Hdy _ _ _ Htr].
    destruct (inMemState_flush w) as [[[]|e] w1]; cbn in *.
    + split; [exact Hdur|]. split; [congruence|].
      destruct Htr as (evs & Hevs & Hall). exists evs. split; assumption.
    + split; [exact Hdur|]. split; [congruence|exact Htr].
  - cbn. split; [reflexivity|]. split; [exact Hd|apply tracedBy_refl].
Qed.

Lemma calculateContentAndHash_eval (w : World) :
  calculateContentAndHash w
  = match stateData w with
    | (Ok sd, w1) => (Ok (contentsOf sd), w1)
    | (Err e, w1) => (Err e, w1)
    end.
Proof.
  unfold calculateContentAndHash, createStateTextPerAccount,
    inMemState_getAll, inMemState_getPathIndex, bind, ret.
  pose proof (stateData_inner w) as Hin.
  destruct (stateData w) as [[sd|e] w1]; [|reflexivity].
  rewrite (stateData_loaded w1 sd (Hin sd eq_refl)). reflexivity.
Qed.

Lemma flush_dirty_eval (w : World) :
  dirty w = true ->
  flush w
  = match mkdirp (path_dirname (currentFilePrefix w)) (durable w) with
    | (Err e, d1) => (Err e, afterMkdirp w d1)
    | (Ok _, d1) =>
        match getContentAndHash (afterMkdirp w d1) with
        | (Err e, wb) => (Err e, wb)
        | (Ok contents, wb) =>
            match writeContents (currentContentProvider w) (currentFilePrefix w) contents
                    (durable wb) with
            | (Err e, d2) => (Err e, afterContentWrite w wb contents d2)
            | (Ok _, d2) =>
                afterWrite (combinedHash contents) (afterContentWrite w wb contents d2)
            end
        end
    end.
Proof.
  intros Hd.
  unfold flush. unfold bind at 1. unfold gets at 1. rewrite Hd. cbn [negb].
  unfold bind at 1. unfold gets at 1.
  unfold bind at 1. unfold callWrite at 1.
  destruct (mkdirp _ (durable w)) as [[[]|e] d1]; [|reflexivity].
  fold (afterMkdirp w d1).
  unfold bind at 1.
  pose proof (getContentAndHash_readFrame (afterMkdirp w d1)) as [_ _ [_ Hprefix Hp _ _]].
  destruct (getContentAndHash (afterMkdirp w d1)) as [[contents|e] wb]; [|reflexivity].
  cbn [snd] in Hprefix, Hp.
  unfold bind at 1. unfold gets at 1.
  unfold bind at 1. unfold gets at 1.
  unfold bind at 1. unfold callWrite at 1.
  rewrite Hp, Hprefix.
  change (currentContentProvider (afterMkdirp w d1)) with (currentContentProvider w).
  change (currentFilePrefix (afterMkdirp w d1)) with (currentFilePrefix w).
  destruct (writeContents _ _ contents (durable wb)) as [[[]|e] d2]; reflexivity.
Qed.

Lemma afterWrite_loaded (updatedHash : string) (w : World) (sd : StateData.t) :
  innerStateData w = Some sd ->
  afterWrite updatedHash w = afterWriteLoaded updatedHash sd w.
Proof.
  intros Hin. unfold afterWrite, afterWriteLoaded. unfold bind at 1.
  rewrite (inMemState_setHash_loaded w sd _ Hin).
  unfold bind at 1.
  rewrite (inMemState_flush_loaded
             (with_innerStateData (Some (withHash updatedHash sd)) w)
             (withHash updatedHash sd) eq_refl).
  cbn [cacheStore with_innerStateData].
  destruct (flushStateData _ (cacheStore w)) as [[[]|e] c]; reflexivity.
Qed.

(** Contents that have been obtained come with loaded data; when they
    were not memoized they are the contents of that data. *)
Lemma getContentAndHash_loads (w : World) (contents : list ContentAndHash) (wb : World) :
  memoImpliesLoaded w ->
  getContentAndHash w = (Ok contents, wb) ->
  exists sd,
    innerStateData wb = Some sd
    /\ contentsAndHash wb = Some (Ok contents)
    /\ (contentsAndHash w = None -> contents = contentsOf sd).
Proof.
  intros Hloaded. unfold getContentAndHash.
  destruct (contentsAndHash w) as [settled|] eqn:Hmemo.
  - intros [= -> <-].
    destruct (innerStateData w) as [sd|] eqn:Hin.
    + exists sd. split; [reflexivity|]. split; [exact Hmemo|discriminate].
    + destruct (Hloaded contents Hmemo Hin).
  - rewrite calculateContentAndHash_eval.
    pose proof (stateData_inner w) as Hin.
    destruct (stateData w) as [[sd|e] w1]; cbn [fst snd] in *; [|discriminate].
    intros [= <- <-]. exists sd.
    split; [apply (Hin sd eq_refl)|]. split; [reflexivity|reflexivity].
Qed.

(** C6. [flush]. When the state is not dirty no durable content is
    written: with [cacheDirty] unset nothing happens at all; with it set,
    the loaded cache is persisted to its own store and, if that succeeds,
    [cacheDirty] is cleared; in either case the durable storage is unchanged
    and no provider write, rename, clear or directory creation is made.
    When the state is dirty, whether its data is loaded or not, the
    destination directory is ensured; the per-account contents are the
    memoized ones if there are any and are otherwise computed, loading the
    data if need be, and memoized; they are written through the current
    provider under the current prefix; then the hash of the cache becomes
    their combined digest, the cache is persisted, and [dirty] is cleared.
    A failure of any of these steps is the outcome and nothing after it
    runs. *)
Theorem flush_spec :
  forall w : World,
    (dirty w = false -> cacheDirty w = false -> flush w = (Ok tt, w))
    /\ (dirty w = false -> cacheDirty w = true ->
        forall sd, innerStateData w = Some sd ->
          flush w
          = match flushStateData sd (cacheStore w) with
            | (Ok _, c) =>
                (Ok tt, with_cacheDirty false (with_cacheStore c (logEvent EvFlushStateData w)))
            | (Err e, c) => (Err e, with_cacheStore c (logEvent EvFlushStateData w))
            end)
    /\ (dirty w = false ->
        durable (snd (flush w)) = durable w
        /\ dirty (snd (flush w)) = false
        /\ tracedBy isNotDurableWrite w (snd (flush w)))
    /\ (dirty w = true ->
        forall sd contents d1 d2 c,
          innerStateData w = Some sd ->
          currentContents w sd = Ok contents ->
          mkdirp (path_dirname (currentFilePrefix w)) (durable w) = (Ok tt, d1) ->
          writeContents (currentContentProvider w) (currentFilePrefix w) contents d1
            = (Ok tt, d2) ->
          flushStateData (withHash (combinedHash contents) sd) (cacheStore w) = (Ok tt, c) ->
          flush w = (Ok tt, flushedWorld w sd contents d2 c))
    /\ (dirty w = true ->
        flush w
        = match mkdirp (path_dirname (currentFilePrefix w)) (durable w) with
          | (Err e, d1) => (Err e, afterMkdirp w d1)
          | (Ok _, d1) =>
              match getContentAndHash (afterMkdirp w d1) with
              | (Err e, wb) => (Err e, wb)
              | (Ok contents, wb) =>
                  match writeContents (currentContentProvider w) (currentFilePrefix w)
                          contents (durable wb) with
                  | (Err e, d2) => (Err e, afterContentWrite w wb contents d2)
                  | (Ok _, d2) =>
                      afterWrite (combinedHash contents) (afterContentWrite w wb contents d2)
                  end
              end
          end)
    /\ (dirty w = true ->
        memoImpliesLoaded w ->
        forall d1 contents wb d2,
          mkdirp (path_dirname (currentFilePrefix w)) (durable w) = (Ok tt, d1) ->
          getContentAndHash (afterMkdirp w d1) = (Ok contents, wb) ->
          writeContents (currentContentProvider w) (currentFilePrefix w) contents (durable wb)
            = (Ok tt, d2) ->
          exists sd,
            innerStateData wb = Some sd
            /\ contentsAndHash wb = Some (Ok contents)
            /\ (contentsAndHash w = None -> contents = contentsOf sd)
            /\ (innerStateData w = None -> fst (stateData (afterMkdirp w d1)) = Ok sd)
            /\ flush w
               = afterWriteLoaded (combinedHash contents) sd
                   (afterContentWrite w wb contents d2)).
Proof.
  intros w. split; [|split; [|split; [|split; [|split]]]].
  - intros Hd Hcd. unfold flush, bind, gets, ret. rewrite Hd. cbn [negb].
    rewrite Hcd. reflexivity.
  - intros Hd Hcd sd Hin. unfold flush, bind, gets, modify.
    rewrite Hd. cbn [negb]. rewrite Hcd.
    rewrite (inMemState_flush_loaded w sd Hin).
    destruct (flushStateData sd (cacheStore w)) as [[[]|e] c]; reflexivity.
  - apply flush_clean_frame.
  - intros Hd sd contents d1 d2 c Hin Hcontents Hmk Hwrite Hflush.
    unfold flush. unfold bind at 1. unfold gets at 1. rewrite Hd. cbn [negb].
    unfold bind at 1. unfold gets at 1.
    unfold bind at 1. unfold callWrite at 1. rewrite Hmk.
    set (wa := with_durable d1 _).
    unfold bind at 1.
    rewrite (getContentAndHash_loaded wa sd Hin).
    change (currentContents wa sd) with (currentContents w sd). rewrite Hcontents.
    set (wb := with_contentsAndHash _ wa).
    unfold bind at 1. unfold gets at 1.
    unfold bind at 1. unfold gets at 1.
    unfold bind at 1. unfold callWrite at 1.
    change (durable wb) with d1.
    change (currentContentProvider wb) with (currentContentProvider w).
    change (currentFilePrefix wb) with (currentFilePrefix w).
    rewrite Hwrite.
    set (wc := with_durable d2 _).
    unfold bind at 1.
    fold (combinedHash contents).
    rewrite (inMemState_setHash_loaded wc sd _ Hin).
    set (wd := with_innerStateData _ wc).
    unfold bind at 1.
    rewrite (inMemState_flush_loaded wd (withHash (combinedHash contents) sd) eq_refl).
    change (cacheStore wd) with (cacheStore w). rewrite Hflush.
    unfold modify, flushedWorld, wd, wc, wb, wa. f_equal. world_eq.
  - apply flush_dirty_eval.
  - intros Hd Hloaded d1 contents wb d2 Hmk Hget Hwrite.
    assert (Hloaded1 : memoImpliesLoaded (afterMkdirp w d1)) by exact Hloaded.
    destruct (getContentAndHash_loads _ contents wb Hloaded1 Hget) as (sd & Hin & Hmemo & Hnew).
    exists sd. split; [exact Hin|]. split; [exact Hmemo|]. split; [exact Hnew|].
    split.
    + intros Hnone.
      assert (Hnomemo : contentsAndHash (afterMkdirp w d1) = None).
      { change (contentsAndHash w = None).
        destruct (contentsAndHash w) as [[c|e]|] eqn:Hm; [| |reflexivity].
        - destruct (Hloaded c Hm Hnone).
        - unfold getContentAndHash in Hget.
          change (contentsAndHash (afterMkdirp w d1)) with (contentsAndHash w) in Hget.
          rewrite Hm in Hget. discriminate Hget. }
      unfold getContentAndHash in Hget. rewrite Hnomemo in Hget.
      rewrite calculateContentAndHash_eval in Hget.
      pose proof (stateData_inner (afterMkdirp w d1)) as Hinner.
      destruct (stateData (afterMkdirp w d1)) as [[sd'|e] w1]; cbn [fst snd] in *;
        [|discriminate Hget].
      injection Hget as _ <-. cbn [innerStateData with_contentsAndHash] in Hin.
      rewrite (Hinner sd' eq_refl) in Hin. injection Hin as <-. reflexivity.
    + rewrite (flush_dirty_eval w Hd), Hmk, Hget, Hwrite.
      apply afterWrite_loaded. exact Hin.
Qed.

(** ** Failures of [flush] *)

Lemma flush_onFailure : onFailure (ioFrame anyEvent) flush.
Proof.
  assert (Hread : forall ev, isReadEvent ev -> anyEvent ev) by (intros; exact I).
  unfold flush.
  apply onFailure_bind; [apply _|apply preserves_gets, _|intros isDirty].
  destruct (negb isDirty).
  - apply onFailure_bind; [apply _|apply preserves_gets, _|intros isCacheDirty].
    destruct isCacheDirty; [|apply onFailure_ret].
    apply onFailure_bind; [apply _| |intros _; apply onFailure_modify].
    apply inMemState_flush_ioFrame; [exact Hread|exact I].
  - apply onFailure_bind; [apply _|apply preserves_gets, _|intros prefix].
    apply onFailure_bind; [apply _|apply ioFrame_callWrite; exact I|intros _].
    apply onFailure_bind; [apply _| |intros contents].
    { apply readFrame_ioFrame; [exact Hread|apply getContentAndHash_readFrame]. }
    apply onFailure_bind; [apply _|apply preserves_gets, _|intros p].
    apply onFailure_bind; [apply _|apply preserves_gets, _|intros prefix'].
    apply onFailure_bind; [apply _|apply ioFrame_callWrite; exact I|intros _].
    apply onFailure_bind; [apply _| |intros _].
    { apply readFrame_ioFrame; [exact Hread|apply inMemState_setHash_readFrame]. }
    apply onFailure_bind; [apply _| |intros _; apply onFailure_modify].
    apply inMemState_flush_ioFrame; [exact Hread|exact I].
Qed.

#[global] Instance writeFrame_Frame : Frame writeFrame.
Proof.
  split.
  - intros w. split; [reflexivity|apply tracedBy_refl].
  - intros w1 w2 w3 [H1 T1] [H2 T2]. split; [congruence|].
    eapply tracedBy_trans; eassumption.
Qed.

Lemma afterWrite_frame (updatedHash : string) : preserves writeFrame (afterWrite updatedHash).
Proof.
  assert (Hread : forall ev, isReadEvent ev -> anyEvent ev) by (intros; exact I).
  unfold afterWrite.
  apply preserves_bind; [apply _| |intros _].
  { eapply preserves_weaken; [|apply inMemState_setHash_readFrame].
    intros w w' [Hd _ [_ _ _ _ Ht]]. split; [exact Hd|].
    eapply tracedBy_weaken; eassumption. }
  apply preserves_bind; [apply _| |intros _].
  { intros w. split; [apply inMemState_flush_durable|].
    apply (inMemState_flush_ioFrame anyEvent Hread I w). }
  apply preserves_modify. intros w. split; [reflexivity|apply tracedBy_same; reflexivity].
Qed.

Lemma flush_dirty_until_write (w : World) (sd : StateData.t) (contents : list ContentAndHash)
    (d1 : Durable) :
  dirty w = true ->
  innerStateData w = Some sd ->
  currentContents w sd = Ok contents ->
  mkdirp (path_dirname (currentFilePrefix w)) (durable w) = (Ok tt, d1) ->
  flush w
  = match writeContents (currentContentProvider w) (currentFilePrefix w) contents d1 with
    | (Ok _, d2) =>
        afterWrite (combinedHash contents)
          (mkWorld d2 (cacheStore w) true (cacheDirty w) (Some (Ok contents))
             (currentFilePrefix w) (currentContentProvider w) (staticFilesSourceArg w)
             (Some sd)
             (trace w ++ [EvMkdirp (path_dirname (currentFilePrefix w));
                          EvWriteContents (currentContentProvider w) (currentFilePrefix w)
                            contents]))
    | (Err e, d2) => (Err e, writeFailedWorld w sd contents d2)
    end.
Proof.
  intros Hd Hin Hcontents Hmk.
  unfold flush. unfold bind at 1. unfold gets at 1. rewrite Hd. cbn [negb].
  unfold bind at 1. unfold gets at 1.
  unfold bind at 1. unfold callWrite at 1. rewrite Hmk.
  set (wa := with_durable d1 _).
  unfold bind at 1.
  rewrite (getContentAndHash_loaded wa sd Hin).
  change (currentContents wa sd) with (currentContents w sd). rewrite Hcontents.
  set (wb := with_contentsAndHash _ wa).
  unfold bind at 1. unfold gets at 1.
  unfold bind at 1. unfold gets at 1.
  unfold bind at 1. unfold callWrite at 1.
  change (durable wb) with d1.
  change (currentContentProvider wb) with (currentContentProvider w).
  change (currentFilePrefix wb) with (currentFilePrefix w).
  destruct (writeContents _ _ contents d1) as [[[]|e] d2].
  - fold (combinedHash contents). unfold afterWrite. f_equal.
    unfold wb, wa. world_eq; assumption.
  - unfold writeFailedWorld, wb, wa. f_equal. world_eq; assumption.
Qed.

(** C7. A failing [flush] of dirty state, whether its data is loaded or
    not. Whatever step fails (the creation of the directory, the
    computation of the contents, the provider's write, or what follows
    it), the error is the outcome of [flush] and [dirty] stays set;
    [dirty] can only have been cleared by a [flush] that succeeded, and
    then only after the provider's write returned successfully. When it is
    the provider's write that fails, its error is the outcome and nothing
    after it runs: the cache data, its hash and the cache store are as
    they were before the write, and the contents stay memoized. The next
    [flush] creates the directory and calls the provider's write again with
    the same contents, and the storage it leaves is the one that write
    produces. *)
Theorem flush_failure_keeps_dirty :
  forall w : World,
    dirty w = true ->
    (forall e, fst (flush w) = Err e -> dirty (snd (flush w)) = true)
    /\ (dirty (snd (flush w)) = false -> fst (flush w) = Ok tt)
    /\ (forall sd contents d1 e d2,
          innerStateData w = Some sd ->
          currentContents w sd = Ok contents ->
          mkdirp (path_dirname (currentFilePrefix w)) (durable w) = (Ok tt, d1) ->
          writeContents (currentContentProvider w) (currentFilePrefix w) contents d1
            = (Err e, d2) ->
          let failed := writeFailedWorld w sd contents d2 in
          flush w = (Err e, failed)
          /\ forall d3,
               mkdirp (path_dirname (currentFilePrefix w)) d2 = (Ok tt, d3) ->
               durable (snd (flush failed))
               = snd (writeContents (currentContentProvider w) (currentFilePrefix w) contents d3)
               /\ exists evs,
                   trace (snd (flush failed))
                   = trace failed
                       ++ [EvMkdirp (path_dirname (currentFilePrefix w));
                           EvWriteContents (currentContentProvider w) (currentFilePrefix w)
                             contents]
                       ++ evs)
    /\ (forall e d1,
          mkdirp (path_dirname (currentFilePrefix w)) (durable w) = (Err e, d1) ->
          flush w = (Err e, afterMkdirp w d1))
    /\ (forall d1 e wb,
          mkdirp (path_dirname (currentFilePrefix w)) (durable w) = (Ok tt, d1) ->
          getContentAndHash (afterMkdirp w d1) = (Err e, wb) ->
          flush w = (Err e, wb)
          /\ dirty wb = true
          /\ durable wb = d1
          /\ cacheStore wb = cacheStore w
          /\ tracedBy isReadEvent (afterMkdirp w d1) wb)
    /\ (forall d1 contents wb e d2,
          mkdirp (path_dirname (currentFilePrefix w)) (durable w) = (Ok tt, d1) ->
          getContentAndHash (afterMkdirp w d1) = (Ok contents, wb) ->
          writeContents (currentContentProvider w) (currentFilePrefix w) contents (durable wb)
            = (Err e, d2) ->
          let failed := afterContentWrite w wb contents d2 in
          flush w = (Err e, failed)
          /\ dirty failed = true
          /\ contentsAndHash failed = Some (Ok contents)
          /\ innerStateData failed = innerStateData wb
          /\ cacheStore failed = cacheStore w
          /\ durable wb = d1
          /\ trace failed
             = trace wb
                 ++ [EvWriteContents (currentContentProvider w) (currentFilePrefix w) contents]
          /\ forall d3,
               mkdirp (path_dirname (currentFilePrefix w)) d2 = (Ok tt, d3) ->
               flush failed
               = match writeContents (currentContentProvider w) (currentFilePrefix w)
                         contents d3 with
                 | (Err e', d4) =>
                     (Err e', afterContentWrite failed (afterMkdirp failed d3) contents d4)
                 | (Ok _, d4) =>
                     afterWrite (combinedHash contents)
                       (afterContentWrite failed (afterMkdirp failed d3) contents d4)
                 end)
    /\ (dirty (snd (flush w)) = false ->
        exists d1 contents wb d2,
          mkdirp (path_dirname (currentFilePrefix w)) (durable w) = (Ok tt, d1)
          /\ getContentAndHash (afterMkdirp w d1) = (Ok contents, wb)
          /\ writeContents (currentContentProvider w) (currentFilePrefix w) contents
               (durable wb)
             = (Ok tt, d2)
          /\ flush w
             = afterWrite (combinedHash contents) (afterContentWrite w wb contents d2)).
Proof.
  intros w Hd.
  assert (Hfail : forall e, fst (flush w) = Err e -> dirty (snd (flush w)) = true).
  { intros e He. destruct (flush_onFailure w e He) as [Hdirty _ _ _ _]. congruence. }
  assert (Hkeeps : forall d1 r wb,
            getContentAndHash (afterMkdirp w d1) = (r, wb) ->
            dirty wb = true /\ durable wb = d1 /\ cacheStore wb = cacheStore w
            /\ tracedBy isReadEvent (afterMkdirp w d1) wb
            /\ contentsAndHash wb = Some r).
  { intros d1 r wb Hget.
    pose proof (getContentAndHash_readFrame (afterMkdirp w d1)) as [Hdur Hcache [Hdirty _ _ _ Ht]].
    pose proof (getContentAndHash_memoizes (afterMkdirp w d1)) as Hmemo.
    rewrite Hget in Hdur, Hcache, Hdirty, Ht, Hmemo. cbn [fst snd] in *.
    split; [rewrite Hdirty; exact Hd|]. split; [exact Hdur|]. split; [exact Hcache|].
    split; [exact Ht|exact Hmemo]. }
  split; [exact Hfail|]. split.
  { intros Hcleared. destruct (fst (flush w)) as [[]|e] eqn:Hr; [reflexivity|].
    rewrite (Hfail e eq_refl) in Hcleared. discriminate. }
  split.
  { intros sd contents d1 e d2 Hin Hcontents Hmk Hwrite failed.
    split.
    { rewrite (flush_dirty_until_write w sd contents d1 Hd Hin Hcontents Hmk), Hwrite.
      reflexivity. }
    intros d3 Hmk'.
    rewrite (flush_dirty_until_write failed sd contents d3 eq_refl eq_refl eq_refl Hmk').
    change (currentContentProvider failed) with (currentContentProvider w).
    change (currentFilePrefix failed) with (currentFilePrefix w).
    destruct (writeContents _ _ contents d3) as [[[]|e'] d4]; cbn [snd].
    - match goal with |- context [afterWrite ?h ?w0] =>
        destruct (afterWrite_frame h w0) as [Hdur (evs & Hevs & _)] end.
      cbn [durable trace] in Hdur, Hevs.
      split; [exact Hdur|]. exists evs. rewrite Hevs, <- !app_assoc. reflexivity.
    - split; [reflexivity|]. exists []. reflexivity. }
  split.
  { intros e d1 Hmk. rewrite (flush_dirty_eval w Hd), Hmk. reflexivity. }
  split.
  { intros d1 e wb Hmk Hget.
    destruct (Hkeeps d1 _ wb Hget) as (Hdirty & Hdur & Hcache & Ht & _).
    split; [rewrite (flush_dirty_eval w Hd), Hmk, Hget; reflexivity|].
    split; [exact Hdirty|]. split; [exact Hdur|]. split; [exact Hcache|exact Ht]. }
  split.
  { intros d1 contents wb e d2 Hmk Hget Hwrite failed.
    destruct (Hkeeps d1 _ wb Hget) as (Hdirty & Hdur & Hcache & _ & Hmemo).
    split; [rewrite (flush_dirty_eval w Hd), Hmk, Hget, Hwrite; reflexivity|].
    split; [exact Hdirty|]. split; [exact Hmemo|]. split; [reflexivity|].
    split; [exact Hcache|]. split; [exact Hdur|]. split; [reflexivity|].
    intros d3 Hmk'.
    assert (Hd' : dirty failed = true) by exact Hdirty.
    rewrite (flush_dirty_eval failed Hd').
    change (currentFilePrefix failed) with (currentFilePrefix wb).
    change (currentContentProvider failed) with (currentContentProvider wb).
    change (durable failed) with d2.
    pose proof (getContentAndHash_readFrame (afterMkdirp w d1)) as [_ _ [_ Hprefix Hprov _ _]].
    rewrite Hget in Hprefix, Hprov. cbn [snd] in Hprefix, Hprov.
    change (currentFilePrefix (afterMkdirp w d1)) with (currentFilePrefix w) in Hprefix.
    change (currentContentProvider (afterMkdirp w d1)) with (currentContentProvider w) in Hprov.
    rewrite Hprefix, Hprov, Hmk'.
    rewrite (getContentAndHash_memoized (afterMkdirp failed d3) (Ok contents) Hmemo).
    reflexivity. }
  intros Hcleared.
  pose proof (flush_dirty_eval w Hd) as Heval.
  destruct (mkdirp (path_dirname (currentFilePrefix w)) (durable w)) as [[[]|e] d1] eqn:Hmk.
  - destruct (getContentAndHash (afterMkdirp w d1)) as [[contents|e] wb] eqn:Hget.
    + destruct (Hkeeps d1 _ wb Hget) as (Hdirty & _).
      destruct (writeContents (currentContentProvider w) (currentFilePrefix w) contents
                  (durable wb)) as [[[]|e] d2] eqn:Hwrite.
      * exists d1, contents, wb, d2. split; [reflexivity|]. split; [exact Hget|].
        split; [exact Hwrite|exact Heval].
      * rewrite Heval in Hcleared. cbn [snd] in Hcleared.
        change (dirty (afterContentWrite w wb contents d2)) with (dirty wb) in Hcleared.
        congruence.
    + destruct (Hkeeps d1 _ wb Hget) as (Hdirty & _).
      rewrite Heval in Hcleared. cbn [snd] in Hcleared. congruence.
  - rewrite Heval in Hcleared. cbn [snd] in Hcleared.
    change (dirty (afterMkdirp w d1)) with (dirty w) in Hcleared. congruence.
Qed.

End FlushProofs.

(** ** Migration between storage backends *)

Section ConfigProofs.
Context `{C : Collaborators}.
Local Open Scope world_scope.

#[global] Instance configFrame_Frame : Frame configFrame.
Proof.
  split.
  - intros w. split; reflexivity.
  - intros w1 w2 w3 [] []. split; congruence.
Qed.

Lemma configFrame_callWrite ev (f : Durable -> result unit * Durable) :
  preserves configFrame (callWrite ev f).
Proof.
  intros w. unfold callWrite. destruct (f (durable w)). split; reflexivity.
Qed.

Lemma readFrame_configFrame w w' : readFrame w w' -> configFrame w w'.
Proof. intros [_ Hc [Hd Hp _ Hs _]]. split; assumption. Qed.

Lemma updateConfig_configFrame (args : UpdateConfigArgs) :
  preserves configFrame (updateConfig args).
Proof.
  unfold updateConfig, updateConfig_writeNew, updateConfig_swap.
  apply preserves_bind; [apply _| |intros [newProvider tempPrefix]].
  - apply preserves_bind; [apply _|apply preserves_liftResult, _|intros newProvider].
    apply preserves_bind; [apply _| |intros contents].
    { eapply preserves_weaken; [apply readFrame_configFrame|apply getContentAndHash_readFrame]. }
    apply preserves_bind; [apply _|apply preserves_gets, _|intros prefix].
    apply preserves_bind; [apply _|apply configFrame_callWrite|intros _].
    apply preserves_ret, _.
  - apply preserves_bind; [apply _|apply preserves_gets, _|intros old].
    apply preserves_bind; [apply _|apply preserves_gets, _|intros prefix].
    apply preserves_bind; [apply _|apply configFrame_callWrite|intros _].
    apply preserves_bind; [apply _|apply configFrame_callWrite|intros _].
    apply preserves_bind; [apply _| |intros _; apply preserves_ret, _].
    apply preserves_modify. intros w. split; reflexivity.
Qed.

Lemma updateConfig_writeNew_eval (args : UpdateConfigArgs) (w : World)
    (newProvider : StateContentProvider Durable) :
  getStateContentProvider (workspaceId args) (stateConfig args) = Ok newProvider ->
  updateConfig_writeNew args w
  = match getContentAndHash w with
    | (Ok contents, wa) =>
        match writeContents newProvider (tempPrefixOf (currentFilePrefix wa)) contents (durable wa) with
        | (Ok _, d) =>
            (Ok (newProvider, tempPrefixOf (currentFilePrefix wa)),
             afterTempWrite wa newProvider contents d)
        | (Err e, d) => (Err e, afterTempWrite wa newProvider contents d)
        end
    | (Err e, wa) => (Err e, wa)
    end.
Proof.
  intros Hp. unfold updateConfig_writeNew, bind, liftResult, gets, ret, callWrite.
  rewrite Hp.
  destruct (getContentAndHash w) as [[contents|e] wa]; [|reflexivity].
  destruct (writeContents newProvider _ contents (durable wa)) as [[[]|e] d]; reflexivity.
Qed.

Lemma updateConfig_swap_eval (args : UpdateConfigArgs) (w : World)
    (newProvider : StateContentProvider Durable) (tempPrefix : string) :
  updateConfig_swap args (newProvider, tempPrefix) w
  = match clear (currentContentProvider w) (currentFilePrefix w) (durable w) with
    | (Ok _, d) =>
        match rename newProvider tempPrefix (path_basename (currentFilePrefix w)) d with
        | (Ok _, d') => (Ok tt, afterRename (afterClear w d) newProvider tempPrefix d')
        | (Err e, d') => (Err e, afterFailedRename (afterClear w d) newProvider tempPrefix d')
        end
    | (Err e, d) => (Err e, afterClear w d)
    end.
Proof.
  unfold updateConfig_swap, bind, gets, ret, callWrite, modify, inMemState_updateConfig.
  destruct (clear _ _ (durable w)) as [[[]|e] d]; [|reflexivity].
  change (durable (with_durable d (logEvent _ w))) with d.
  unfold afterClear.
  destruct (rename newProvider _ _ d) as [[[]|e] d']; reflexivity.
Qed.

(** [updateConfig] as a cascade of outcomes. *)
Lemma updateConfig_eval (args : UpdateConfigArgs) (w : World)
    (newProvider : StateContentProvider Durable) :
  getStateContentProvider (workspaceId args) (stateConfig args) = Ok newProvider ->
  updateConfig args w
  = match getContentAndHash w with
    | (Ok contents, wa) =>
        match writeContents newProvider (tempPrefixOf (currentFilePrefix wa)) contents
                (durable wa) with
        | (Ok _, d) =>
            let wb := afterTempWrite wa newProvider contents d in
            match clear (currentContentProvider wa) (currentFilePrefix wa) d with
            | (Ok _, d1) =>
                match rename newProvider (tempPrefixOf (currentFilePrefix wa))
                        (path_basename (currentFilePrefix wa)) d1 with
                | (Ok _, d2) =>
                    (Ok tt,
                     afterRename (afterClear wb d1) newProvider
                       (tempPrefixOf (currentFilePrefix wa)) d2)
                | (Err e, d2) =>
                    (Err e,
                     afterFailedRename (afterClear wb d1) newProvider
                       (tempPrefixOf (currentFilePrefix wa)) d2)
                end
            | (Err e, d1) => (Err e, afterClear wb d1)
            end
        | (Err e, d) => (Err e, afterTempWrite wa newProvider contents d)
        end
    | (Err e, wa) => (Err e, wa)
    end.
Proof.
  intros Hp. unfold updateConfig. unfold bind at 1.
  rewrite (updateConfig_writeNew_eval args w newProvider Hp).
  destruct (getContentAndHash w) as [[contents|e] wa]; [|reflexivity].
  destruct (writeContents newProvider _ contents (durable wa)) as [[[]|e] d]; [|reflexivity].
  rewrite updateConfig_swap_eval. reflexivity.
Qed.

Lemma updateConfig_no_provider (args : UpdateConfigArgs) (w : World) (e : error) :
  getStateContentProvider (workspaceId args) (stateConfig args) = Err e ->
  updateConfig args w = (Err e, w).
Proof.
  intros Hp. unfold updateConfig, updateConfig_writeNew, bind, liftResult.
  rewrite Hp. reflexivity.
Qed.

(** From a world [wa] that differs from [w] by the memoized contents at
    most, the provider calls of [updateConfig] add no read to the trace. *)
Lemma migration_tail_notRead (w w' : World) (evs : list Event) :
  trace w' = trace w ++ evs -> Forall notRead evs -> tracedBy notRead w w'.
Proof. intros Ht Hall. exists evs. split; assumption. Qed.

(** C10, as the code has it. [updateConfig] never marks the state dirty
    and never changes the recorded file prefix, the cache store or the
    static files source, whatever its outcome; when it succeeds the active
    provider is the new one and the last provider call renamed the new
    provider's temporary content to the base name of the (unchanged, full)
    current prefix. The memoized content and hash are left as they are when
    there are some, and then [cacheDirty] and the loaded data are unchanged
    too and nothing is read; when there are none, [updateConfig] computes
    and memoizes them, which loads the state data if it is not loaded yet
    (and that load may reparse and set [cacheDirty]). *)
Theorem updateConfig_frame :
  forall (args : UpdateConfigArgs) (w : World),
    let w' := snd (updateConfig args w) in
    dirty w' = dirty w
    /\ currentFilePrefix w' = currentFilePrefix w
    /\ cacheStore w' = cacheStore w
    /\ (forall settled,
          contentsAndHash w = Some settled ->
          contentsAndHash w' = Some settled
          /\ cacheDirty w' = cacheDirty w
          /\ innerStateData w' = innerStateData w
          /\ tracedBy notRead w w')
    /\ (forall sd,
          innerStateData w = Some sd ->
          cacheDirty w' = cacheDirty w
          /\ innerStateData w' = Some sd
          /\ tracedBy notRead w w')
    /\ (forall newProvider,
          contentsAndHash w = None ->
          getStateContentProvider (workspaceId args) (stateConfig args) = Ok newProvider ->
          contentsAndHash w' = Some (fst (calculateContentAndHash w)))
    /\ (fst (updateConfig args w) = Ok tt ->
        exists newProvider evs,
          getStateContentProvider (workspaceId args) (stateConfig args) = Ok newProvider
          /\ currentContentProvider w' = newProvider
          /\ trace w'
             = evs ++ [EvRename newProvider (tempPrefixOf (currentFilePrefix w))
                         (path_basename (currentFilePrefix w))]).
Proof.
  intros args w w'.
  destruct (updateConfig_configFrame args w) as [Hd Hp Hc _].
  split; [exact Hd|]. split; [exact Hp|]. split; [exact Hc|].
  clear Hd Hp Hc. subst w'.
  destruct (getStateContentProvider (workspaceId args) (stateConfig args)) as [B|e0] eqn:HB.
  2:{ rewrite (updateConfig_no_provider args w e0 HB). cbn [fst snd].
      split.
      { intros settled Hm. split; [exact Hm|]. split; [reflexivity|].
        split; [reflexivity|apply tracedBy_refl]. }
      split.
      { intros sd Hin. split; [reflexivity|]. split; [exact Hin|apply tracedBy_refl]. }
      split; [intros ? _ [=]|intros [=]]. }
  rewrite (updateConfig_eval args w B HB).
  assert (Hcalls : forall (wa : World) (contents : list ContentAndHash),
            trace wa = trace w ->
            let r := match writeContents B (tempPrefixOf (currentFilePrefix wa)) contents
                             (durable wa) with
                     | (Ok _, d) =>
                         let wb := afterTempWrite wa B contents d in
                         match clear (currentContentProvider wa) (currentFilePrefix wa) d with
                         | (Ok _, d1) =>
                             match rename B (tempPrefixOf (currentFilePrefix wa))
                                     (path_basename (currentFilePrefix wa)) d1 with
                             | (Ok _, d2) =>
                                 (Ok tt,
                                  afterRename (afterClear wb d1) B
                                    (tempPrefixOf (currentFilePrefix wa)) d2)
                             | (Err e, d2) =>
                                 (Err e,
                                  afterFailedRename (afterClear wb d1) B
                                    (tempPrefixOf (currentFilePrefix wa)) d2)
                             end
                         | (Err e, d1) => (Err e, afterClear wb d1)
                         end
                     | (Err e, d) => (Err e, afterTempWrite wa B contents d)
                     end in
            contentsAndHash (snd r) = contentsAndHash wa
            /\ cacheDirty (snd r) = cacheDirty wa
            /\ innerStateData (snd r) = innerStateData wa
            /\ tracedBy notRead w (snd r)).
  { intros wa contents Htr.
    destruct (writeContents B _ contents (durable wa)) as [[[]|e] d]; cbn zeta.
    - destruct (clear _ _ d) as [[[]|e] d1].
      + destruct (rename B _ _ d1) as [[[]|e] d2]; cbn [snd];
          (split; [reflexivity|]; split; [reflexivity|]; split; [reflexivity|]);
          eapply migration_tail_notRead;
          try (cbn; rewrite Htr, <- !app_assoc; reflexivity);
          repeat constructor; intros [].
      + cbn [snd]. split; [reflexivity|]. split; [reflexivity|]. split; [reflexivity|].
        eapply migration_tail_notRead;
          [cbn; rewrite Htr, <- !app_assoc; reflexivity|].
        repeat constructor; intros [].
    - cbn [snd]. split; [reflexivity|]. split; [reflexivity|]. split; [reflexivity|].
      eapply migration_tail_notRead; [cbn; rewrite Htr; reflexivity|].
      repeat constructor; intros []. }
  split; [|split; [|split]].
  - intros settled Hm.
    rewrite (getContentAndHash_memoized w settled Hm).
    destruct settled as [contents|e].
    + destruct (Hcalls w contents eq_refl) as (H1 & H2 & H3 & H4).
      split; [rewrite H1; exact Hm|]. split; [exact H2|]. split; [exact H3|exact H4].
    + cbn [snd]. split; [exact Hm|]. split; [reflexivity|].
      split; [reflexivity|apply tracedBy_refl].
  - intros sd Hin.
    rewrite (getContentAndHash_loaded w sd Hin).
    destruct (currentContents w sd) as [contents|e].
    + destruct (Hcalls (with_contentsAndHash (Some (Ok contents)) w) contents eq_refl)
        as (H1 & H2 & H3 & H4).
      split; [exact H2|]. split; [rewrite H3; exact Hin|exact H4].
    + cbn [snd]. split; [reflexivity|]. split; [exact Hin|].
      apply tracedBy_same. reflexivity.
  - intros B' Hnone [= <-].
    pose proof (getContentAndHash_memoizes w) as Hmemo.
    assert (Hfst : fst (getContentAndHash w) = fst (calculateContentAndHash w)).
    { unfold getContentAndHash. rewrite Hnone.
      destruct (calculateContentAndHash w); reflexivity. }
    rewrite <- Hfst.
    destruct (getContentAndHash w) as [[contents|e] wa]; cbn [fst snd] in *;
      [|exact Hmemo].
    destruct (writeContents B _ contents (durable wa)) as [[[]|e] d]; [|exact Hmemo].
    cbn zeta.
    destruct (clear _ _ _) as [[[]|e] d1]; [|exact Hmemo].
    destruct (rename B _ _ d1) as [[[]|e] d2]; exact Hmemo.
  - pose proof (getContentAndHash_readFrame w) as [_ _ [_ Hpre _ _ _]].
    destruct (getContentAndHash w) as [[contents|e] wa]; cbn [fst snd] in *; [|intros [=]].
    destruct (writeContents B _ contents (durable wa)) as [[[]|e] d]; [|intros [=]].
    cbn zeta.
    destruct (clear _ _ _) as [[[]|e] d1]; [|intros [=]].
    destruct (rename B _ _ d1) as [[[]|e] d2]; [|intros [=]].
    intros _. exists B. eexists. split; [reflexivity|]. split; [reflexivity|].
    cbn. rewrite Hpre. reflexivity.
Qed.

(** *** Safety of the migration *)



End ConfigProofs.

(** ** Reachable worlds *)

Section Invariant.
Context `{C : Collaborators}.
Local Open Scope world_scope.

#[global] Instance keepsMemo_Frame : Frame keepsMemo.
Proof.
  split.
  - intros w H. exact H.
  - intros w1 w2 w3 H12 H23 H. auto.
Qed.

(** A step that touches neither the memoized contents nor the loaded data,
    or that loads data, keeps the invariant. *)
Lemma keepsMemo_same (w w' : World) :
  contentsAndHash w' = contentsAndHash w ->
  (innerStateData w <> None -> innerStateData w' <> None) ->
  keepsMemo w w'.
Proof.
  intros Hc Hin Hwf contents Hmemo. rewrite Hc in Hmemo. apply Hin. eapply Hwf, Hmemo.
Qed.

Lemma keepsMemo_callWrite ev (f : Durable -> result unit * Durable) :
  preserves keepsMemo (callWrite ev f).
Proof.
  intros w. unfold callWrite. destruct (f (durable w)).
  apply keepsMemo_same; [reflexivity|auto].
Qed.

Lemma keepsMemo_stateData : preserves keepsMemo stateData.
Proof.
  intros w. apply keepsMemo_same.
  - apply (lf_contentsAndHash _ _ (stateData_frame w)).
  - intros Hin. destruct (innerStateData w) as [sd|] eqn:E; [|congruence].
    rewrite (stateData_loaded w sd E). cbn. congruence.
Qed.

Lemma keepsMemo_setDirty : preserves keepsMemo setDirty.
Proof. intros w _ contents H. discriminate H. Qed.

Lemma keepsMemo_load (f : StateData.t -> StateData.t) :
  preserves keepsMemo
    (let* sd := stateData in modify (with_innerStateData (Some (f sd)))).
Proof.
  apply preserves_bind; [apply _|apply keepsMemo_stateData|intros sd].
  apply preserves_modify. intros w. apply keepsMemo_same; [reflexivity|].
  intros _ [=].
Qed.

Lemma keepsMemo_getContentAndHash : preserves keepsMemo getContentAndHash.
Proof.
  intros w Hwf. unfold getContentAndHash.
  destruct (contentsAndHash w) as [settled|] eqn:Hmemo; [exact Hwf|].
  rewrite calculateContentAndHash_eval.
  pose proof (stateData_inner w) as Hin.
  destruct (stateData w) as [[sd|e] w1]; cbn [snd].
  - intros contents _. specialize (Hin sd eq_refl). cbn in *. congruence.
  - intros contents [=].
Qed.

Lemma keepsMemo_inMemState_flush : preserves keepsMemo inMemState_flush.
Proof.
  unfold inMemState_flush.
  apply preserves_bind; [apply _|apply keepsMemo_stateData|intros sd].
  intros w. unfold callFlushStateData. destruct (flushStateData sd (cacheStore w)).
  apply keepsMemo_same; [reflexivity|auto].
Qed.

Lemma keepsMemo_flags (f : World -> World) :
  (forall w, contentsAndHash (f w) = contentsAndHash w) ->
  (forall w, innerStateData (f w) = innerStateData w) ->
  preserves keepsMemo (modify f).
Proof.
  intros Hc Hi. apply preserves_modify. intros w.
  apply keepsMemo_same; [apply Hc|]. rewrite Hi. auto.
Qed.

Lemma keepsMemo_run (op : Operation) (w : World) : keepsMemo w (run op w).
Proof.
  destruct op; cbn [run].
  - revert w. unfold inMemState_getAll.
    apply preserves_bind; [apply _|apply keepsMemo_stateData|intros sd].
    apply preserves_ret, _.
  - revert w. unfold state_set.
    apply preserves_bind; [apply _| |intros _; apply keepsMemo_setDirty].
    apply (keepsMemo_load
             (fun sd => StateData.mk
                          (<[getFullName (elemID element) := element]> (StateData.elements sd))
                          (StateData.pathIndex sd) (StateData.accounts sd)
                          (StateData.saltoMetadata sd))).
  - revert w. unfold state_remove.
    apply preserves_bind; [apply _| |intros _; apply keepsMemo_setDirty].
    apply (keepsMemo_load
             (fun sd => StateData.mk (delete (getFullName id) (StateData.elements sd))
                          (StateData.pathIndex sd) (StateData.accounts sd)
                          (StateData.saltoMetadata sd))).
  - revert w. unfold state_rename.
    apply preserves_bind; [apply _|apply preserves_gets, _|intros static].
    apply preserves_bind; [apply _|apply preserves_gets, _|intros p].
    apply preserves_bind; [apply _|apply preserves_gets, _|intros prefix].
    apply preserves_bind; [apply _| |intros _].
    { apply preserves_promiseAll2; [apply _| |]; apply keepsMemo_callWrite. }
    apply preserves_bind; [apply _| |intros _; apply keepsMemo_setDirty].
    apply keepsMemo_flags; reflexivity.
  - revert w. unfold flush.
    apply preserves_bind; [apply _|apply preserves_gets, _|intros isDirty].
    destruct (negb isDirty).
    + apply preserves_bind; [apply _|apply preserves_gets, _|intros isCacheDirty].
      destruct isCacheDirty; [|apply preserves_ret, _].
      apply preserves_bind; [apply _|apply keepsMemo_inMemState_flush|intros _].
      apply keepsMemo_flags; reflexivity.
    + apply preserves_bind; [apply _|apply preserves_gets, _|intros prefix].
      apply preserves_bind; [apply _|apply keepsMemo_callWrite|intros _].
      apply preserves_bind; [apply _|apply keepsMemo_getContentAndHash|intros contents].
      apply preserves_bind; [apply _|apply preserves_gets, _|intros p].
      apply preserves_bind; [apply _|apply preserves_gets, _|intros prefix'].
      apply preserves_bind; [apply _|apply keepsMemo_callWrite|intros _].
      apply preserves_bind; [apply _| |intros _].
      { apply (keepsMemo_load (withHash (getHashFromHashes (map contentHash contents)))). }
      apply preserves_bind; [apply _|apply keepsMemo_inMemState_flush|intros _].
      apply keepsMemo_flags; reflexivity.
  - revert w. unfold calculateHash, calculateHashImpl.
    apply preserves_bind; [apply _|apply preserves_gets, _|intros isDirty].
    destruct (negb isDirty); [apply preserves_ret, _|].
    apply preserves_bind; [apply _|apply keepsMemo_getContentAndHash|intros contents].
    apply (keepsMemo_load (withHash (getHashFromHashes (map contentHash contents)))).
  - revert w. unfold state_clear.
    apply preserves_bind; [apply _|apply preserves_gets, _|intros p].
    apply preserves_bind; [apply _|apply preserves_gets, _|intros prefix].
    apply preserves_bind; [apply _| |intros _; apply keepsMemo_setDirty].
    apply preserves_promiseAll2; [apply _|apply keepsMemo_callWrite|].
    apply (keepsMemo_load (fun _ => StateData.mk ∅ ∅ ∅ ∅)).
  - revert w. unfold updateStateFromChanges, inMemState_updateStateFromChanges.
    apply preserves_bind; [apply _| |intros _; apply keepsMemo_setDirty].
    apply preserves_bind; [apply _|apply keepsMemo_stateData|intros sd].
    apply preserves_bind; [apply _|apply preserves_liftResult, _|intros sd'].
    apply preserves_modify. intros w. apply keepsMemo_same; [reflexivity|intros _ [=]].
  - revert w. unfold updateConfig, updateConfig_writeNew, updateConfig_swap.
    apply preserves_bind; [apply _| |intros [newProvider tempPrefix]].
    + apply preserves_bind; [apply _|apply preserves_liftResult, _|intros newProvider].
      apply preserves_bind; [apply _|apply keepsMemo_getContentAndHash|intros contents].
      apply preserves_bind; [apply _|apply preserves_gets, _|intros prefix].
      apply preserves_bind; [apply _|apply keepsMemo_callWrite|intros _].
      apply preserves_ret, _.
    + apply preserves_bind; [apply _|apply preserves_gets, _|intros old].
      apply preserves_bind; [apply _|apply preserves_gets, _|intros prefix].
      apply preserves_bind; [apply _|apply keepsMemo_callWrite|intros _].
      apply preserves_bind; [apply _|apply keepsMemo_callWrite|intros _].
      apply preserves_bind; [apply _| |intros _; apply preserves_ret, _].
      apply keepsMemo_flags; reflexivity.
Qed.

(** Contents are memoized from loaded data in every reachable world. *)
Lemma reachable_memoImpliesLoaded (w : World) : reachable w -> memoImpliesLoaded w.
Proof.
  induction 1 as [filePrefix p static d c|op w Hreach IH].
  - intros contents [=].
  - apply (keepsMemo_run op w IH).
Qed.

End Invariant.

(** ** The stream codec *)

(** *** JavaScript objects: enumeration, grouping, sorting *)

Lemma elem_of_concat {A} (x : A) (ls : list (list A)) :
  x ∈ concat ls <-> exists l, x ∈ l /\ l ∈ ls.
Proof.
  rewrite list_elem_of_In, in_concat.
  split; intros (l & H1 & H2); exists l; rewrite ?list_elem_of_In in *; tauto.
Qed.

Lemma elem_of_map {A B} (f : A -> B) (l : list A) (y : B) :
  y ∈ map f l <-> exists x, y = f x /\ x ∈ l.
Proof. apply (list_elem_of_fmap f l y). Qed.

Lemma elem_of_map_2 {A B} (f : A -> B) (l : list A) (x : A) :
  x ∈ l -> f x ∈ map f l.
Proof. apply (list_elem_of_fmap_2 f l x). Qed.

Section ObjectProofs.
Context {V : Type}.

Lemma filter_partition_Permutation {A} (f : A -> bool) (l : list A) :
  List.filter f l ++ List.filter (fun x => negb (f x)) l ≡ₚ l.
Proof.
  induction l as [|x l IH]; [reflexivity|]. cbn.
  destruct (f x); cbn.
  - constructor. exact IH.
  - rewrite <- Permutation_middle. constructor. exact IH.
Qed.

Lemma insertByIndex_Permutation (e : string * V) (l : list (string * V)) :
  insertByIndex e l ≡ₚ e :: l.
Proof.
  induction l as [|e' l IH]; [reflexivity|]. cbn.
  destruct (indexValue e.1 <=? indexValue e'.1)%N; [reflexivity|].
  rewrite IH. apply perm_swap.
Qed.

Lemma sortByIndex_Permutation (l : list (string * V)) : sortByIndex l ≡ₚ l.
Proof.
  induction l as [|e l IH]; [reflexivity|]. cbn.
  rewrite insertByIndex_Permutation. constructor. exact IH.
Qed.

Lemma Object_entries_Permutation (o : JsObject V) : Object_entries o ≡ₚ o.
Proof.
  unfold Object_entries. rewrite sortByIndex_Permutation.
  apply (filter_partition_Permutation (fun e => isArrayIndex e.1)).
Qed.

Lemma obj_get_Some_elem (o : JsObject V) (k : string) (v : V) :
  obj_get o k = Some v -> (k, v) ∈ o.
Proof.
  induction o as [|[k' v'] o IH]; cbn; [discriminate|].
  destruct (String.eqb k' k) eqn:E.
  - apply String.eqb_eq in E. intros [= <-]. subst. left.
  - intros H. right. auto.
Qed.

Lemma obj_get_None (o : JsObject V) (k : string) :
  obj_get o k = None <-> k ∉ map fst o.
Proof.
  induction o as [|[k' v'] o IH]; cbn.
  - split; [intros _ H; inversion H|reflexivity].
  - destruct (String.eqb k' k) eqn:E.
    + apply String.eqb_eq in E. subst. split; [discriminate|].
      intros H. destruct H. left.
    + apply String.eqb_neq in E. rewrite IH. split.
      * intros H Hin. apply elem_of_cons in Hin as [->|Hin]; [congruence|auto].
      * intros H Hin. apply H. right. exact Hin.
Qed.

Lemma obj_get_elem_NoDup (o : JsObject V) (k : string) (v : V) :
  NoDup (map fst o) -> (k, v) ∈ o -> obj_get o k = Some v.
Proof.
  induction o as [|[k' v'] o IH]; intros Hnd Hin; [inversion Hin|].
  cbn in *. apply NoDup_cons in Hnd as [Hk' Hnd].
  apply elem_of_cons in Hin as [[= -> ->]|Hin].
  - rewrite String.eqb_refl. reflexivity.
  - destruct (String.eqb k' k) eqn:E; [|auto].
    apply String.eqb_eq in E. subst. destruct Hk'.
    apply (elem_of_map_2 fst _ _ Hin).
Qed.

Lemma obj_get_Permutation (o o' : JsObject V) (k : string) :
  NoDup (map fst o) -> o ≡ₚ o' -> obj_get o k = obj_get o' k.
Proof.
  intros Hnd Hp.
  assert (Hnd' : NoDup (map fst o')).
  { eapply NoDup_Permutation_proper; [|exact Hnd]. symmetry. apply Permutation_map, Hp. }
  destruct (obj_get o k) as [v|] eqn:E.
  - symmetry. apply obj_get_elem_NoDup; [exact Hnd'|].
    rewrite <- Hp. apply obj_get_Some_elem, E.
  - symmetry. apply obj_get_None. apply obj_get_None in E.
    intros Hin. apply E. eapply elem_of_Permutation_proper; [|exact Hin].
    apply Permutation_map, Hp.
Qed.

Lemma obj_get_Object_entries (o : JsObject V) (k : string) :
  NoDup (map fst o) -> obj_get (Object_entries o) k = obj_get o k.
Proof.
  intros Hnd. symmetry. apply obj_get_Permutation; [exact Hnd|].
  symmetry. apply Object_entries_Permutation.
Qed.

End ObjectProofs.

Lemma obj_get_map_values {V W} (g : string -> V -> W) (l : list (string * V)) (k : string) :
  obj_get (map (fun e => (fst e, g (fst e) (snd e))) l) k = option_map (g k) (obj_get l k).
Proof.
  induction l as [|[k' v] l IH]; [reflexivity|]. cbn.
  destruct (String.eqb k' k) eqn:E; [|exact IH].
  apply String.eqb_eq in E. subst. reflexivity.
Qed.

Lemma obj_get_mapValues {V W} (f : V -> string -> W) (o : JsObject V) (k : string) :
  NoDup (map fst o) ->
  obj_get (mapValues f o) k = option_map (fun v => f v k) (obj_get o k).
Proof.
  intros Hnd. unfold mapValues.
  rewrite (obj_get_map_values (fun k' v => f v k')).
  rewrite obj_get_Object_entries; [reflexivity|exact Hnd].
Qed.

Lemma mapValues_keys {V W} (f : V -> string -> W) (o : JsObject V) :
  map fst (mapValues f o) = map fst (Object_entries o).
Proof. unfold mapValues. rewrite map_map. reflexivity. Qed.

Section GroupProofs.
Context {A : Type} (key : A -> string).

Lemma groupPush_keys (k : string) (x : A) (o : JsObject (list A)) :
  map fst (groupPush k x o)
  = if decide (k ∈ map fst o) then map fst o else map fst o ++ [k].
Proof.
  induction o as [|[k' xs] o IH]; cbn.
  - destruct (decide (k ∈ [])) as [H|_]; [inversion H|reflexivity].
  - destruct (String.eqb k' k) eqn:E.
    + apply String.eqb_eq in E. subst. cbn.
      destruct (decide (k ∈ k :: map fst o)) as [_|H]; [reflexivity|]. destruct H. left.
    + apply String.eqb_neq in E. cbn. rewrite IH.
      destruct (decide (k ∈ map fst o)) as [Hin|Hout];
        destruct (decide (k ∈ k' :: map fst o)) as [Hin'|Hout']; try reflexivity.
      * destruct Hout'. right. exact Hin.
      * apply elem_of_cons in Hin' as [->|Hin']; [congruence|contradiction].
Qed.

Lemma groupPush_NoDup (k : string) (x : A) (o : JsObject (list A)) :
  NoDup (map fst o) -> NoDup (map fst (groupPush k x o)).
Proof.
  intros Hnd. rewrite groupPush_keys.
  destruct (decide (k ∈ map fst o)) as [Hin|Hout]; [exact Hnd|].
  apply NoDup_app. split; [exact Hnd|]. split.
  - intros y Hy Hk. apply list_elem_of_singleton in Hk. subst. contradiction.
  - apply NoDup_singleton.
Qed.

Lemma groupPush_concat (k : string) (x : A) (o : JsObject (list A)) :
  concat (map snd (groupPush k x o)) ≡ₚ x :: concat (map snd o).
Proof.
  induction o as [|[k' xs] o IH]; cbn; [reflexivity|].
  destruct (String.eqb k' k); cbn.
  - rewrite <- app_assoc. cbn. rewrite <- Permutation_middle. reflexivity.
  - rewrite IH. rewrite <- Permutation_middle. reflexivity.
Qed.

Lemma groupPush_wellGrouped (x : A) (o : JsObject (list A)) :
  wellGrouped key o -> wellGrouped key (groupPush (key x) x o).
Proof.
  induction o as [|[k' xs] o IH]; intros Hwg k ys Hin; cbn in Hin.
  - apply list_elem_of_singleton in Hin. injection Hin as -> ->.
    split; [discriminate|]. intros y Hy. apply list_elem_of_singleton in Hy. congruence.
  - destruct (String.eqb k' (key x)) eqn:E.
    + apply String.eqb_eq in E.
      apply elem_of_cons in Hin as [[= -> ->]|Hin].
      * destruct (Hwg k' xs ltac:(left)) as [_ Hall].
        split; [destruct xs; discriminate|].
        intros y Hy. apply elem_of_app in Hy as [Hy|Hy]; [auto|].
        apply list_elem_of_singleton in Hy. congruence.
      * apply Hwg. right. exact Hin.
    + apply elem_of_cons in Hin as [[= -> ->]|Hin].
      * apply Hwg. left.
      * apply IH; [|exact Hin]. intros k0 zs Hz. apply Hwg. right. exact Hz.
Qed.

Lemma groupBy_acc (l : list A) :
  forall acc : JsObject (list A),
    NoDup (map fst acc) -> wellGrouped key acc ->
    let o := fold_left (fun o x => groupPush (key x) x o) l acc in
    NoDup (map fst o) /\ wellGrouped key o
    /\ concat (map snd o) ≡ₚ concat (map snd acc) ++ l.
Proof.
  induction l as [|x l IH]; intros acc Hnd Hwg; cbn.
  - rewrite app_nil_r. auto.
  - destruct (IH (groupPush (key x) x acc)
                (groupPush_NoDup _ _ _ Hnd) (groupPush_wellGrouped _ _ Hwg))
      as (H1 & H2 & H3).
    split; [exact H1|]. split; [exact H2|].
    cbn zeta in H3. rewrite H3, groupPush_concat. cbn.
    rewrite <- Permutation_middle. reflexivity.
Qed.

Lemma groupBy_NoDup (l : list A) : NoDup (map fst (groupBy key l)).
Proof.
  apply (groupBy_acc l []); [constructor|]. intros k xs H. inversion H.
Qed.

Lemma groupBy_wellGrouped (l : list A) : wellGrouped key (groupBy key l).
Proof.
  apply (groupBy_acc l []); [constructor|]. intros k xs H. inversion H.
Qed.

Lemma groupBy_concat (l : list A) : concat (map snd (groupBy key l)) ≡ₚ l.
Proof.
  apply (groupBy_acc l []); [constructor|]. intros k xs H. inversion H.
Qed.

(** An item is in the group of its key, and in no other. *)
Lemma groupBy_elem (l : list A) (x : A) :
  x ∈ l <-> exists xs, obj_get (groupBy key l) (key x) = Some xs /\ x ∈ xs.
Proof.
  split.
  - intros Hin. rewrite <- (groupBy_concat l) in Hin.
    apply elem_of_concat in Hin as (xs & Hx & Hxs).
    apply elem_of_map in Hxs as ([k ys] & -> & Hg). cbn in *.
    destruct (groupBy_wellGrouped l k ys Hg) as [_ Hall].
    exists ys. split; [|exact Hx].
    rewrite (Hall x Hx). apply obj_get_elem_NoDup; [apply groupBy_NoDup|exact Hg].
  - intros (xs & Hget & Hx). rewrite <- (groupBy_concat l).
    apply elem_of_concat. exists xs. split; [exact Hx|].
    apply elem_of_map. exists (key x, xs). split; [reflexivity|].
    apply obj_get_Some_elem, Hget.
Qed.

Lemma groupBy_keys (l : list A) (k : string) :
  k ∈ map fst (groupBy key l) <-> k ∈ map key l.
Proof.
  split.
  - intros Hin. apply elem_of_map in Hin as ([k' xs] & -> & Hg). cbn.
    destruct (groupBy_wellGrouped l k' xs Hg) as [Hne Hall].
    destruct xs as [|x xs]; [congruence|].
    rewrite <- (Hall x ltac:(left)). apply elem_of_map_2.
    rewrite <- (groupBy_concat l). apply elem_of_concat.
    exists (x :: xs). split; [left|].
    apply (elem_of_map_2 snd _ _ Hg).
  - intros Hin. apply elem_of_map in Hin as (x & -> & Hx).
    apply groupBy_elem in Hx as (xs & Hget & _).
    apply (elem_of_map_2 fst _ _ (obj_get_Some_elem _ _ _ Hget)).
Qed.

Lemma sortInsert_Permutation (x : A) (l : list A) : sortInsert key x l ≡ₚ x :: l.
Proof.
  induction l as [|y l IH]; [reflexivity|]. cbn.
  destruct (String.leb (key x) (key y)); [reflexivity|].
  rewrite IH. apply perm_swap.
Qed.

Lemma sortBy_Permutation (l : list A) : sortBy key l ≡ₚ l.
Proof.
  induction l as [|x l IH]; [reflexivity|]. cbn.
  rewrite sortInsert_Permutation. constructor. exact IH.
Qed.

End GroupProofs.

(** *** Writing and reading back *)

Section CodecProofs.
Context `{C : Collaborators}.

Lemma parseStream_readBack (res : ParsedState.t) (s : NamedStream) :
  parseStream res s = (let? values := readBack (stream s) in parseLines res 0 values)%res.
Proof.
  unfold parseStream, readBack. destruct (createGunzip (stream s)); reflexivity.
Qed.

Lemma decodePath_pathJson (p : Path) : decodePath (pathJson p) = Some p.
Proof.
  unfold decodePath, pathJson. induction p as [|seg p IH]; [reflexivity|].
  cbn in *. rewrite IH. reflexivity.
Qed.

Lemma decodePathEntry_pathEntryJson (e : PathEntry) :
  decodePathEntry (pathEntryJson e) = Some e.
Proof.
  destruct e as [key paths]. unfold decodePathEntry, pathEntryJson. cbn [fst snd].
  assert (H : mapM decodePath (map pathJson paths) = Some paths).
  { induction paths as [|p paths IH]; [reflexivity|].
    cbn -[decodePath pathJson] in *. rewrite decodePath_pathJson.
    cbn -[decodePath pathJson]. rewrite IH. reflexivity. }
  rewrite H. reflexivity.
Qed.

Lemma loadPathIndex_app (l1 l2 : list json) :
  loadPathIndex (l1 ++ l2) = loadPathIndex l1 ++ loadPathIndex l2.
Proof. apply omap_app. Qed.

Lemma loadPathIndex_pathEntryJson (entries : list PathEntry) :
  loadPathIndex (map pathEntryJson entries) = entries.
Proof.
  unfold loadPathIndex. induction entries as [|e entries IH]; [reflexivity|].
  cbn -[decodePathEntry pathEntryJson].
  rewrite decodePathEntry_pathEntryJson. cbn -[decodePathEntry pathEntryJson].
  f_equal. exact IH.
Qed.

(** The streams of a list of accounts, parsed one after the other. *)
Lemma parseStreams_round_trip (pathGroup : string -> option (list PathEntry))
    (order : list (string * list Element)) :
  (forall account accountElements,
      (account, accountElements) ∈ order ->
      roundTrips accountElements account (pathGroup account)) ->
  forall (streams : list NamedStream) (res : ParsedState.t),
    map stream streams
    = map (fun e => createGZipWriteStream (accountText (snd e) (fst e) (pathGroup (fst e)))) order ->
    parseStreams res streams
    = Ok (ParsedState.mk
            (ParsedState.elements res
               ++ concat (map (fun e => sortBy (fun element => getFullName (elemID element)) (snd e))
                            order))
            (ParsedState.accounts res ++ map (fun e => JStr (fst e)) order)
            (ParsedState.pathIndices res
               ++ concat (map (fun e => map pathEntryJson (default [] (pathGroup (fst e))))
                            order))).
Proof.
  induction order as [|[account accountElements] order IH]; intros Hrt streams res Hstreams.
  - destruct streams; [|discriminate]. cbn. rewrite !app_nil_r. destruct res; reflexivity.
  - destruct streams as [|s streams]; [discriminate|].
    cbn [map fst snd] in Hstreams. injection Hstreams as Hs Hrest.
    cbn [parseStreams]. rewrite parseStream_readBack, Hs.
    destruct (Hrt account accountElements ltac:(left)) as (j & Hread & Hdes).
    rewrite Hread. cbn [rbind parseLines]. unfold parseLine at 1. cbn [Nat.eqb].
    rewrite Hdes. cbn [rbind].
    unfold parseLine at 1. cbn [Nat.eqb isPlainObject].
    cbn [rbind]. unfold parseLine at 1. cbn [Nat.eqb rbind Array_concat parseLines].
    cbn [ParsedState.elements ParsedState.accounts ParsedState.pathIndices].
    rewrite (IH (fun a es Hin => Hrt a es ltac:(right; exact Hin)) streams _ Hrest).
    cbn [ParsedState.elements ParsedState.accounts ParsedState.pathIndices map concat fst snd].
    rewrite <- !app_assoc. reflexivity.
Qed.

(** The entries of [stateTextPerAccount]: the groups of the elements, each
    with the text of its account, in some order. *)
Lemma stateTextPerAccount_entries (elements : list Element) (pathIndexEntries : list PathEntry) :
  exists order,
    order ≡ₚ groupBy (fun element => adapter (elemID element)) elements
    /\ Object_entries (stateTextPerAccount elements pathIndexEntries)
       = map (fun e => (fst e,
                        accountText (snd e) (fst e)
                          (obj_get (groupPathIndexByAccount pathIndexEntries) (fst e))))
           order.
Proof.
  set (groups := groupBy (fun element => adapter (elemID element)) elements).
  set (h := fun e : string * list Element =>
              (fst e, accountText (snd e) (fst e)
                        (obj_get (groupPathIndexByAccount pathIndexEntries) (fst e)))).
  assert (Hnd : NoDup (map fst groups)) by apply groupBy_NoDup.
  assert (Hperm : Object_entries (stateTextPerAccount elements pathIndexEntries)
                  ≡ₚ map h groups).
  { rewrite Object_entries_Permutation. unfold stateTextPerAccount. fold groups.
    set (ser := fun (accountElements : list Element) (_ : string) =>
                  serializeStream
                    (sortBy (fun element => getFullName (elemID element)) accountElements)).
    set (o1 := mapValues ser groups).
    assert (Hnd1 : NoDup (map fst o1)).
    { unfold o1. rewrite mapValues_keys.
      eapply NoDup_Permutation_proper; [|exact Hnd].
      apply Permutation_map, Object_entries_Permutation. }
    unfold mapValues at 1. rewrite Object_entries_Permutation.
    unfold o1 at 2. unfold mapValues at 1. rewrite map_map. cbn [fst snd].
    rewrite Object_entries_Permutation.
    apply Permutation_refl'. apply map_ext_in. intros [a g] Hin. unfold h. cbn [fst snd].
    f_equal. unfold getStateStream, accountText.
    assert (Hg : obj_get o1 a = Some (ser g a)).
    { unfold o1. rewrite obj_get_mapValues; [|exact Hnd].
      rewrite (obj_get_elem_NoDup groups a g Hnd); [reflexivity|].
      apply list_elem_of_In, Hin. }
    rewrite Hg. cbn [default]. unfold ser.
    unfold serializePathIndexByAccount.
    rewrite obj_get_mapValues; [|apply groupBy_NoDup]. reflexivity. }
  apply Permutation_map_inv in Hperm as (order & Hmap & Horder).
  exists order. split; [symmetry; exact Horder|exact Hmap].
Qed.

Lemma pathIndex_setAll_lookup (index : gmap string (list Path)) (l : list PathEntry) :
  (forall k v, (k, v) ∈ l -> index !! k = Some v) ->
  forall (acc : gmap string (list Path)) (k : string),
    pathIndex_setAll l acc !! k
    = if decide (k ∈ map fst l) then index !! k else acc !! k.
Proof.
  induction l as [|[k0 v0] l IH]; intros Hcons acc k.
  - cbn. destruct (decide (k ∈ [])) as [H|_]; [inversion H|reflexivity].
  - unfold pathIndex_setAll in *. cbn [fold_left fst snd map].
    rewrite IH; [|intros k1 v1 H1; apply Hcons; right; exact H1].
    destruct (decide (k ∈ map fst l)) as [Hin|Hout].
    + destruct (decide (k ∈ k0 :: map fst l)) as [_|H]; [reflexivity|].
      destruct H. right. exact Hin.
    + destruct (decide (k = k0)) as [->|Hne].
      * rewrite lookup_insert_eq.
        destruct (decide (k0 ∈ k0 :: map fst l)) as [_|H]; [|destruct H; left].
        symmetry. apply Hcons. left.
      * rewrite lookup_insert_ne; [|congruence].
        destruct (decide (k ∈ k0 :: map fst l)) as [H|_]; [|reflexivity].
        apply elem_of_cons in H as [->|H]; [congruence|contradiction].
Qed.

(** C3, as the code has it. The content of an account unit is the gzip
    stream of the account's state text, and its [contentHash] is the MD5
    digest of the string form of those compressed bytes; the units of
    [calculateContentAndHash] are built this way from the entries of the
    per-account state text. *)
Theorem contentHash_of_compressed_bytes :
  forall (w : World) (account fileContent : string),
    contentAndHashOf (account, fileContent)
    = mkContentAndHash account (createGZipWriteStream fileContent)
        (toMD5 (Buffer_toString (createGZipWriteStream fileContent)))
    /\ match calculateContentAndHash w with
       | (Ok contents, w') =>
           exists sd,
             innerStateData w' = Some sd
             /\ contents
                = map contentAndHashOf
                    (Object_entries
                       (stateTextPerAccount (map snd (map_to_list (StateData.elements sd)))
                          (map_to_list (StateData.pathIndex sd))))
             /\ Forall (fun unit => contentHash unit = toMD5 (Buffer_toString (content unit)))
                  contents
       | (Err _, _) => True
       end.
Proof.
  intros w account fileContent. split; [reflexivity|].
  rewrite calculateContentAndHash_eval.
  pose proof (stateData_inner w) as Hin.
  destruct (stateData w) as [[sd|e] w1]; [|exact I].
  exists sd. split; [apply (Hin sd eq_refl)|]. split; [reflexivity|].
  unfold contentsOf. apply Forall_forall. intros unit Hunit.
  apply elem_of_map in Hunit as ([a text] & -> & _). reflexivity.
Qed.

(** C4, as the code has it. Elements split over their accounts, with a
    path index, are written as one stream per account that has elements.
    If the libraries read each such stream back as they wrote it, parsing
    the streams succeeds and gives: the same elements, up to order; one
    account name per stream, these being the accounts of the elements; and
    path index entries whose lookup agrees with the original index on every
    identifier of an account that has elements, and finds nothing for the
    identifiers of other accounts, whose entries are not written. *)
Theorem serialize_parse_round_trip :
  forall (elements : list Element) (index : gmap string (list Path))
         (streams : list NamedStream),
    let entries := map_to_list index in
    let contents :=
      map contentAndHashOf (Object_entries (stateTextPerAccount elements entries)) in
    codecRoundTrips elements entries ->
    map stream streams = map content contents ->
    exists res,
      parseStateContent streams = Ok res
      /\ ParsedState.elements res ≡ₚ elements
      /\ ParsedState.accounts res = map JStr (map account contents)
      /\ map account contents
         ≡ₚ map fst (groupBy (fun element => adapter (elemID element)) elements)
      /\ forall key,
           pathIndex_setAll (loadPathIndex (ParsedState.pathIndices res)) ∅ !! key
           = if decide (adapterOfFullName key
                          ∈ map (fun element => adapter (elemID element)) elements)
             then index !! key
             else None.
Proof.
  intros elements index streams entries contents Hcodec Hstreams.
  set (groups := groupBy (fun element => adapter (elemID element)) elements) in *.
  set (pathGroup := obj_get (groupPathIndexByAccount entries)).
  destruct (stateTextPerAccount_entries elements entries) as (order & Horder & Hentries).
  fold groups in Horder. fold pathGroup in Hentries.
  assert (Hcontents : contents
            = map (fun e => contentAndHashOf
                              (fst e, accountText (snd e) (fst e) (pathGroup (fst e))))
                order).
  { unfold contents. rewrite Hentries, map_map. reflexivity. }
  assert (Haccounts : map account contents = map fst order).
  { rewrite Hcontents, map_map. reflexivity. }
  assert (Hrt : forall a es, (a, es) ∈ order -> roundTrips es a (pathGroup a)).
  { intros a es Hin. apply Hcodec. fold groups. rewrite <- Horder. exact Hin. }
  assert (Hstreams' : map stream streams
            = map (fun e => createGZipWriteStream
                              (accountText (snd e) (fst e) (pathGroup (fst e)))) order).
  { rewrite Hstreams, Hcontents, map_map. reflexivity. }
  eexists. split.
  { unfold parseStateContent.
    apply (parseStreams_round_trip pathGroup order Hrt streams emptyParsedState Hstreams'). }
  cbn [ParsedState.elements ParsedState.accounts ParsedState.pathIndices emptyParsedState app].
  split; [|split; [|split]].
  - rewrite <- (groupBy_concat (fun element => adapter (elemID element)) elements).
    fold groups. rewrite <- Horder.
    clear. induction order as [|[a es] order IH]; [reflexivity|].
    cbn [map concat snd]. rewrite sortBy_Permutation, IH. reflexivity.
  - rewrite Haccounts, map_map. reflexivity.
  - rewrite Haccounts. apply Permutation_map, Horder.
  - intros key.
    set (loaded := loadPathIndex _).
    assert (Hloaded : loaded = concat (map (fun e => default [] (pathGroup (fst e))) order)).
    { unfold loaded. clear. induction order as [|[a es] order IH]; [reflexivity|].
      cbn [map concat fst]. rewrite loadPathIndex_app, loadPathIndex_pathEntryJson, IH.
      reflexivity. }
    assert (Hmem : forall k v,
              (k, v) ∈ loaded
              <-> (k, v) ∈ entries /\ adapterOfFullName k ∈ map fst groups).
    { intros k v. rewrite Hloaded, elem_of_concat. split.
      - intros (l & Hkv & Hl).
        apply elem_of_map in Hl as ([a es] & -> & Ha). cbn [fst] in Hkv.
        unfold pathGroup in Hkv.
        destruct (obj_get (groupPathIndexByAccount entries) a) as [group|] eqn:Hget;
          [|inversion Hkv].
        cbn [default] in Hkv.
        destruct (groupBy_wellGrouped (fun e : PathEntry => adapterOfFullName (fst e))
                    entries a group (obj_get_Some_elem _ _ _ Hget)) as [_ Hall].
        pose proof (Hall (k, v) Hkv) as Hk. cbn [fst] in Hk.
        split.
        + apply (groupBy_elem (fun e : PathEntry => adapterOfFullName (fst e))).
          exists group. cbn [fst]. rewrite Hk. split; [exact Hget|exact Hkv].
        + rewrite Hk, <- Horder. apply (elem_of_map_2 fst _ _ Ha).
      - intros [Hkv Hacc].
        apply (groupBy_elem (fun e : PathEntry => adapterOfFullName (fst e))) in Hkv
          as (group & Hget & Hin). cbn [fst] in Hget.
        rewrite <- Horder in Hacc. apply elem_of_map in Hacc as ([a es] & Ha & Hae).
        cbn [fst] in Ha. subst a.
        exists group. split; [exact Hin|].
        apply elem_of_map. exists (adapterOfFullName k, es). split; [|exact Hae].
        cbn [fst]. pose proof (f_equal (default []) Hget) as Hd.
        cbn [default] in Hd. symmetry. exact Hd. }
    rewrite (pathIndex_setAll_lookup index loaded).
    2:{ intros k v Hkv. apply Hmem in Hkv as [Hkv _].
        apply elem_of_map_to_list in Hkv. exact Hkv. }
    rewrite lookup_empty.
    assert (Hkeys : adapterOfFullName key ∈ map fst groups
                    <-> adapterOfFullName key
                          ∈ map (fun element => adapter (elemID element)) elements)
      by apply groupBy_keys.
    destruct (decide (key ∈ map fst loaded)) as [Hin|Hout].
    + apply elem_of_map in Hin as ([k v] & -> & Hkv). cbn [fst].
      apply Hmem in Hkv as [_ Hacc]. apply Hkeys in Hacc.
      destruct (decide _) as [_|H]; [reflexivity|contradiction].
    + destruct (decide _) as [Hacc|_]; [|reflexivity].
      destruct (index !! key) as [v|] eqn:Hlook; [|reflexivity].
      destruct Hout. apply (elem_of_map_2 fst _ (key, v)).
      apply Hmem. split; [apply elem_of_map_to_list, Hlook|apply Hkeys, Hacc].
Qed.

End CodecProofs.

(** ** The in-memory backends are separate when their names differ *)

Section DoublesProofs.
Import Doubles.
#[local] Existing Instance inMemory.








End DoublesProofs.

(** * The theorems at work on the sample workspaces *)

Section Witnesses.
Import Doubles Samples MoreSamples.
#[local] Existing Instance inMemory.

(** Opening the stored sample with an empty cache: the hashes differ, the
    content is reparsed, [cacheDirty] is set and [dirty] is not. *)
Lemma loadStateData_staleness_witness :
  buildStateData (cacheStore opened) = Ok emptyCache
  /\ findStateFiles fileBackend filePrefix storedState = Ok storedFiles
  /\ getHash fileBackend storedFiles storedState = Ok storedHash
  /\ quickAccessHashOf emptyCache <> storedHash
  /\ (exists res,
        parseStateContent storedStreams = Ok res
        /\ fst (loadStateData opened) = Ok (syncedStateData emptyCache res storedHash))
  /\ cacheDirty (snd (loadStateData opened)) = true
  /\ dirty (snd (loadStateData opened)) = false.
Proof.
  assert (H1 : buildStateData (cacheStore opened) = Ok emptyCache) by reflexivity.
  assert (H2 : findStateFiles (currentContentProvider opened) (currentFilePrefix opened)
                 (durable opened) = Ok storedFiles) by (vm_compute; reflexivity).
  assert (H3 : getHash (currentContentProvider opened) storedFiles (durable opened)
               = Ok storedHash) by (vm_compute; reflexivity).
  assert (H4 : quickAccessHashOf emptyCache <> storedHash) by (vm_compute; intros [=]).
  assert (H5 : readContents (currentContentProvider opened) storedFiles (durable opened)
               = Ok storedStreams) by (vm_compute; reflexivity).
  destruct (parseStateContent storedStreams) as [res|e] eqn:Hparse;
    [|vm_compute in Hparse; discriminate Hparse].
  destruct (loadStateData_staleness opened emptyCache storedFiles storedHash H1 H2 H3)
    as [_ Hstale].
  destruct (Hstale H4 storedStreams res H5 Hparse) as (Hload & _ & _ & Hcd & Hd & _).
  repeat split; try assumption.
  exists res. split; [reflexivity|]. rewrite Hload. reflexivity.
Defined.


(** Ten acquisitions of one location, as in the tests of the pool. *)
Lemma pool_shares_then_recreates_witness :
  let pool := LocationCachePool.createLocationCachePool in
  let acquired := LocationCachePool.getMany "SomeLocation" (replicate 10 5000) pool in
  let pool2 := LocationCachePool.releaseMany (tail acquired.1) acquired.2 in
  LocationCachePool.entries pool !! "SomeLocation" = None
  /\ LocationCachePool.createdCount "SomeLocation" (LocationCachePool.events pool2) = 1
  /\ LocationCachePool.reuseCount "SomeLocation" (LocationCachePool.events pool2) = 9.
Proof.
  intros pool acquired pool2.
  assert (Hfree : LocationCachePool.entries pool !! "SomeLocation" = None) by reflexivity.
  destruct (pool_shares_then_recreates pool "SomeLocation" 5000 (replicate 9 5000) 5000 Hfree)
    as (_ & _ & Hcreated & Hreuse & _).
  split; [exact Hfree|]. split; [exact Hcreated|exact Hreuse].
Defined.

(** A state file in the old format through [parseStateContent]. *)
Lemma parseStateContent_legacy_variants_witness :
  parser legacyText
  = Ok [JArr (map elementJson [accountType; leadType]);
        JObj [("salesforce", JStr "2020-02-06T15:22:51.000Z");
              ("netsuite", JStr "2020-02-07T09:01:13.000Z")];
        JArr (map pathEntryJson (map_to_list sampleIndex));
        JStr "0.1.2";
        JStr "trailer"]
  /\ parseStateContent [legacyStream]
     = Ok (ParsedState.mk [accountType; leadType]
             [JStr "salesforce"; JStr "netsuite"]
             (map pathEntryJson (map_to_list sampleIndex))).
Proof.
  assert (Hparser : parser legacyText
                    = Ok [JArr (map elementJson [accountType; leadType]);
                          JObj [("salesforce", JStr "2020-02-06T15:22:51.000Z");
                                ("netsuite", JStr "2020-02-07T09:01:13.000Z")];
                          JArr (map pathEntryJson (map_to_list sampleIndex));
                          JStr "0.1.2";
                          JStr "trailer"]) by (vm_compute; reflexivity).
  split; [exact Hparser|].
  destruct (parseStateContent_legacy_variants emptyParsedState
              [("salesforce", JStr "2020-02-06T15:22:51.000Z");
               ("netsuite", JStr "2020-02-07T09:01:13.000Z")] JNull 0 [])
    as (_ & _ & _ & _ & _ & Hlegacy & _).
  destruct (Hlegacy legacyStream legacyText _ _ _ [accountType; leadType]
              ltac:(vm_compute; reflexivity) Hparser ltac:(vm_compute; reflexivity))
    as [_ Hcontent].
  rewrite Hcontent. vm_compute. reflexivity.
Defined.

(** A flush of a state that was renamed and never read. *)
Lemma flush_spec_witness :
  dirty renamed = true
  /\ innerStateData renamed = None
  /\ fst (flush renamed) = Ok tt
  /\ dirty (snd (flush renamed)) = false
  /\ exists sd, innerStateData (snd (flush renamed)) = Some (withHash (combinedHash []) sd).
Proof.
  destruct (flush_spec renamed) as (_ & _ & _ & _ & _ & Hflush).
  assert (Hd : dirty renamed = true) by reflexivity.
  assert (Hloaded : memoImpliesLoaded renamed) by (intros contents Hc; discriminate Hc).
  assert (Hc : fst (getContentAndHash (afterMkdirp renamed (durable renamed))) = Ok [])
    by (vm_compute; reflexivity).
  destruct (getContentAndHash (afterMkdirp renamed (durable renamed))) as [r wb] eqn:Hget.
  cbn [fst] in Hc. subst r.
  destruct (Hflush Hd Hloaded (durable renamed) [] wb
              (snd (writeContents fileBackend "staging" [] (durable wb))) eq_refl Hget eq_refl)
    as (sd & Hin & _ & _ & _ & Heq).
  rewrite Heq. unfold afterWriteLoaded. cbn.
  split; [exact Hd|]. split; [reflexivity|]. split; [reflexivity|]. split; [reflexivity|].
  exists sd. reflexivity.
Defined.

(** A flush to a backend that refuses writes, of loaded data and of a
    state that was renamed and never read. *)
Lemma flush_failure_keeps_dirty_witness :
  (dirty editedReadOnly = true
   /\ fst (flush editedReadOnly) = Err "EROFS: read-only storage"
   /\ dirty (snd (flush editedReadOnly)) = true
   /\ exists evs,
        trace (snd (flush (snd (flush editedReadOnly))))
        = [EvMkdirp "ws/envs/prod";
           EvWriteContents readOnlyBackend filePrefix (contentsOf loadedData);
           EvMkdirp "ws/envs/prod";
           EvWriteContents readOnlyBackend filePrefix (contentsOf loadedData)] ++ evs)
  /\ (dirty renamedReadOnly = true
      /\ innerStateData renamedReadOnly = None
      /\ fst (flush renamedReadOnly) = Err "EROFS: read-only storage"
      /\ dirty (snd (flush renamedReadOnly)) = true
      /\ contentsAndHash (snd (flush renamedReadOnly)) = Some (Ok [])).
Proof.
  split.
  - assert (Hd : dirty editedReadOnly = true) by reflexivity.
    destruct (flush_failure_keeps_dirty editedReadOnly Hd) as (_ & _ & Hwrite & _).
    destruct (Hwrite loadedData (contentsOf loadedData) [] "EROFS: read-only storage" []
                eq_refl eq_refl eq_refl eq_refl) as (Hflush & Hretry).
    destruct (Hretry [] eq_refl) as (_ & evs & Hevs).
    rewrite Hflush. cbn [fst snd].
    split; [exact Hd|]. split; [reflexivity|]. split; [reflexivity|].
    exists evs. rewrite Hevs. reflexivity.
  - assert (Hd : dirty renamedReadOnly = true) by reflexivity.
    destruct (flush_failure_keeps_dirty renamedReadOnly Hd) as (_ & _ & _ & _ & _ & Hwrite & _).
    assert (Hc : fst (getContentAndHash (afterMkdirp renamedReadOnly (durable renamedReadOnly)))
                 = Ok []) by (vm_compute; reflexivity).
    destruct (getContentAndHash (afterMkdirp renamedReadOnly (durable renamedReadOnly)))
      as [r wb] eqn:Hget.
    cbn [fst] in Hc. subst r.
    destruct (Hwrite (durable renamedReadOnly) [] wb "EROFS: read-only storage" (durable wb)
                eq_refl Hget eq_refl) as (Hflush & Hdirty & Hmemo & _).
    rewrite Hflush. cbn [fst snd].
    split; [exact Hd|]. split; [reflexivity|]. split; [reflexivity|].
    split; [exact Hdirty|exact Hmemo].
Defined.

(** The sample elements and their path index through the codec. *)
Lemma serialize_parse_round_trip_witness :
  codecRoundTrips sampleElements (map_to_list sampleIndex)
  /\ map stream storedStreams = map content sampleContents
  /\ exists res,
       parseStateContent storedStreams = Ok res
       /\ ParsedState.elements res ≡ₚ sampleElements
       /\ ParsedState.accounts res = [JStr "salesforce"; JStr "zendesk"]
       /\ pathIndex_setAll (loadPathIndex (ParsedState.pathIndices res)) ∅ !! "salesforce.Account"
          = Some [["salesforce"; "Types"; "Account"]].
Proof.
  assert (Hcodec : codecRoundTrips sampleElements (map_to_list sampleIndex)).
  { intros a es Hin. vm_compute in Hin.
    apply elem_of_cons in Hin as [[= -> ->]|Hin];
      [|apply elem_of_cons in Hin as [[= -> ->]|Hin]; [|inversion Hin]].
    - exists (JArr (map elementJson [accountType; leadType])).
      split; vm_compute; reflexivity.
    - exists (JArr (map elementJson [ticketField])).
      split; vm_compute; reflexivity. }
  assert (Hstreams : map stream storedStreams = map content sampleContents)
    by (vm_compute; reflexivity).
  destruct (serialize_parse_round_trip sampleElements sampleIndex storedStreams Hcodec Hstreams)
    as (res & Hparse & Hels & Haccounts & _ & Hlook).
  split; [exact Hcodec|]. split; [exact Hstreams|].
  exists res. split; [exact Hparse|]. split; [exact Hels|].
  split; [rewrite Haccounts; vm_compute; reflexivity|].
  rewrite Hlook. vm_compute. reflexivity.
Defined.

(** *** Where the specification and the code part *)

(** C3: the hash of the sample's salesforce unit is not the digest of its
    state text. *)
Lemma hashesStateText_counterexample :
  ~ hashesStateText sampleElements [].
Proof.
  intros H.
  destruct (Object_entries (stateTextPerAccount sampleElements [])) as [|[a text] rest] eqn:E;
    [vm_compute in E; discriminate E|].
  specialize (H a text). rewrite E in H. specialize (H ltac:(left)).
  vm_compute in E. injection E as <- <- _.
  vm_compute in H. discriminate H.
Qed.

(** C4: a path index entry of an account that has no element does not come
    back. *)
Lemma roundTripExact_counterexample :
  ~ roundTripExact [accountType] orphanIndex.
Proof.
  intros H.
  destruct (H (map (fun c => mkNamedStream (account c) (content c))
                 (map contentAndHashOf
                    (Object_entries
                       (stateTextPerAccount [accountType] (map_to_list orphanIndex))))))
    as (res & Hparse & _ & Hlook).
  { rewrite map_map. reflexivity. }
  specialize (Hlook "netsuite.customer").
  vm_compute in Hparse. injection Hparse as <-.
  vm_compute in Hlook. discriminate Hlook.
Qed.

(** C10: on a state that has not been loaded, [updateConfig] loads and
    reparses it, sets [cacheDirty] and memoizes the contents. *)
Lemma changesOnlyProvider_counterexample :
  ~ changesOnlyProvider s3Config opened.
Proof.
  intros (_ & Hcd & _). vm_compute in Hcd. discriminate Hcd.
Qed.

End Witnesses.

(** * More of [parseStateContent] *)

Section ParseMore.
Context `{C : Collaborators}.

Lemma appendParsed_empty_l (r : ParsedState.t) : appendParsed emptyParsedState r = r.
Proof. destruct r; reflexivity. Qed.

Lemma appendParsed_empty_r (r : ParsedState.t) : appendParsed r emptyParsedState = r.
Proof. destruct r. unfold appendParsed. cbn. rewrite !app_nil_r. reflexivity. Qed.

Lemma appendParsed_assoc (a b c : ParsedState.t) :
  appendParsed a (appendParsed b c) = appendParsed (appendParsed a b) c.
Proof. unfold appendParsed. cbn. rewrite !app_assoc. reflexivity. Qed.

Lemma Array_concat_app (arr more : list json) (value : json) :
  Array_concat (arr ++ more) value = arr ++ Array_concat more value.
Proof. destruct value; cbn; rewrite <- ?app_assoc; reflexivity. Qed.

(** The handler only appends: what it does to [res] is what it does to an
    empty result, put behind [res]. *)
Lemma parseLine_append (base res : ParsedState.t) (key : nat) (value : json) :
  parseLine (appendParsed base res) key value
  = (let? r := parseLine res key value in Ok (appendParsed base r))%res.
Proof.
  unfold parseLine.
  destruct (Nat.eqb key 0).
  { destruct (deserializeParsed value) as [parsed|e]; cbn; [|reflexivity].
    unfold appendParsed. cbn. rewrite <- app_assoc. reflexivity. }
  destruct (Nat.eqb key 1).
  { destruct (isPlainObject value); cbn; unfold appendParsed; cbn;
      rewrite <- app_assoc; reflexivity. }
  destruct (Nat.eqb key 2).
  { cbn. unfold appendParsed. cbn. rewrite Array_concat_app. reflexivity. }
  destruct (Nat.eqb key 3); reflexivity.
Qed.

Lemma parseLines_append (values : list json) :
  forall (base res : ParsedState.t) (key : nat),
    parseLines (appendParsed base res) key values
    = (let? r := parseLines res key values in Ok (appendParsed base r))%res.
Proof.
  induction values as [|v vs IH]; intros base res key; [reflexivity|].
  cbn [parseLines]. rewrite parseLine_append.
  destruct (parseLine res key v) as [r|e]; cbn [rbind]; [apply IH|reflexivity].
Qed.

Lemma parseStream_append (base res : ParsedState.t) (s : NamedStream) :
  parseStream (appendParsed base res) s
  = (let? r := parseStream res s in Ok (appendParsed base r))%res.
Proof.
  unfold parseStream.
  destruct (createGunzip (stream s)) as [text|e]; cbn [rbind]; [|reflexivity].
  destruct (parser text) as [values|e]; cbn [rbind]; [|reflexivity].
  apply parseLines_append.
Qed.

Lemma parseStreams_append (streams : list NamedStream) :
  forall base res : ParsedState.t,
    parseStreams (appendParsed base res) streams
    = (let? r := parseStreams res streams in Ok (appendParsed base r))%res.
Proof.
  induction streams as [|s rest IH]; intros base res; [reflexivity|].
  cbn [parseStreams]. rewrite parseStream_append.
  destruct (parseStream res s) as [r|e]; cbn [rbind]; [apply IH|reflexivity].
Qed.

Lemma parseStreams_app (a b : list NamedStream) (res : ParsedState.t) :
  parseStreams res (a ++ b)
  = (let? r := parseStreams res a in parseStreams r b)%res.
Proof.
  revert res. induction a as [|s a IH]; intros res; [reflexivity|].
  cbn [app parseStreams].
  destruct (parseStream res s) as [r|e]; cbn [rbind]; [apply IH|reflexivity].
Qed.

(** X1. The content streams are parsed independently and their results are put
    together in the order of the streams: parsing two lists of streams one
    after the other is parsing each of them and appending the elements, the
    account names and the path index entries; if either fails, so does the
    whole, with the error of the first failure. *)
Theorem parseStateContent_app :
  forall a b : list NamedStream,
    parseStateContent (a ++ b)
    = (let? ra := parseStateContent a in
       let? rb := parseStateContent b in
       Ok (appendParsed ra rb))%res.
Proof.
  intros a b. unfold parseStateContent.
  rewrite parseStreams_app.
  destruct (parseStreams emptyParsedState a) as [ra|e]; cbn [rbind]; [|reflexivity].
  rewrite <- (appendParsed_empty_r ra) at 1.
  apply parseStreams_append.
Qed.

Lemma parseStream_Err (res : ParsedState.t) (s : NamedStream) (e : error) :
  parseStream res s = Err e <-> streamFailsWith s e.
Proof.
  unfold parseStream, streamFailsWith.
  destruct (createGunzip (stream s)) as [text|e1] eqn:Hz; cbn [rbind].
  - destruct (parser text) as [values|e2] eqn:Hp; cbn [rbind].
    + destruct values as [|first rest]; cbn [parseLines].
      * split; [discriminate|].
        intros [H|[(t & [= <-] & H)|(t & f & r & [= <-] & H & _)]];
          try discriminate H; rewrite Hp in H; discriminate H.
      * unfold parseLine at 1. cbn [Nat.eqb].
        destruct (deserializeParsed first) as [parsed|e3] eqn:Hd; cbn [rbind].
        -- split.
           ++ intros H. exfalso.
              pose proof (parseLines_after_0_ok rest
                (ParsedState.mk (ParsedState.elements res ++ parsed)
                   (ParsedState.accounts res) (ParsedState.pathIndices res)) 0) as Hok.
              rewrite H in Hok. discriminate Hok.
           ++ intros [H|[(t & [= <-] & H)|(t & f & r & [= <-] & H & H')]];
                try discriminate H; rewrite Hp in H; try discriminate H.
              injection H as <- <-. rewrite Hd in H'. discriminate H'.
        -- split.
           ++ intros [= <-]. right. right. exists text, first, rest. auto.
           ++ intros [H|[(t & [= <-] & H)|(t & f & r & [= <-] & H & H')]];
                try discriminate H; rewrite Hp in H; try discriminate H.
              injection H as <- <-. rewrite Hd in H'. injection H' as <-. reflexivity.
    + split.
      * intros [= <-]. right. left. exists text. auto.
      * intros [H|[(t & [= <-] & H)|(t & f & r & [= <-] & H & _)]];
          try discriminate H; rewrite Hp in H; [injection H as <-; reflexivity|discriminate H].
  - split.
    + intros [= <-]. left. reflexivity.
    + intros [H|[(t & H & _)|(t & f & r & H & _)]];
        [injection H as <-; reflexivity|discriminate H|discriminate H].
Qed.

(** X2. [parseStateContent] fails exactly when one of the streams cannot be
    decompressed, cannot be parsed as JSON lines, or has a first line that
    [deserializeParsed] rejects, all streams before it being readable; the
    error is that of the first such stream, and the streams after it are
    not looked at. *)
Theorem parseStateContent_failure :
  forall (streams : list NamedStream) (e : error),
    parseStateContent streams = Err e
    <-> exists before s after,
          streams = before ++ s :: after
          /\ isOk (parseStateContent before) = true
          /\ streamFailsWith s e.
Proof.
  intros streams e. unfold parseStateContent. split.
  - generalize emptyParsedState as res.
    induction streams as [|s rest IH]; intros res H; [discriminate H|].
    cbn [parseStreams] in H.
    destruct (parseStream res s) as [r|e1] eqn:Hs; cbn [rbind] in H.
    + destruct (IH r H) as (before & s' & after & -> & Hok & Hfail).
      exists (s :: before), s', after.
      split; [reflexivity|]. split; [|exact Hfail].
      cbn [parseStreams]. rewrite Hs. exact Hok.
    + injection H as <-.
      exists [], s, rest. split; [reflexivity|]. split; [reflexivity|].
      apply (parseStream_Err res). exact Hs.
  - intros (before & s & after & -> & Hok & Hfail).
    rewrite parseStreams_app.
    destruct (parseStreams emptyParsedState before) as [r|]; [|discriminate Hok].
    cbn [rbind parseStreams].
    apply (parseStream_Err r) in Hfail. rewrite Hfail. reflexivity.
Qed.

End ParseMore.

(** * The choice of the provider and the opening of a state *)

Section ProviderProofs.
Context `{C : Collaborators}.
Local Open Scope world_scope.

(** X3. [getStateContentProvider] fails only on a configuration that is given
    and names the provider s3 without a bucket, or a provider other than
    file and s3, with the messages of the source. Without a configuration
    the provider is the file provider on the local storage path of the
    workspace; the file provider is chosen whatever the s3 options are. *)
Theorem getStateContentProvider_failure :
  forall (workspaceId : string) (stateConfig : option StateConfig) (e : error),
    (getStateContentProvider workspaceId stateConfig = Err e
     <-> exists config, stateConfig = Some config /\ rejectedConfig config e)
    /\ getStateContentProvider workspaceId None
       = Ok (createFileStateContentProvider (getLocalStoragePath workspaceId))
    /\ (forall config,
          provider config = "file" ->
          getStateContentProvider workspaceId (Some config)
          = Ok (createFileStateContentProvider
                  (default (getLocalStoragePath workspaceId)
                     (options_file_localStorageDir config)))).
Proof.
  intros workspaceId stateConfig e.
  split; [|split].
  - destruct stateConfig as [config|].
    + unfold getStateContentProvider, rejectedConfig, configuredBucket.
      change (default defaultStateConfig (Some config)) with config. cbv zeta.
      destruct (String.eqb_spec (provider config) "file") as [Hf|Hf].
      { split; [discriminate|].
        intros (c & [= <-] & [(Hs & _)|(Hnf & _)]); [|contradiction].
        rewrite Hs in Hf. discriminate Hf. }
      destruct (String.eqb_spec (provider config) "s3") as [Hs|Hs].
      * destruct (options_s3 config) as [options|] eqn:Ho.
        -- destruct (bucket options) as [b|] eqn:Hb.
           ++ split; [discriminate|].
              intros (c & [= <-] & [(_ & Hnone & _)|(_ & Hns & _)]); [|contradiction].
              rewrite Ho, Hb in Hnone. discriminate Hnone.
           ++ split.
              ** intros [= <-]. exists config. split; [reflexivity|].
                 left. rewrite Ho. auto.
              ** intros (c & [= <-] & [(_ & _ & ->)|(_ & Hns & _)]);
                   [reflexivity|contradiction].
        -- split.
           ++ intros [= <-]. exists config. split; [reflexivity|].
              left. rewrite Ho. auto.
           ++ intros (c & [= <-] & [(_ & _ & ->)|(_ & Hns & _)]);
                [reflexivity|contradiction].
      * split.
        -- intros [= <-]. exists config. split; [reflexivity|]. right. auto.
        -- intros (c & [= <-] & [(Hs' & _)|(_ & _ & ->)]); [contradiction|reflexivity].
    + split; [discriminate|]. intros (c & [=] & _).
  - reflexivity.
  - intros config Hf. unfold getStateContentProvider.
    change (default defaultStateConfig (Some config)) with config. cbv zeta.
    rewrite Hf. reflexivity.
Qed.

(** X4. [loadState] fails exactly when the configuration is rejected, with the
    error of [getStateContentProvider]. Otherwise the state it returns is
    clean and lazy: nothing has been read, built or written, and a [flush]
    or a [calculateHash] issued before any other operation does nothing at
    all, not even load the cache. *)
Theorem loadState_opens_lazily :
  forall (args : LoadStateArgs.t) (d : Durable) (c : CacheStore),
    match loadState args d c with
    | Ok w =>
        getStateContentProvider (LoadStateArgs.workspaceId args) (LoadStateArgs.stateConfig args)
        = Ok (currentContentProvider w)
        /\ currentFilePrefix w = LoadStateArgs.baseDir args
        /\ durable w = d /\ cacheStore w = c
        /\ innerStateData w = None /\ trace w = []
        /\ flush w = (Ok tt, w)
        /\ calculateHash w = (Ok tt, w)
    | Err e =>
        getStateContentProvider (LoadStateArgs.workspaceId args) (LoadStateArgs.stateConfig args)
        = Err e
    end.
Proof.
  intros args d c. unfold loadState.
  destruct (getStateContentProvider _ _) as [p|e]; cbn [rbind]; [|reflexivity].
  repeat (split; [reflexivity|]). reflexivity.
Qed.

End ProviderProofs.

(** * Mutations and the dirty flag *)

Section MutationProofs.
Context `{C : Collaborators}.
Local Open Scope world_scope.

Lemma loadFrame_inner_update (f : StateData.t -> StateData.t) :
  preserves loadFrame
    (let* sd := stateData in modify (with_innerStateData (Some (f sd)))).
Proof.
  apply preserves_bind; [apply _|apply stateData_frame|intros sd].
  apply preserves_modify. intros w. apply loadFrame_with_innerStateData.
Qed.

Lemma inMemState_updateStateFromChanges_frame (changes : Changes) :
  preserves loadFrame (inMemState_updateStateFromChanges changes).
Proof.
  unfold inMemState_updateStateFromChanges.
  apply preserves_bind; [apply _|apply stateData_frame|intros sd].
  apply preserves_bind; [apply _|apply preserves_liftResult, _|intros sd'].
  apply preserves_modify. intros w. apply loadFrame_with_innerStateData.
Qed.

(** An operation of the in-memory state followed by [setDirty]. *)
Lemma then_setDirty (m : M unit) (w : World) :
  loadFrame w (snd (m w)) ->
  let w' := snd ((m ;; setDirty) w) in
  durable w' = durable w
  /\ cacheStore w' = cacheStore w
  /\ currentFilePrefix w' = currentFilePrefix w
  /\ currentContentProvider w' = currentContentProvider w
  /\ tracedBy isReadEvent w w'
  /\ (fst ((m ;; setDirty) w) = Ok tt -> dirty w' = true /\ contentsAndHash w' = None)
  /\ (forall e, fst ((m ;; setDirty) w) = Err e ->
        fst (m w) = Err e
        /\ dirty w' = dirty w /\ contentsAndHash w' = contentsAndHash w).
Proof.
  intros [Hd Hc Hdy Hmemo Hprefix Hp _ Htr]. unfold bind, setDirty, modify.
  destruct (m w) as [[[]|e] w1]; cbn in *.
  - repeat (split; [assumption|]).
    split; [auto|]. intros e [=].
  - repeat (split; [assumption|]).
    split; [intros [=]|]. intros e' [= <-]. auto.
Qed.

Lemma mutate_inner (m : Mutation) :
  exists inner : M unit,
    mutate m = (inner ;; setDirty) /\ preserves loadFrame inner.
Proof.
  destruct m as [element|id|changes].
  - exists (inMemState_set element). split; [reflexivity|apply loadFrame_inner_update].
  - exists (inMemState_remove id). split; [reflexivity|apply loadFrame_inner_update].
  - exists (inMemState_updateStateFromChanges changes).
    split; [reflexivity|apply inMemState_updateStateFromChanges_frame].
Qed.

(** X5. [set], [remove] and [updateStateFromChanges] mark the state dirty and
    drop the memoized contents exactly when they succeed; when they fail
    both are left as they were. In either case the durable storage, the
    cache store, the prefix and the provider are unchanged and only reads
    are made. *)
Theorem mutation_marks_dirty :
  forall (m : Mutation) (w : World),
    let w' := snd (mutate m w) in
    durable w' = durable w
    /\ cacheStore w' = cacheStore w
    /\ currentFilePrefix w' = currentFilePrefix w
    /\ currentContentProvider w' = currentContentProvider w
    /\ tracedBy isReadEvent w w'
    /\ (fst (mutate m w) = Ok tt -> dirty w' = true /\ contentsAndHash w' = None)
    /\ (forall e, fst (mutate m w) = Err e ->
          dirty w' = dirty w /\ contentsAndHash w' = contentsAndHash w).
Proof.
  intros m w.
  destruct (mutate_inner m) as (inner & -> & Hframe).
  destruct (then_setDirty inner w (Hframe w)) as (H1 & H2 & H3 & H4 & H5 & H6 & H7).
  repeat (split; [assumption|]).
  intros e He. destruct (H7 e He) as (_ & Hd & Hm). auto.
Qed.

End MutationProofs.

(** * [rename] and [clear] *)

Section RenameProofs.
Context `{C : Collaborators}.
Local Open Scope world_scope.

Lemma state_rename_eval (newPrefix : string) (w : World) :
  state_rename newPrefix w
  = let static := static_rename (currentStaticFilesSource w) newPrefix (durable w) in
    let moved :=
      rename (currentContentProvider w) (currentFilePrefix w) newPrefix (snd static) in
    let attempted :=
      with_durable (snd moved)
        (logEvent (EvRename (currentContentProvider w) (currentFilePrefix w) newPrefix)
           (with_durable (snd static) (logEvent (EvStaticRename newPrefix) w))) in
    match fst static, fst moved with
    | Ok _, Ok _ => (Ok tt, renamedWorld w newPrefix (snd moved))
    | Err e, _ => (Err e, attempted)
    | Ok _, Err e => (Err e, attempted)
    end.
Proof.
  unfold state_rename, setDirty, bind, gets, promiseAll2, callWrite, modify.
  destruct (static_rename _ newPrefix (durable w)) as [rs d1]. cbn [fst snd].
  cbn [durable with_durable logEvent currentContentProvider currentFilePrefix].
  destruct (rename _ _ newPrefix d1) as [rp d2]. cbn [fst snd].
  destruct rs as [[]|e]; [|reflexivity].
  destruct rp as [[]|e]; [|reflexivity].
  unfold renamedWorld. f_equal. world_eq.
Qed.

(** X6. [rename] always issues both renames, that of the static files source
    first and that of the content provider from the current prefix second,
    whatever the outcome of the first. It succeeds exactly when both do;
    then the prefix becomes the new one, the state is dirty and the memoized
    contents are dropped. When either fails, the prefix, [dirty] and the
    memoized contents stay as they were, although the storage has been
    through both calls. *)
Theorem rename_spec :
  forall (newPrefix : string) (w : World),
    let static := static_rename (currentStaticFilesSource w) newPrefix (durable w) in
    let moved :=
      rename (currentContentProvider w) (currentFilePrefix w) newPrefix (snd static) in
    let w' := snd (state_rename newPrefix w) in
    trace w'
    = trace w ++ [EvStaticRename newPrefix;
                  EvRename (currentContentProvider w) (currentFilePrefix w) newPrefix]
    /\ durable w' = snd moved
    /\ (fst (state_rename newPrefix w) = Ok tt <-> fst static = Ok tt /\ fst moved = Ok tt)
    /\ (fst (state_rename newPrefix w) = Ok tt ->
        state_rename newPrefix w = (Ok tt, renamedWorld w newPrefix (snd moved)))
    /\ (forall e,
          fst (state_rename newPrefix w) = Err e ->
          (fst static = Err e \/ fst moved = Err e)
          /\ currentFilePrefix w' = currentFilePrefix w
          /\ dirty w' = dirty w
          /\ contentsAndHash w' = contentsAndHash w).
Proof.
  intros newPrefix w. cbv zeta. rewrite state_rename_eval. cbv zeta.
  destruct (static_rename _ newPrefix (durable w)) as [rs d1]. cbn [fst snd].
  destruct (rename _ _ newPrefix d1) as [rp d2]. cbn [fst snd].
  destruct rs as [[]|es]; [destruct rp as [[]|em]|]; cbn [fst snd].
  - split; [reflexivity|].
    split; [reflexivity|]. split; [tauto|]. split; [reflexivity|]. intros e [=].
  - split; [cbn; rewrite <- app_assoc; reflexivity|].
    split; [reflexivity|].
    split; [split; [intros [=]|intros [_ [=]]]|].
    split; [intros [=]|]. intros e [= <-]. auto.
  - split; [cbn; rewrite <- app_assoc; reflexivity|].
    split; [reflexivity|].
    split; [split; [intros [=]|intros [[=] _]]|].
    split; [intros [=]|]. intros e [= <-]. auto.
Qed.

Lemma inMemState_clear_frame : preserves loadFrame inMemState_clear.
Proof.
  unfold inMemState_clear.
  apply preserves_bind; [apply _|apply stateData_frame|intros sd].
  apply preserves_modify. intros w. apply loadFrame_with_innerStateData.
Qed.

Lemma inMemState_clear_success (w : World) :
  fst (inMemState_clear w) = Ok tt ->
  innerStateData (snd (inMemState_clear w)) = Some (StateData.mk ∅ ∅ ∅ ∅).
Proof.
  unfold inMemState_clear, bind, modify.
  destruct (stateData w) as [[sd|e] w1]; cbn [fst snd]; [reflexivity|discriminate].
Qed.

(** X7. [clear] issues the provider's [clear] of the current prefix and
    the clear of the in-memory state, both of them whatever the outcome of
    the other. It succeeds exactly when both succeed, and when it fails its
    error is that of one of the two. Only when it succeeds is the state
    marked dirty and the memoized contents dropped; when it fails, [dirty]
    and the memoized contents are as before. In either case the storage is
    the one the provider's [clear] left, only reads follow the provider's
    call, and the in-memory state is emptied whenever its own clear
    succeeded, even if the provider's failed. *)
Theorem clear_spec :
  forall w : World,
    let p := currentContentProvider w in
    let prefix := currentFilePrefix w in
    let cleared := clear p prefix (durable w) in
    let inner := inMemState_clear (afterProviderClear w) in
    let w' := snd (state_clear w) in
    (fst (state_clear w) = Ok tt <-> fst cleared = Ok tt /\ fst inner = Ok tt)
    /\ (forall e, fst (state_clear w) = Err e -> fst cleared = Err e \/ fst inner = Err e)
    /\ durable w' = snd cleared
    /\ (exists reads,
          trace w' = trace w ++ EvClear p prefix :: reads /\ Forall isReadEvent reads)
    /\ innerStateData w' = innerStateData (snd inner)
    /\ (fst inner = Ok tt -> innerStateData w' = Some (StateData.mk ∅ ∅ ∅ ∅))
    /\ (fst (state_clear w) = Ok tt -> dirty w' = true /\ contentsAndHash w' = None)
    /\ (forall e, fst (state_clear w) = Err e ->
          dirty w' = dirty w /\ contentsAndHash w' = contentsAndHash w).
Proof.
  intros w p prefix cleared inner w'.
  pose proof (inMemState_clear_frame (afterProviderClear w))
    as [Hdur _ Hdirty Hmemo _ _ _ (reads & Hreads & Hreadsok)].
  pose proof (inMemState_clear_success (afterProviderClear w)) as Hempty.
  fold inner in Hdur, Hdirty, Hmemo, Hreads, Hempty.
  assert (Hrun : state_clear w
                 = match fst cleared, fst inner with
                   | Ok _, Ok _ =>
                       (Ok tt, with_contentsAndHash None (with_dirty true (snd inner)))
                   | Ok _, Err e => (Err e, snd inner)
                   | Err e, _ => (Err e, snd inner)
                   end).
  { unfold inner, cleared, afterProviderClear, p, prefix.
    unfold state_clear, setDirty, bind, gets, promiseAll2, callWrite, modify.
    destruct (clear _ _ (durable w)) as [rc d]. cbn [fst snd].
    destruct (inMemState_clear (with_durable d _)) as [ri w2]. cbn [fst snd].
    destruct rc as [[]|e]; [destruct ri as [[]|e]|]; reflexivity. }
  unfold w'. rewrite Hrun. clear Hrun.
  change (durable (afterProviderClear w)) with (snd cleared) in Hdur.
  change (dirty (afterProviderClear w)) with (dirty w) in Hdirty.
  change (contentsAndHash (afterProviderClear w)) with (contentsAndHash w) in Hmemo.
  change (trace (afterProviderClear w)) with (trace w ++ [EvClear p prefix]) in Hreads.
  rewrite <- app_assoc in Hreads. cbn [app] in Hreads.
  destruct (fst cleared) as [[]|ec]; [destruct (fst inner) as [[]|ei]|]; cbn [fst snd].
  - split; [tauto|]. split; [intros e [=]|]. split; [exact Hdur|].
    split; [exists reads; split; [exact Hreads|exact Hreadsok]|].
    split; [reflexivity|]. split; [exact Hempty|]. split; [tauto|]. intros e [=].
  - split; [split; [intros [=]|intros [_ [=]]]|].
    split; [intros e [= <-]; right; reflexivity|]. split; [exact Hdur|].
    split; [exists reads; split; [exact Hreads|exact Hreadsok]|].
    split; [reflexivity|]. split; [exact Hempty|]. split; [intros [=]|].
    intros e _. split; [exact Hdirty|exact Hmemo].
  - split; [split; [intros [=]|intros [[=] _]]|].
    split; [intros e [= <-]; left; reflexivity|]. split; [exact Hdur|].
    split; [exists reads; split; [exact Hreads|exact Hreadsok]|].
    split; [reflexivity|]. split; [exact Hempty|]. split; [intros [=]|].
    intros e _. split; [exact Hdirty|exact Hmemo].
Qed.

End RenameProofs.

(** * [flush], [calculateHash] and the memoized contents together *)

Section FlushMore.
Context `{C : Collaborators}.
Local Open Scope world_scope.

Lemma ensures_bind {A B} (Q : World -> Prop) (m : M A) (k : A -> M B) :
  (forall a, ensures Q (k a)) -> ensures Q (bind m k).
Proof.
  intros Hk w b. unfold bind.
  destruct (m w) as [[a|e] w1]; [apply Hk|discriminate].
Qed.

Lemma ensures_modify (Q : World -> Prop) (f : World -> World) :
  (forall w, Q (f w)) -> ensures Q (modify f).
Proof. intros H w a _. apply H. Qed.

Lemma flush_success_clean (w : World) :
  fst (flush w) = Ok tt -> dirty (snd (flush w)) = false.
Proof.
  destruct (dirty w) eqn:Hd; [|intros _; apply (flush_clean_frame w Hd)].
  assert (Hrun : exists m : M unit,
             flush w = m w /\ ensures (fun w' => dirty w' = false) m).
  { eexists. split.
    - unfold flush. unfold bind at 1. unfold gets at 1. rewrite Hd. cbn [negb].
      reflexivity.
    - do 8 (apply ensures_bind; intros ?).
      apply ensures_modify. reflexivity. }
  destruct Hrun as (m & -> & He). apply (He w tt).
Qed.

Lemma flush_clean_success (w : World) :
  dirty w = false -> fst (flush w) = Ok tt -> cacheDirty (snd (flush w)) = false.
Proof.
  intros Hd. unfold flush, bind, gets, modify, ret. rewrite Hd. cbn [negb].
  destruct (cacheDirty w) eqn:Hcd; [|intros _; exact Hcd].
  destruct (inMemState_flush w) as [[[]|e] w1]; [reflexivity|discriminate].
Qed.

Lemma flush_nothing_to_do (w : World) :
  dirty w = false -> cacheDirty w = false -> flush w = (Ok tt, w).
Proof.
  intros Hd Hcd. unfold flush, bind, gets, ret. rewrite Hd. cbn [negb].
  rewrite Hcd. reflexivity.
Qed.

(** X8. After a [flush] that succeeded, the state is not dirty; a second
    [flush] writes no durable content (at most it persists the cache once
    more, when [cacheDirty] was set, which the first [flush] of dirty state
    does not clear); and once that second [flush] has succeeded, every
    further [flush] does nothing. *)
Theorem flush_settles :
  forall w : World,
    fst (flush w) = Ok tt ->
    let w1 := snd (flush w) in
    let w2 := snd (flush w1) in
    dirty w1 = false
    /\ durable w2 = durable w1
    /\ tracedBy isNotDurableWrite w1 w2
    /\ (cacheDirty w1 = false -> flush w1 = (Ok tt, w1))
    /\ (fst (flush w1) = Ok tt -> flush w2 = (Ok tt, w2)).
Proof.
  intros w Hok w1 w2.
  assert (Hd1 : dirty w1 = false) by apply (flush_success_clean w Hok).
  destruct (flush_clean_frame w1 Hd1) as (Hdur & Hd2 & Htr).
  split; [exact Hd1|]. split; [exact Hdur|]. split; [exact Htr|].
  split; [intros Hcd; apply (flush_nothing_to_do w1 Hd1 Hcd)|].
  intros Hok2. apply flush_nothing_to_do; [exact Hd2|].
  apply (flush_clean_success w1 Hd1 Hok2).
Qed.

Lemma calculateHash_dirty_success (w : World) :
  dirty w = true ->
  fst (calculateHash w) = Ok tt ->
  exists contents sd,
    contentsAndHash (snd (calculateHash w)) = Some (Ok contents)
    /\ innerStateData (snd (calculateHash w)) = Some (withHash (combinedHash contents) sd)
    /\ dirty (snd (calculateHash w)) = true.
Proof.
  intros Hd. unfold calculateHash, calculateHashImpl, bind, gets.
  rewrite Hd. cbn [negb].
  pose proof (getContentAndHash_memoizes w) as Hmemo.
  pose proof (getContentAndHash_readFrame w) as [_ _ [Hd1 _ _ _ _]].
  destruct (getContentAndHash w) as [[contents|e] wa]; cbn in *; [|discriminate].
  unfold inMemState_setHash, bind, modify.
  pose proof (stateData_frame wa) as Hfr.
  destruct (stateData wa) as [[sd|e] wb]; cbn in *; [|discriminate].
  intros _. exists contents, sd. destruct Hfr. cbn.
  split; [congruence|]. split; [reflexivity|congruence].
Qed.

(** X9. [calculateHash] and the [flush] that follows it agree: after a
    [calculateHash] of dirty state has succeeded, the contents it hashed are
    memoized and the cache records their combined digest; the [flush] then
    reads nothing and recomputes nothing, writes exactly those contents
    through the provider, and persists the cache data as [calculateHash]
    left them, so that the recorded hash is the hash of what was written. *)
Theorem calculateHash_then_flush :
  forall w : World,
    dirty w = true ->
    fst (calculateHash w) = Ok tt ->
    let w1 := snd (calculateHash w) in
    exists contents sd,
      contentsAndHash w1 = Some (Ok contents)
      /\ innerStateData w1 = Some sd
      /\ StateData.saltoMetadata sd !! "hash" = Some (combinedHash contents)
      /\ forall d1 d2 c,
           mkdirp (path_dirname (currentFilePrefix w1)) (durable w1) = (Ok tt, d1) ->
           writeContents (currentContentProvider w1) (currentFilePrefix w1) contents d1
             = (Ok tt, d2) ->
           flushStateData sd (cacheStore w1) = (Ok tt, c) ->
           flush w1 = (Ok tt, flushedAsHashed w1 sd contents d2 c).
Proof.
  intros w Hd Hok w1.
  destruct (calculateHash_dirty_success w Hd Hok) as (contents & sd0 & Hmemo & Hin & Hd1).
  fold w1 in Hmemo, Hin, Hd1.
  exists contents, (withHash (combinedHash contents) sd0).
  split; [exact Hmemo|]. split; [exact Hin|].
  split; [unfold withHash; cbn; apply lookup_insert_eq|].
  intros d1 d2 c Hmk Hwrite Hflush.
  assert (Hcur : currentContents w1 (withHash (combinedHash contents) sd0) = Ok contents).
  { unfold currentContents. rewrite Hmemo. reflexivity. }
  rewrite (flush_dirty_until_write w1 _ contents d1 Hd1 Hin Hcur Hmk), Hwrite.
  unfold afterWrite. unfold bind at 1.
  match goal with |- context [inMemState_setHash ?h ?w0] =>
    rewrite (inMemState_setHash_loaded w0 (withHash (combinedHash contents) sd0) h eq_refl) end.
  rewrite withHash_idem.
  unfold bind at 1.
  match goal with |- context [inMemState_flush ?w0] =>
    rewrite (inMemState_flush_loaded w0 (withHash (combinedHash contents) sd0) eq_refl) end.
  cbn [cacheStore with_innerStateData]. rewrite Hflush. cbn [fst snd].
  unfold modify, flushedAsHashed. f_equal. world_eq.
Qed.

(** X10. A failure to obtain the contents is memoized like the contents
    themselves: once [getContentAndHash] has failed, every later
    [getContentAndHash] and [calculateHash] of the dirty state fails with
    the same error without reading anything, and [flush] fails with it
    right after creating the directory, whatever the storage has become in
    the meantime. Only [setDirty], that is a mutation, ends this. *)
Theorem failed_contents_stay_memoized :
  forall (w : World) (e : error),
    contentsAndHash w = None ->
    fst (getContentAndHash w) = Err e ->
    contentsAndHash (snd (getContentAndHash w)) = Some (Err e)
    /\ forall w2 : World,
         contentsAndHash w2 = Some (Err e) ->
         getContentAndHash w2 = (Err e, w2)
         /\ (dirty w2 = true -> calculateHash w2 = (Err e, w2))
         /\ (dirty w2 = true ->
             forall d1,
               mkdirp (path_dirname (currentFilePrefix w2)) (durable w2) = (Ok tt, d1) ->
               flush w2
               = (Err e,
                  with_durable d1
                    (logEvent (EvMkdirp (path_dirname (currentFilePrefix w2))) w2)))
         /\ contentsAndHash (snd (setDirty w2)) = None.
Proof.
  intros w e Hnone Hfail.
  split.
  { rewrite getContentAndHash_memoizes, Hfail. reflexivity. }
  intros w2 Hmemo.
  assert (Hget : getContentAndHash w2 = (Err e, w2))
    by apply (getContentAndHash_memoized w2 _ Hmemo).
  split; [exact Hget|]. split; [|split; [|reflexivity]].
  - intros Hd. unfold calculateHash, calculateHashImpl, bind, gets.
    rewrite Hd. cbn [negb]. rewrite Hget. reflexivity.
  - intros Hd d1 Hmk.
    unfold flush. unfold bind at 1. unfold gets at 1. rewrite Hd. cbn [negb].
    unfold bind at 1. unfold gets at 1.
    unfold bind at 1. unfold callWrite at 1. rewrite Hmk.
    unfold bind at 1.
    match goal with |- context [getContentAndHash ?w0] =>
      rewrite (getContentAndHash_memoized w0 (Err e) Hmemo) end.
    reflexivity.
Qed.

Lemma flushes_of_read (p : StateContentProvider Durable) (prefix : string) (ev : Event) :
  isReadEvent ev -> flushes p prefix ev.
Proof. destruct ev; cbn; tauto. Qed.

#[global] Instance atTarget_Frame p prefix P : Frame (atTarget p prefix P).
Proof.
  split.
  - intros w _ _. split; [reflexivity|reflexivity|reflexivity|apply tracedBy_refl].
  - intros w1 w2 w3 H12 H23 Hp Hprefix.
    destruct (H12 Hp Hprefix) as [Hprefix2 Hp2 Ha2 Ht2].
    destruct (H23 ltac:(congruence) ltac:(congruence)) as [Hprefix3 Hp3 Ha3 Ht3].
    split; [congruence|congruence|congruence|eapply tracedBy_trans; eassumption].
Qed.

Lemma atTarget_of_ioFrame {A} p prefix P (m : M A) :
  preserves (ioFrame P) m -> preserves (atTarget p prefix P) m.
Proof. intros H w _ _. destruct (H w) as [_ Hprefix Hp Ha Ht]. split; assumption. Qed.

Lemma atTarget_gets_prefix {A} p prefix P (k : string -> M A) :
  preserves (atTarget p prefix P) (k prefix) ->
  preserves (atTarget p prefix P) (bind (gets currentFilePrefix) k).
Proof.
  intros H w Hp Hprefix. unfold bind, gets. rewrite Hprefix. apply H; assumption.
Qed.

Lemma atTarget_gets_provider {A} p prefix P (k : StateContentProvider Durable -> M A) :
  preserves (atTarget p prefix P) (k p) ->
  preserves (atTarget p prefix P) (bind (gets currentContentProvider) k).
Proof.
  intros H w Hp Hprefix. unfold bind, gets. rewrite Hp. apply H; assumption.
Qed.

Lemma flush_atTarget p prefix : preserves (atTarget p prefix (flushes p prefix)) flush.
Proof.
  pose proof (flushes_of_read p prefix) as Hread.
  unfold flush.
  apply preserves_bind; [apply _|apply preserves_gets, _|intros isDirty].
  destruct (negb isDirty).
  - apply preserves_bind; [apply _|apply preserves_gets, _|intros isCacheDirty].
    destruct isCacheDirty; [|apply preserves_ret, _].
    apply preserves_bind; [apply _| |intros _].
    { apply atTarget_of_ioFrame, inMemState_flush_ioFrame; [exact Hread|exact I]. }
    apply preserves_modify. intros w _ _.
    split; try reflexivity. apply tracedBy_same. reflexivity.
  - apply atTarget_gets_prefix.
    apply preserves_bind; [apply _| |intros _].
    { apply atTarget_of_ioFrame, ioFrame_callWrite. reflexivity. }
    apply preserves_bind; [apply _| |intros contents].
    { apply atTarget_of_ioFrame, readFrame_ioFrame;
        [exact Hread|apply getContentAndHash_readFrame]. }
    apply atTarget_gets_provider. apply atTarget_gets_prefix.
    apply preserves_bind; [apply _| |intros _].
    { apply atTarget_of_ioFrame, ioFrame_callWrite. split; reflexivity. }
    apply preserves_bind; [apply _| |intros _].
    { apply atTarget_of_ioFrame, readFrame_ioFrame;
        [exact Hread|apply inMemState_setHash_readFrame]. }
    apply preserves_bind; [apply _| |intros _].
    { apply atTarget_of_ioFrame, inMemState_flush_ioFrame; [exact Hread|exact I]. }
    apply preserves_modify. intros w _ _.
    split; try reflexivity. apply tracedBy_same. reflexivity.
Qed.

(** X11. What [flush] never does: it renames nothing and clears nothing; the
    only directory it creates is that of the current prefix; and it writes
    contents only through the current provider and under the current
    prefix. In particular the [flush] that follows a successful [rename]
    writes under the new prefix only. *)
Theorem flush_writes_current_prefix_only :
  forall w : World,
    tracedBy (flushes (currentContentProvider w) (currentFilePrefix w)) w (snd (flush w))
    /\ currentFilePrefix (snd (flush w)) = currentFilePrefix w
    /\ currentContentProvider (snd (flush w)) = currentContentProvider w
    /\ forall newPrefix,
         fst (state_rename newPrefix w) = Ok tt ->
         let renamed := snd (state_rename newPrefix w) in
         tracedBy (flushes (currentContentProvider w) newPrefix) renamed (snd (flush renamed)).
Proof.
  intros w.
  destruct (flush_atTarget (currentContentProvider w) (currentFilePrefix w) w eq_refl eq_refl)
    as [Hprefix Hp _ Htr].
  split; [exact Htr|]. split; [exact Hprefix|]. split; [exact Hp|].
  intros newPrefix Hok renamed.
  assert (Hw : currentContentProvider renamed = currentContentProvider w
               /\ currentFilePrefix renamed = newPrefix).
  { unfold renamed. rewrite state_rename_eval in *. cbv zeta in *.
    destruct (static_rename _ newPrefix (durable w)) as [rs d1]. cbn [fst snd] in *.
    destruct (rename _ _ newPrefix d1) as [rp d2]. cbn [fst snd] in *.
    destruct rs as [[]|es]; [destruct rp as [[]|em]|]; try discriminate Hok.
    split; reflexivity. }
  destruct Hw as [Hp' Hprefix'].
  apply (flush_atTarget (currentContentProvider w) newPrefix renamed Hp' Hprefix').
Qed.

End FlushMore.

(** * More of the lazy load *)

Section LoadMore.
Context `{C : Collaborators}.
Local Open Scope world_scope.

(** X12. When one of these steps of [loadStateData] fails, the steps before
    it having succeeded, the load fails with the error of that step: the
    opening of the cache, the listing of the state files, their hash, and,
    only when the hash recorded in the cache differs from theirs, their
    reading or their parsing. Such a failed load does not set [cacheDirty]
    and loads no data; it changes neither the durable storage nor the
    cache store nor [dirty], and makes only reads. *)
Theorem loadStateData_failure :
  forall (w : World) (e : error),
    loadFailsWith w e ->
    fst (loadStateData w) = Err e
    /\ cacheDirty (snd (loadStateData w)) = cacheDirty w
    /\ innerStateData (snd (loadStateData w)) = innerStateData w
    /\ loadFrame w (snd (loadStateData w)).
Proof.
  intros w e Hfails.
  assert (Hfail : fst (loadStateData w) = Err e).
  { revert Hfails. rewrite loadStateData_eval. unfold loadFailsWith. cbv zeta.
    intros [H|(q & Hb & [H|(f & Hf & [H|(h & Hh & Hne & [H|(s & Hr & H)])])])].
    - rewrite H. reflexivity.
    - rewrite Hb, H. reflexivity.
    - rewrite Hb, Hf, H. reflexivity.
    - rewrite Hb, Hf, Hh.
      destruct (decide (quickAccessHashOf q <> h)); [|contradiction].
      rewrite H. reflexivity.
    - rewrite Hb, Hf, Hh.
      destruct (decide (quickAccessHashOf q <> h)); [|contradiction].
      rewrite Hr, H. reflexivity. }
  split; [exact Hfail|].
  split; [|split; [|apply loadStateData_frame]].
  - revert Hfail. rewrite loadStateData_eval. cbv zeta.
    destruct (buildStateData (cacheStore w)) as [quick|e0]; [|reflexivity].
    destruct (findStateFiles _ _ (durable w)) as [filePaths|e0]; [|reflexivity].
    destruct (getHash _ filePaths (durable w)) as [stateFilesHash|e0]; [|reflexivity].
    destruct (decide (quickAccessHashOf quick <> stateFilesHash)); [|discriminate].
    destruct (readContents _ filePaths (durable w)) as [streams|e0]; [|reflexivity].
    destruct (parseStateContent streams) as [res|e0]; [discriminate|reflexivity].
  - rewrite loadStateData_eval. cbv zeta.
    destruct (buildStateData (cacheStore w)) as [quick|e0]; [|reflexivity].
    destruct (findStateFiles _ _ (durable w)) as [filePaths|e0]; [|reflexivity].
    destruct (getHash _ filePaths (durable w)) as [stateFilesHash|e0]; [|reflexivity].
    destruct (decide (quickAccessHashOf quick <> stateFilesHash)); [|reflexivity].
    destruct (readContents _ filePaths (durable w)) as [streams|e0]; [|reflexivity].
    destruct (parseStateContent streams) as [res|e0]; reflexivity.
Qed.

(** X13. A stale cache is brought up to date without touching the durable
    content: the first access to a state whose cache records another hash
    than the state files reparses them and yields their elements; the
    [flush] that follows, the state not being dirty, writes nothing durable,
    persists the refreshed cache with the hash of the state files, and
    clears [cacheDirty]. *)
Theorem refresh_then_flush :
  forall (w : World) (quick : StateData.t) (filePaths : list string) (stateFilesHash : string)
         (streams : list NamedStream) (res : ParsedState.t) (c : CacheStore),
    innerStateData w = None ->
    dirty w = false ->
    buildStateData (cacheStore w) = Ok quick ->
    findStateFiles (currentContentProvider w) (currentFilePrefix w) (durable w) = Ok filePaths ->
    getHash (currentContentProvider w) filePaths (durable w) = Ok stateFilesHash ->
    quickAccessHashOf quick <> stateFilesHash ->
    readContents (currentContentProvider w) filePaths (durable w) = Ok streams ->
    parseStateContent streams = Ok res ->
    let synced := syncedStateData quick res stateFilesHash in
    flushStateData synced (cacheStore w) = (Ok tt, c) ->
    let w1 := snd (inMemState_getAll w) in
    fst (inMemState_getAll w) = Ok (map snd (map_to_list (StateData.elements synced)))
    /\ cacheDirty w1 = true
    /\ durable w1 = durable w
    /\ cacheStore w1 = cacheStore w
    /\ StateData.saltoMetadata synced !! "hash" = Some stateFilesHash
    /\ flush w1 = (Ok tt, refreshedWorld w filePaths synced c).
Proof.
  intros w quick filePaths stateFilesHash streams res c Hin Hd Hbuild Hfind Hhash Hne
    Hread Hparse synced Hflush w1.
  assert (Hload : loadStateData w
                  = (Ok synced,
                     with_cacheDirty true
                       (logEvent (EvReadContents (currentContentProvider w) filePaths)
                          (afterHashCheck w filePaths)))).
  { rewrite loadStateData_eval. cbv zeta. rewrite Hbuild, Hfind, Hhash.
    destruct (decide (quickAccessHashOf quick <> stateFilesHash)); [|contradiction].
    rewrite Hread, Hparse. reflexivity. }
  assert (Hget : inMemState_getAll w
                 = (Ok (map snd (map_to_list (StateData.elements synced))),
                    with_innerStateData (Some synced)
                      (with_cacheDirty true
                         (logEvent (EvReadContents (currentContentProvider w) filePaths)
                            (afterHashCheck w filePaths))))).
  { unfold inMemState_getAll, bind, ret. rewrite (stateData_unloaded w Hin), Hload.
    reflexivity. }
  unfold w1. rewrite Hget. cbn [fst snd].
  split; [reflexivity|]. split; [reflexivity|]. split; [reflexivity|]. split; [reflexivity|].
  split; [unfold synced, syncedStateData; cbn; apply lookup_insert_eq|].
  unfold flush, bind, gets, modify.
  cbn [dirty cacheDirty with_innerStateData with_cacheDirty logEvent afterHashCheck].
  rewrite Hd. cbn [negb]. cbn [cacheDirty with_innerStateData with_cacheDirty].
  match goal with |- context [inMemState_flush ?w0] =>
    rewrite (inMemState_flush_loaded w0 synced eq_refl) end.
  cbn [cacheStore with_innerStateData with_cacheDirty logEvent afterHashCheck].
  rewrite Hflush. cbn [fst snd].
  unfold refreshedWorld. f_equal. unfold afterHashCheck. world_eq. exact Hd.
Qed.

End LoadMore.

(** * Failures of [updateConfig] *)

Section ConfigMore.
Context `{C : Collaborators}.
Local Open Scope world_scope.

Lemma updateConfig_steps (args : UpdateConfigArgs) (w : World)
    (newProvider : StateContentProvider Durable) :
  getStateContentProvider (workspaceId args) (stateConfig args) = Ok newProvider ->
  let old := currentContentProvider w in
  let prefix := currentFilePrefix w in
  let temp := tempPrefixOf prefix in
  updateConfig args w
  = match getContentAndHash w with
    | (Err e, wa) => (Err e, wa)
    | (Ok contents, wa) =>
        match writeContents newProvider temp contents (durable w) with
        | (Err e, d) => (Err e, afterTempWrite wa newProvider contents d)
        | (Ok _, d) =>
            let wb := afterTempWrite wa newProvider contents d in
            match clear old prefix d with
            | (Err e, d1) => (Err e, afterClear wb d1)
            | (Ok _, d1) =>
                match rename newProvider temp (path_basename prefix) d1 with
                | (Err e, d2) =>
                    (Err e, afterFailedRename (afterClear wb d1) newProvider temp d2)
                | (Ok _, d2) => (Ok tt, afterRename (afterClear wb d1) newProvider temp d2)
                end
            end
        end
    end.
Proof.
  intros Hnew old prefix temp.
  rewrite (updateConfig_eval args w newProvider Hnew).
  pose proof (getContentAndHash_readFrame w) as [Hdur _ [_ Hpre Hprov _ _]].
  destruct (getContentAndHash w) as [[contents|e] wa]; [|reflexivity].
  cbn [snd] in Hdur, Hpre, Hprov. rewrite Hdur, Hpre, Hprov. reflexivity.
Qed.

(** X14. [updateConfig] switches the provider only after the rename on the
    new provider has succeeded. When it fails at the choice of the new
    provider, at the contents, at the write under the temporary prefix, at
    the clear of the old content or at the rename, each reached only when
    the ones before it succeeded, that error is its outcome and the active
    provider and the static files source in use are the ones from before,
    even if the old content has already been cleared. A rejected
    configuration and a memoized failure of the contents make it fail
    before any call is made, the world being left untouched. When it
    succeeds, the provider is the new one and the static files source in
    use is the one given to [localState] if there is one, and that of the
    new provider otherwise. And whenever the active provider has changed,
    the contents were obtained and the write, the clear and the rename all
    succeeded, in this order, each on the storage the one before left. *)
Theorem updateConfig_switches_after_rename :
  forall (args : UpdateConfigArgs) (w : World),
    let w' := snd (updateConfig args w) in
    (forall e,
        configFailsWith args w e ->
        fst (updateConfig args w) = Err e
        /\ currentContentProvider w' = currentContentProvider w
        /\ currentStaticFilesSource w' = currentStaticFilesSource w)
    /\ (forall e,
          getStateContentProvider (workspaceId args) (stateConfig args) = Err e ->
          updateConfig args w = (Err e, w))
    /\ (forall e,
          isOk (getStateContentProvider (workspaceId args) (stateConfig args)) = true ->
          contentsAndHash w = Some (Err e) ->
          updateConfig args w = (Err e, w))
    /\ (forall newProvider,
          getStateContentProvider (workspaceId args) (stateConfig args) = Ok newProvider ->
          fst (updateConfig args w) = Ok tt ->
          currentContentProvider w' = newProvider
          /\ currentStaticFilesSource w'
             = default (staticFilesSource newProvider) (staticFilesSourceArg w))
    /\ (currentContentProvider w' <> currentContentProvider w ->
        exists newProvider contents d d1 d2,
          getStateContentProvider (workspaceId args) (stateConfig args) = Ok newProvider
          /\ currentContentProvider w' = newProvider
          /\ fst (getContentAndHash w) = Ok contents
          /\ writeContents newProvider (tempPrefixOf (currentFilePrefix w)) contents (durable w)
             = (Ok tt, d)
          /\ clear (currentContentProvider w) (currentFilePrefix w) d = (Ok tt, d1)
          /\ rename newProvider (tempPrefixOf (currentFilePrefix w))
               (path_basename (currentFilePrefix w)) d1
             = (Ok tt, d2)
          /\ durable w' = d2).
Proof.
  intros args w w'.
  assert (Harg : staticFilesSourceArg w' = staticFilesSourceArg w)
    by apply (updateConfig_configFrame args w).
  assert (Hkeep : currentContentProvider w' = currentContentProvider w ->
                  currentStaticFilesSource w' = currentStaticFilesSource w).
  { intros Hp. unfold currentStaticFilesSource. rewrite Hp, Harg. reflexivity. }
  pose proof (getContentAndHash_readFrame w) as [_ _ [_ _ Hprov _ _]].
  split; [|split; [|split; [|split]]].
  - intros e Hfails.
    assert (H : fst (updateConfig args w) = Err e
                /\ currentContentProvider w' = currentContentProvider w).
    { unfold w'. destruct Hfails as [Hnew|(newProvider & Hnew & Hsteps)].
      { rewrite (updateConfig_no_provider args w e Hnew). split; reflexivity. }
      rewrite (updateConfig_steps args w newProvider Hnew). cbv zeta.
      destruct (getContentAndHash w) as [r wa]. cbn [fst snd] in *.
      destruct Hsteps as [->|(contents & -> & Hsteps)]; [split; [reflexivity|exact Hprov]|].
      destruct (writeContents newProvider _ contents (durable w)) as [rw d].
      cbn [fst] in Hsteps.
      destruct Hsteps as [->|(d' & [= -> <-] & Hsteps)]; [split; [reflexivity|exact Hprov]|].
      destruct (clear _ _ d) as [rc d1]. cbn [fst] in Hsteps.
      destruct Hsteps as [->|(d1' & [= -> <-] & Hsteps)]; [split; [reflexivity|exact Hprov]|].
      destruct (rename newProvider _ _ d1) as [rr d2]. cbn [fst] in Hsteps. subst rr.
      split; [reflexivity|exact Hprov]. }
    destruct H as [Hr Hp]. split; [exact Hr|]. split; [exact Hp|exact (Hkeep Hp)].
  - intros e Hnew. apply (updateConfig_no_provider args w e Hnew).
  - intros e Hok Hmemo.
    destruct (getStateContentProvider (workspaceId args) (stateConfig args))
      as [newProvider|e0] eqn:Hnew; [|discriminate Hok].
    rewrite (updateConfig_eval args w newProvider Hnew).
    rewrite (getContentAndHash_memoized w _ Hmemo). reflexivity.
  - intros newProvider Hnew Hok.
    assert (Hp : currentContentProvider w' = newProvider).
    { revert Hok. unfold w'. rewrite (updateConfig_eval args w newProvider Hnew).
      destruct (getContentAndHash w) as [[contents|e1] wa]; [|discriminate].
      destruct (writeContents newProvider _ contents (durable wa)) as [[[]|e2] d];
        [|discriminate].
      cbv zeta.
      destruct (clear _ _ d) as [[[]|e3] d1]; [|discriminate].
      destruct (rename newProvider _ _ d1) as [[[]|e4] d2]; [|discriminate].
      reflexivity. }
    split; [exact Hp|]. unfold currentStaticFilesSource. rewrite Hp, Harg. reflexivity.
  - unfold w'.
    destruct (getStateContentProvider (workspaceId args) (stateConfig args))
      as [newProvider|e0] eqn:Hnew.
    2:{ rewrite (updateConfig_no_provider args w e0 Hnew). intros H. destruct H. reflexivity. }
    rewrite (updateConfig_steps args w newProvider Hnew). cbv zeta.
    destruct (getContentAndHash w) as [[contents|e1] wa]; cbn [fst snd] in *;
      [|intros H; destruct (H Hprov)].
    destruct (writeContents newProvider _ contents (durable w)) as [[[]|e2] d] eqn:Hw;
      [|intros H; destruct (H Hprov)].
    destruct (clear _ _ d) as [[[]|e3] d1] eqn:Hc; [|intros H; destruct (H Hprov)].
    destruct (rename newProvider _ _ d1) as [[[]|e4] d2] eqn:Hr;
      [|intros H; destruct (H Hprov)].
    intros _. exists newProvider, contents, d, d1, d2.
    split; [reflexivity|]. split; [reflexivity|]. split; [reflexivity|].
    split; [exact Hw|]. split; [exact Hc|]. split; [exact Hr|reflexivity].
Qed.

End ConfigMore.

(** * The state text of an account *)

Section OrderProofs.

Lemma ascii_compare_refl (a : ascii) : Ascii.compare a a = Eq.
Proof. unfold Ascii.compare. apply N.compare_refl. Qed.

Lemma ascii_compare_Lt_trans (a b c : ascii) :
  Ascii.compare a b = Lt -> Ascii.compare b c = Lt -> Ascii.compare a c = Lt.
Proof. unfold Ascii.compare. rewrite !N.compare_lt_iff. lia. Qed.

Lemma string_compare_Lt_trans (s1 : string) :
  forall s2 s3 : string,
    String.compare s1 s2 = Lt -> String.compare s2 s3 = Lt -> String.compare s1 s3 = Lt.
Proof.
  induction s1 as [|c1 s1 IH]; intros [|c2 s2] [|c3 s3]; cbn; try discriminate; try reflexivity.
  destruct (Ascii.compare c1 c2) eqn:H12; try discriminate;
    destruct (Ascii.compare c2 c3) eqn:H23; try discriminate.
  - apply Ascii.compare_eq_iff in H12, H23. subst.
    rewrite ascii_compare_refl. apply IH.
  - apply Ascii.compare_eq_iff in H12. subst. rewrite H23. reflexivity.
  - apply Ascii.compare_eq_iff in H23. subst. rewrite H12. reflexivity.
  - rewrite (ascii_compare_Lt_trans _ _ _ H12 H23). reflexivity.
Qed.

Lemma string_leb_trans (s1 s2 s3 : string) :
  String.leb s1 s2 = true -> String.leb s2 s3 = true -> String.leb s1 s3 = true.
Proof.
  unfold String.leb.
  destruct (String.compare s1 s2) eqn:H12; try discriminate;
    destruct (String.compare s2 s3) eqn:H23; try discriminate; intros _ _.
  - apply String.compare_eq_iff in H12 as ->. rewrite H23. reflexivity.
  - apply String.compare_eq_iff in H12 as ->. rewrite H23. reflexivity.
  - apply String.compare_eq_iff in H23 as <-. rewrite H12. reflexivity.
  - rewrite (string_compare_Lt_trans _ _ _ H12 H23). reflexivity.
Qed.

Context {A : Type} (key : A -> string).

#[local] Instance keyLe_Transitive : Transitive (keyLe key).
Proof. intros x y z. apply string_leb_trans. Qed.

Lemma sortInsert_Sorted (x : A) (l : list A) :
  Sorted (keyLe key) l -> Sorted (keyLe key) (sortInsert key x l).
Proof.
  induction l as [|y l IH]; intros Hs; cbn [sortInsert].
  - repeat constructor.
  - destruct (String.leb (key x) (key y)) eqn:Hle.
    + constructor; [exact Hs|]. constructor. exact Hle.
    + inversion Hs as [|? ? Hl Hhd]; subst.
      constructor; [apply IH, Hl|].
      assert (Hyx : keyLe key y x).
      { destruct (String.leb_total (key x) (key y)) as [H|H]; [congruence|exact H]. }
      destruct l as [|z l]; cbn [sortInsert].
      * constructor. exact Hyx.
      * destruct (String.leb (key x) (key z)); constructor; [exact Hyx|].
        inversion Hhd; assumption.
Qed.

Lemma sortBy_Sorted (l : list A) : Sorted (keyLe key) (sortBy key l).
Proof.
  induction l as [|x l IH]; [constructor|]. apply sortInsert_Sorted, IH.
Qed.

Lemma NoDup_map_inj_on (l : list A) (x y : A) :
  NoDup (map key l) -> x ∈ l -> y ∈ l -> key x = key y -> x = y.
Proof.
  induction l as [|z l IH]; intros Hnd Hx Hy Hk; [inversion Hx|].
  cbn [map] in Hnd. apply NoDup_cons in Hnd as [Hz Hnd].
  apply elem_of_cons in Hx as [->|Hx], Hy as [->|Hy].
  - reflexivity.
  - exfalso. apply Hz. rewrite Hk. apply elem_of_map_2, Hy.
  - exfalso. apply Hz. rewrite <- Hk. apply elem_of_map_2, Hx.
  - apply IH; assumption.
Qed.

(** [_.sortBy] on items with distinct keys does not depend on the order
    of its input. *)
Lemma sortBy_Permutation_eq (l l' : list A) :
  l ≡ₚ l' -> NoDup (map key l) -> sortBy key l = sortBy key l'.
Proof.
  intros Hperm Hnd.
  apply (StronglySorted_unique_strong (keyLe key)).
  - intros x1 x2 H1 H2 H12 H21.
    apply (NoDup_map_inj_on l); [exact Hnd| | |].
    + rewrite <- (sortBy_Permutation key l). exact H1.
    + rewrite Hperm, <- (sortBy_Permutation key l'). exact H2.
    + apply String.leb_antisym; assumption.
  - apply Sorted_StronglySorted; [apply _|apply sortBy_Sorted].
  - apply Sorted_StronglySorted; [apply _|apply sortBy_Sorted].
  - rewrite (sortBy_Permutation key l), (sortBy_Permutation key l'). exact Hperm.
Qed.

Lemma List_filter_Permutation (f : A -> bool) (l l' : list A) :
  l ≡ₚ l' -> List.filter f l ≡ₚ List.filter f l'.
Proof.
  induction 1 as [|x l l' _ IH|x y l|l1 l2 l3 _ IH1 _ IH2]; cbn [List.filter].
  - reflexivity.
  - destruct (f x); [constructor|]; exact IH.
  - destruct (f x), (f y); try reflexivity. constructor.
  - etransitivity; eassumption.
Qed.

Lemma obj_get_groupPush (k : string) (x : A) (o : JsObject (list A)) (k' : string) :
  obj_get (groupPush k x o) k'
  = if String.eqb k k' then Some (default [] (obj_get o k') ++ [x]) else obj_get o k'.
Proof.
  induction o as [|[k0 xs] o IH]; cbn [groupPush obj_get].
  - destruct (String.eqb k k'); reflexivity.
  - destruct (String.eqb_spec k0 k) as [->|Hne]; cbn [obj_get].
    + destruct (String.eqb k k'); reflexivity.
    + rewrite IH. destruct (String.eqb_spec k0 k') as [->|Hne'].
      * destruct (String.eqb_spec k k') as [->|_]; [contradiction|reflexivity].
      * reflexivity.
Qed.

Lemma obj_get_groupBy_acc (l : list A) :
  forall (acc : JsObject (list A)) (k : string),
    obj_get (fold_left (fun o x => groupPush (key x) x o) l acc) k
    = match List.filter (fun x => String.eqb (key x) k) l with
      | [] => obj_get acc k
      | xs => Some (default [] (obj_get acc k) ++ xs)
      end.
Proof.
  induction l as [|x l IH]; intros acc k; [reflexivity|].
  cbn [fold_left List.filter]. rewrite IH, obj_get_groupPush.
  destruct (String.eqb (key x) k).
  - change (default [] (Some ?v)) with v.
    destruct (List.filter _ l); [reflexivity|].
    change (default [] (Some ?v)) with v. rewrite <- app_assoc. reflexivity.
  - reflexivity.
Qed.

(** A group of [_.groupBy] holds the items of its key, in their order; a
    key without items has no group. *)
Lemma obj_get_groupBy (l : list A) (k : string) :
  obj_get (groupBy key l) k
  = match List.filter (fun x => String.eqb (key x) k) l with
    | [] => None
    | xs => Some xs
    end.
Proof. unfold groupBy. rewrite obj_get_groupBy_acc. reflexivity. Qed.

End OrderProofs.

Section TextProofs.
Context `{C : Collaborators}.

Lemma obj_get_stateTextPerAccount (elements : list Element) (pathIndexEntries : list PathEntry)
    (account : string) :
  obj_get (stateTextPerAccount elements pathIndexEntries) account
  = match elementsOf account elements with
    | [] => None
    | accountElements =>
        Some (accountText accountElements account
                (obj_get (groupPathIndexByAccount pathIndexEntries) account))
    end.
Proof.
  unfold stateTextPerAccount, elementsOf.
  set (byAccount := groupBy (fun element => adapter (elemID element)) elements).
  assert (Hnd : NoDup (map fst byAccount)) by apply groupBy_NoDup.
  set (streamsOf := mapValues _ byAccount).
  assert (Hnd' : NoDup (map fst streamsOf)).
  { unfold streamsOf. rewrite mapValues_keys.
    rewrite (Object_entries_Permutation byAccount). exact Hnd. }
  rewrite (obj_get_mapValues _ streamsOf account Hnd').
  unfold getStateStream, accountText.
  unfold streamsOf at 1 2. rewrite (obj_get_mapValues _ byAccount account Hnd).
  unfold serializePathIndexByAccount.
  rewrite (obj_get_mapValues _ (groupPathIndexByAccount pathIndexEntries) account
             (groupBy_NoDup _ _)).
  unfold byAccount. rewrite obj_get_groupBy.
  destruct (List.filter _ elements) as [|x xs]; reflexivity.
Qed.

(** X15. What [createStateTextPerAccount] yields for an account: nothing when
    no element belongs to it, whatever the path index holds; otherwise the
    three lines made of the account's elements sorted by full name, the
    account name, and the path index entries of the account, or an empty
    array when the path index has none. The accounts are distinct, and
    there is one content unit per account that has elements. *)
Theorem stateText_of_account :
  forall (elements : list Element) (pathIndexEntries : list PathEntry) (name : string),
    obj_get (stateTextPerAccount elements pathIndexEntries) name
    = match elementsOf name elements with
      | [] => None
      | accountElements =>
          Some (accountText accountElements name
                  (obj_get (groupPathIndexByAccount pathIndexEntries) name))
      end
    /\ NoDup (map account (contentUnits elements pathIndexEntries))
    /\ (name ∈ map account (contentUnits elements pathIndexEntries)
        <-> name ∈ map (fun element => adapter (elemID element)) elements)
    /\ contentUnits [] pathIndexEntries = [].
Proof.
  intros elements pathIndexEntries name.
  split; [apply obj_get_stateTextPerAccount|].
  destruct (stateTextPerAccount_entries elements pathIndexEntries) as (order & Hperm & Hentries).
  assert (Hkeys : map account (contentUnits elements pathIndexEntries)
                  = map fst order).
  { unfold contentUnits. rewrite Hentries, !map_map. apply map_ext. intros [a es]. reflexivity. }
  rewrite Hkeys.
  assert (Hp : map fst order
               ≡ₚ map fst (groupBy (fun element => adapter (elemID element)) elements)).
  { apply Permutation_map. exact Hperm. }
  split; [|split; [|reflexivity]].
  - rewrite Hp. apply groupBy_NoDup.
  - rewrite Hp. apply groupBy_keys.
Qed.

(** X16. The state text of an account, and with it its content and its content
    hash, does not depend on the order in which the state hands out its
    elements, as long as no two elements have the same full name: the
    elements of each account are sorted by full name before they are
    serialized. *)
Theorem stateText_independent_of_order :
  forall (elements elements' : list Element) (pathIndexEntries : list PathEntry)
         (account : string),
    elements ≡ₚ elements' ->
    NoDup (map (fun element => getFullName (elemID element)) elements) ->
    obj_get (stateTextPerAccount elements pathIndexEntries) account
    = obj_get (stateTextPerAccount elements' pathIndexEntries) account.
Proof.
  intros elements elements' pathIndexEntries account Hperm Hnd.
  rewrite !obj_get_stateTextPerAccount.
  assert (Hgroup : elementsOf account elements ≡ₚ elementsOf account elements')
    by apply List_filter_Permutation, Hperm.
  assert (Hsorted : sortBy (fun element => getFullName (elemID element))
                      (elementsOf account elements)
                    = sortBy (fun element => getFullName (elemID element))
                        (elementsOf account elements')).
  { apply sortBy_Permutation_eq; [exact Hgroup|].
    unfold elementsOf. clear -Hnd.
    induction elements as [|x l IH]; [constructor|].
    cbn [map] in Hnd. apply NoDup_cons in Hnd as [Hx Hnd].
    cbn [List.filter]. destruct (String.eqb _ account); [|apply IH, Hnd].
    cbn [map]. apply NoDup_cons. split; [|apply IH, Hnd].
    intros Hin. apply Hx. apply elem_of_map in Hin as (y & Hy & Hin).
    rewrite Hy. apply (elem_of_map_2 (fun element => getFullName (elemID element))).
    apply list_elem_of_In, filter_In in Hin as [Hin _]. apply list_elem_of_In, Hin. }
  destruct (elementsOf account elements) as [|x xs] eqn:E1,
           (elementsOf account elements') as [|y ys] eqn:E2.
  - reflexivity.
  - apply Permutation_nil in Hgroup. discriminate Hgroup.
  - symmetry in Hgroup. apply Permutation_nil in Hgroup. discriminate Hgroup.
  - unfold accountText. rewrite Hsorted. reflexivity.
Qed.

End TextProofs.

(** * The memoized contents and the data in memory *)

Section CurrentProofs.
Context `{C : Collaborators}.
Local Open Scope world_scope.

#[global] Instance keepsCurrent_Frame : Frame keepsCurrent.
Proof.
  split.
  - intros w H. exact H.
  - intros w1 w2 w3 H12 H23 H. auto.
Qed.

Lemma keepsCurrent_same (w w' : World) :
  contentsAndHash w' = contentsAndHash w ->
  (forall sd, innerStateData w = Some sd ->
     exists sd', innerStateData w' = Some sd' /\ contentsOf sd' = contentsOf sd) ->
  keepsCurrent w w'.
Proof.
  intros Hc Hin Hcur contents Hmemo. rewrite Hc in Hmemo.
  destruct (Hcur contents Hmemo) as (sd & Hsd & ->).
  destruct (Hin sd Hsd) as (sd' & Hsd' & Heq). exists sd'. auto.
Qed.

Lemma keepsCurrent_dropped (w w' : World) : contentsAndHash w' = None -> keepsCurrent w w'.
Proof. intros Hnone _ contents H. rewrite Hnone in H. discriminate H. Qed.

Lemma keepsCurrent_callWrite ev (f : Durable -> result unit * Durable) :
  preserves keepsCurrent (callWrite ev f).
Proof.
  intros w. unfold callWrite. destruct (f (durable w)).
  apply keepsCurrent_same; [reflexivity|eauto].
Qed.

Lemma keepsCurrent_stateData : preserves keepsCurrent stateData.
Proof.
  intros w. apply keepsCurrent_same.
  - apply (lf_contentsAndHash _ _ (stateData_frame w)).
  - intros sd Hsd. rewrite (stateData_loaded w sd Hsd). eauto.
Qed.

Lemma keepsCurrent_flags (f : World -> World) :
  (forall w, contentsAndHash (f w) = contentsAndHash w) ->
  (forall w, innerStateData (f w) = innerStateData w) ->
  preserves keepsCurrent (modify f).
Proof.
  intros Hc Hi. apply preserves_modify. intros w.
  apply keepsCurrent_same; [apply Hc|]. intros sd Hsd. rewrite Hi. eauto.
Qed.

Lemma keepsCurrent_setDirty : preserves keepsCurrent setDirty.
Proof. intros w. apply keepsCurrent_dropped. reflexivity. Qed.

(** An update of the loaded data that leaves its contents alone. *)
Lemma keepsCurrent_inner_update (f : StateData.t -> StateData.t) :
  (forall sd, contentsOf (f sd) = contentsOf sd) ->
  preserves keepsCurrent
    (let* sd := stateData in modify (with_innerStateData (Some (f sd)))).
Proof.
  intros Hf w. unfold bind, modify.
  pose proof (keepsCurrent_stateData w) as Hload.
  pose proof (stateData_inner w) as Hin.
  destruct (stateData w) as [[sd|e] w1]; cbn [fst snd] in *; [|exact Hload].
  eapply frame_trans; [exact Hload|].
  apply keepsCurrent_same; [reflexivity|].
  intros sd0 Hsd0. rewrite (Hin sd eq_refl) in Hsd0. injection Hsd0 as <-.
  exists (f sd). split; [reflexivity|apply Hf].
Qed.

Lemma keepsCurrent_setHash (h : string) : preserves keepsCurrent (inMemState_setHash h).
Proof. apply (keepsCurrent_inner_update (withHash h)). reflexivity. Qed.

Lemma keepsCurrent_inMemState_flush : preserves keepsCurrent inMemState_flush.
Proof.
  unfold inMemState_flush.
  apply preserves_bind; [apply _|apply keepsCurrent_stateData|intros sd].
  intros w. unfold callFlushStateData. destruct (flushStateData sd (cacheStore w)).
  apply keepsCurrent_same; [reflexivity|eauto].
Qed.

Lemma keepsCurrent_getContentAndHash : preserves keepsCurrent getContentAndHash.
Proof.
  intros w Hcur. unfold getContentAndHash.
  destruct (contentsAndHash w) as [settled|] eqn:Hmemo; [exact Hcur|].
  rewrite calculateContentAndHash_eval.
  pose proof (stateData_inner w) as Hin.
  destruct (stateData w) as [[sd|e] w1]; cbn [fst snd] in *.
  - intros contents [= <-]. exists sd. split; [apply (Hin sd eq_refl)|reflexivity].
  - intros contents [=].
Qed.

(** An operation of the in-memory state followed by [setDirty]: when the
    operation fails before it has changed the data, the memoized contents
    are still current; when it succeeds they are dropped. *)
Lemma keepsCurrent_then_setDirty (m : M unit) (w : World) :
  (forall e, fst (m w) = Err e -> keepsCurrent w (snd (m w))) ->
  keepsCurrent w (snd ((m ;; setDirty) w)).
Proof.
  intros Hfail. unfold bind.
  destruct (m w) as [[[]|e] w1]; cbn [fst snd] in *.
  - apply keepsCurrent_dropped. reflexivity.
  - apply (Hfail e eq_refl).
Qed.

Lemma inner_update_failure (f : StateData.t -> StateData.t) (w : World) (e : error) :
  fst ((let* sd := stateData in modify (with_innerStateData (Some (f sd)))) w) = Err e ->
  keepsCurrent w
    (snd ((let* sd := stateData in modify (with_innerStateData (Some (f sd)))) w)).
Proof.
  unfold bind, modify. pose proof (keepsCurrent_stateData w) as Hload.
  destruct (stateData w) as [[sd|e0] w1]; cbn [fst snd] in *; [discriminate|].
  intros _. exact Hload.
Qed.

(** X17. The memoized contents never go stale. If they are those of the data in
    memory before an operation of the state, they are so after it: every
    operation that changes the elements drops them, and they are only ever
    computed from the data in memory. The one exception is a [clear] that
    fails in the provider, which empties the data in memory without
    dropping the memoized contents. *)
Theorem memoized_contents_are_current :
  forall (op : Operation) (w : World),
    memoCurrent w ->
    (op = OpClear -> isOk (fst (state_clear w)) = true) ->
    memoCurrent (run op w).
Proof.
  intros op w Hcur Hclear. revert Hcur. change (keepsCurrent w (run op w)).
  destruct op; cbn [run].
  - revert w Hclear. intros w _. revert w. unfold inMemState_getAll.
    apply preserves_bind; [apply _|apply keepsCurrent_stateData|intros sd].
    apply preserves_ret, _.
  - apply keepsCurrent_then_setDirty. apply inner_update_failure.
  - apply keepsCurrent_then_setDirty. apply inner_update_failure.
  - clear Hclear. revert w. unfold state_rename.
    apply preserves_bind; [apply _|apply preserves_gets, _|intros static].
    apply preserves_bind; [apply _|apply preserves_gets, _|intros p].
    apply preserves_bind; [apply _|apply preserves_gets, _|intros prefix].
    apply preserves_bind; [apply _| |intros _].
    { apply preserves_promiseAll2; [apply _| |]; apply keepsCurrent_callWrite. }
    apply preserves_bind; [apply _| |intros _; apply keepsCurrent_setDirty].
    apply keepsCurrent_flags; reflexivity.
  - clear Hclear. revert w. unfold flush.
    apply preserves_bind; [apply _|apply preserves_gets, _|intros isDirty].
    destruct (negb isDirty).
    + apply preserves_bind; [apply _|apply preserves_gets, _|intros isCacheDirty].
      destruct isCacheDirty; [|apply preserves_ret, _].
      apply preserves_bind; [apply _|apply keepsCurrent_inMemState_flush|intros _].
      apply keepsCurrent_flags; reflexivity.
    + apply preserves_bind; [apply _|apply preserves_gets, _|intros prefix].
      apply preserves_bind; [apply _|apply keepsCurrent_callWrite|intros _].
      apply preserves_bind; [apply _|apply keepsCurrent_getContentAndHash|intros contents].
      apply preserves_bind; [apply _|apply preserves_gets, _|intros p].
      apply preserves_bind; [apply _|apply preserves_gets, _|intros prefix'].
      apply preserves_bind; [apply _|apply keepsCurrent_callWrite|intros _].
      apply preserves_bind; [apply _|apply keepsCurrent_setHash|intros _].
      apply preserves_bind; [apply _|apply keepsCurrent_inMemState_flush|intros _].
      apply keepsCurrent_flags; reflexivity.
  - clear Hclear. revert w. unfold calculateHash, calculateHashImpl.
    apply preserves_bind; [apply _|apply preserves_gets, _|intros isDirty].
    destruct (negb isDirty); [apply preserves_ret, _|].
    apply preserves_bind; [apply _|apply keepsCurrent_getContentAndHash|intros contents].
    apply keepsCurrent_setHash.
  - specialize (Hclear eq_refl). apply keepsCurrent_dropped.
    revert Hclear. unfold state_clear, setDirty, bind, gets, modify.
    destruct (promiseAll2 _ _ w) as [[[]|e] w1]; [reflexivity|discriminate].
  - apply keepsCurrent_then_setDirty. intros e.
    unfold inMemState_updateStateFromChanges, bind, liftResult, modify.
    pose proof (keepsCurrent_stateData w) as Hload.
    destruct (stateData w) as [[sd|e0] w1]; cbn [fst snd] in *; [|intros _; exact Hload].
    destruct (applyChanges changes sd) as [sd'|e1]; cbn [fst snd]; [discriminate|].
    intros _. exact Hload.
  - clear Hclear. revert w. unfold updateConfig, updateConfig_writeNew, updateConfig_swap.
    apply preserves_bind; [apply _| |intros [newProvider tempPrefix]].
    + apply preserves_bind; [apply _|apply preserves_liftResult, _|intros newProvider].
      apply preserves_bind; [apply _|apply keepsCurrent_getContentAndHash|intros contents].
      apply preserves_bind; [apply _|apply preserves_gets, _|intros prefix].
      apply preserves_bind; [apply _|apply keepsCurrent_callWrite|intros _].
      apply preserves_ret, _.
    + apply preserves_bind; [apply _|apply preserves_gets, _|intros old].
      apply preserves_bind; [apply _|apply preserves_gets, _|intros prefix].
      apply preserves_bind; [apply _|apply keepsCurrent_callWrite|intros _].
      apply preserves_bind; [apply _|apply keepsCurrent_callWrite|intros _].
      apply preserves_bind; [apply _| |intros _; apply preserves_ret, _].
      apply keepsCurrent_flags; reflexivity.
Qed.

End CurrentProofs.

(** * What each operation can change *)

Section FootprintProofs.
Context `{C : Collaborators}.
Local Open Scope world_scope.

#[global] Instance mutationFrame_Frame : Frame mutationFrame.
Proof.
  split.
  - intros w. split; auto.
  - intros w1 w2 w3 [] []. split; try congruence. auto.
Qed.

Lemma mutationFrame_of_loadFrame {A} (m : M A) :
  preserves loadFrame m -> preserves mutationFrame m.
Proof. intros H w. destruct (H w). split; try assumption. congruence. Qed.

Lemma mutationFrame_callWrite ev (f : Durable -> result unit * Durable) :
  preserves mutationFrame (callWrite ev f).
Proof. intros w. unfold callWrite. destruct (f (durable w)). split; auto. Qed.

Lemma mutationFrame_setDirty : preserves mutationFrame setDirty.
Proof. intros w. split; auto. Qed.

Lemma mutationFrame_mutate (m : Mutation) : preserves mutationFrame (mutate m).
Proof.
  destruct (mutate_inner m) as (inner & -> & Hframe).
  apply preserves_bind; [apply _|apply mutationFrame_of_loadFrame, Hframe|intros _].
  apply mutationFrame_setDirty.
Qed.

Lemma mutationFrame_clear : preserves mutationFrame state_clear.
Proof.
  unfold state_clear.
  apply preserves_bind; [apply _|apply preserves_gets, _|intros p].
  apply preserves_bind; [apply _|apply preserves_gets, _|intros prefix].
  apply preserves_bind; [apply _| |intros _; apply mutationFrame_setDirty].
  apply preserves_promiseAll2; [apply _|apply mutationFrame_callWrite|].
  apply mutationFrame_of_loadFrame.
  apply (loadFrame_inner_update (fun _ => StateData.mk ∅ ∅ ∅ ∅)).
Qed.

Lemma mutationFrame_getAll : preserves mutationFrame inMemState_getAll.
Proof.
  apply mutationFrame_of_loadFrame. unfold inMemState_getAll.
  apply preserves_bind; [apply _|apply stateData_frame|intros sd].
  apply preserves_ret, _.
Qed.

Lemma mutate_reads (m : Mutation) (w : World) :
  durable (snd (mutate m w)) = durable w /\ tracedBy isReadEvent w (snd (mutate m w)).
Proof.
  destruct (mutate_inner m) as (inner & -> & Hframe).
  destruct (then_setDirty inner w (Hframe w)) as (Hd & _ & _ & _ & Htr & _).
  split; assumption.
Qed.

(** X19. What each operation of the state can change. None changes the
    static files source given to [localState]. The prefix changes only in
    [rename], the provider only in [updateConfig], the cache store only in
    [flush]; and only [flush] can clear [dirty]. Reading the elements,
    [set], [remove], [updateStateFromChanges] and [calculateHash] leave the
    durable storage as it is and make no call other than reads. *)
Theorem operation_footprint :
  forall (op : Operation) (w : World),
    let w' := run op w in
    staticFilesSourceArg w' = staticFilesSourceArg w
    /\ ((forall newPrefix, op <> OpRename newPrefix) ->
        currentFilePrefix w' = currentFilePrefix w)
    /\ ((forall args, op <> OpUpdateConfig args) ->
        currentContentProvider w' = currentContentProvider w)
    /\ (op <> OpFlush -> cacheStore w' = cacheStore w)
    /\ (op <> OpFlush -> dirty w = true -> dirty w' = true)
    /\ (readsOnly op = true -> durable w' = durable w /\ tracedBy isReadEvent w w').
Proof.
  intros op w w'.
  assert (Hmut : mutationFrame w w' ->
            staticFilesSourceArg w' = staticFilesSourceArg w
            /\ ((forall newPrefix, op <> OpRename newPrefix) ->
                currentFilePrefix w' = currentFilePrefix w)
            /\ ((forall args, op <> OpUpdateConfig args) ->
                currentContentProvider w' = currentContentProvider w)
            /\ (op <> OpFlush -> cacheStore w' = cacheStore w)
            /\ (op <> OpFlush -> dirty w = true -> dirty w' = true)).
  { intros []. auto 10. }
  assert (Hconj : forall P Q R : Prop, P /\ Q -> R -> P /\ (Q /\ R)) by tauto.
  assert (Hconj5 : forall P1 P2 P3 P4 P5 R : Prop,
            P1 /\ P2 /\ P3 /\ P4 /\ P5 -> R -> P1 /\ P2 /\ P3 /\ P4 /\ P5 /\ R) by tauto.
  destruct op; unfold w' in *; cbn [run readsOnly] in *.
  - apply Hconj5; [apply Hmut, mutationFrame_getAll|]. intros _.
    destruct (inMemState_getAll_readFrame w) as [Hd _ [_ _ _ _ Htr]]. auto.
  - apply Hconj5; [apply Hmut, (mutationFrame_mutate (SetElement element))|]. intros _.
    apply (mutate_reads (SetElement element)).
  - apply Hconj5; [apply Hmut, (mutationFrame_mutate (RemoveElement id))|]. intros _.
    apply (mutate_reads (RemoveElement id)).
  - rewrite state_rename_eval. cbv zeta.
    destruct (static_rename _ newPrefix (durable w)) as [rs d1]. cbn [fst snd].
    destruct (rename _ _ newPrefix d1) as [rp d2]. cbn [fst snd].
    split; [destruct rs as [[]|?]; [destruct rp as [[]|?]|]; reflexivity|].
    split; [intros H; destruct (H newPrefix eq_refl)|].
    split; [intros _; destruct rs as [[]|?]; [destruct rp as [[]|?]|]; reflexivity|].
    split; [intros _; destruct rs as [[]|?]; [destruct rp as [[]|?]|]; reflexivity|].
    split; [|discriminate].
    intros _ Hd. destruct rs as [[]|?]; [destruct rp as [[]|?]|]; cbn; auto.
  - destruct (flush_atTarget (currentContentProvider w) (currentFilePrefix w) w eq_refl eq_refl)
      as [Hprefix Hp Harg _].
    split; [exact Harg|]. split; [intros _; exact Hprefix|]. split; [intros _; exact Hp|].
    split; [intros H; destruct (H eq_refl)|]. split; [intros H; destruct (H eq_refl)|].
    discriminate.
  - apply Hconj5.
    + apply Hmut. destruct (calculateHashImpl_readFrame w) as [_ Hc [Hd Hprefix Hp Harg _]].
      split; try assumption. unfold calculateHash. congruence.
    + intros _. destruct (calculateHashImpl_readFrame w) as [Hd _ [_ _ _ _ Htr]]. auto.
  - apply Hconj5; [apply Hmut, mutationFrame_clear|discriminate].
  - apply Hconj5; [apply Hmut, (mutationFrame_mutate (ApplyChanges changes))|]. intros _.
    apply (mutate_reads (ApplyChanges changes)).
  - destruct (updateConfig_configFrame args w) as [Hd Hprefix Hc Harg].
    split; [exact Harg|]. split; [intros _; exact Hprefix|].
    split; [intros H; destruct (H args eq_refl)|].
    split; [intros _; exact Hc|]. split; [intros _ Hdy; congruence|discriminate].
Qed.

(** X20. A [flush] persists the data in memory. When the memoized
    contents, if there are any, are those of the data in memory, as they are
    after any sequence of operations in which no [clear] has failed, the
    [flush] of dirty, loaded state creates the directory of the prefix and
    then hands the provider exactly the serialized contents of the data in
    memory; the storage it leaves is the one that write produces. *)
Theorem flush_writes_data_in_memory :
  forall (w : World) (sd : StateData.t) (d1 : Durable),
    memoCurrent w ->
    (forall e, contentsAndHash w <> Some (Err e)) ->
    dirty w = true ->
    innerStateData w = Some sd ->
    mkdirp (path_dirname (currentFilePrefix w)) (durable w) = (Ok tt, d1) ->
    durable (snd (flush w))
    = snd (writeContents (currentContentProvider w) (currentFilePrefix w) (contentsOf sd) d1)
    /\ exists evs,
         trace (snd (flush w))
         = trace w ++ [EvMkdirp (path_dirname (currentFilePrefix w));
                       EvWriteContents (currentContentProvider w) (currentFilePrefix w)
                         (contentsOf sd)] ++ evs.
Proof.
  intros w sd d1 Hcur Hnoerr Hd Hin Hmk.
  assert (Hcontents : currentContents w sd = Ok (contentsOf sd)).
  { unfold currentContents.
    destruct (contentsAndHash w) as [[contents|e]|] eqn:Hmemo; [| |reflexivity].
    - destruct (Hcur contents Hmemo) as (sd' & Hsd' & ->).
      rewrite Hin in Hsd'. injection Hsd' as <-. reflexivity.
    - destruct (Hnoerr e eq_refl). }
  rewrite (flush_dirty_until_write w sd (contentsOf sd) d1 Hd Hin Hcontents Hmk).
  destruct (writeContents _ _ (contentsOf sd) d1) as [[[]|e] d2]; cbn [snd].
  - match goal with |- context [afterWrite ?h ?w0] =>
      destruct (afterWrite_frame h w0) as [Hdur (evs & Hevs & _)] end.
    cbn [durable trace] in Hdur, Hevs.
    split; [exact Hdur|]. exists evs. rewrite Hevs, <- !app_assoc. reflexivity.
  - split; [reflexivity|]. exists []. reflexivity.
Qed.

(** X21. The [flush] that follows a migration. A successful [updateConfig]
    leaves the contents it wrote through the new provider memoized and
    does not mark the state dirty. The next [flush] therefore writes
    nothing durable when the state was not dirty; when it was, it writes
    through the new provider, under the unchanged prefix, the very contents
    that were migrated, without computing them again. *)
Theorem updateConfig_then_flush :
  forall (args : UpdateConfigArgs) (w : World) (newProvider : StateContentProvider Durable),
    getStateContentProvider (workspaceId args) (stateConfig args) = Ok newProvider ->
    fst (updateConfig args w) = Ok tt ->
    let w1 := snd (updateConfig args w) in
    exists contents,
      contentsAndHash w1 = Some (Ok contents)
      /\ EvWriteContents newProvider (tempPrefixOf (currentFilePrefix w)) contents ∈ trace w1
      /\ dirty w1 = dirty w
      /\ tracedBy (flushes newProvider (currentFilePrefix w)) w1 (snd (flush w1))
      /\ (dirty w = false -> durable (snd (flush w1)) = durable w1)
      /\ (dirty w = true ->
          forall sd d1,
            innerStateData w1 = Some sd ->
            mkdirp (path_dirname (currentFilePrefix w)) (durable w1) = (Ok tt, d1) ->
            exists evs,
              trace (snd (flush w1))
              = trace w1 ++ [EvMkdirp (path_dirname (currentFilePrefix w));
                             EvWriteContents newProvider (currentFilePrefix w) contents]
                  ++ evs).
Proof.
  intros args w newProvider Hnew Hok w1.
  destruct (updateConfig_configFrame args w) as [Hd Hprefix _ _]. fold w1 in Hd, Hprefix.
  assert (Hrun : exists contents,
             contentsAndHash w1 = Some (Ok contents)
             /\ EvWriteContents newProvider (tempPrefixOf (currentFilePrefix w)) contents
                  ∈ trace w1
             /\ currentContentProvider w1 = newProvider).
  { revert Hok. unfold w1. rewrite (updateConfig_eval args w newProvider Hnew).
    pose proof (getContentAndHash_memoizes w) as Hmemo.
    pose proof (getContentAndHash_readFrame w) as [_ _ [_ Hpre _ _ _]].
    destruct (getContentAndHash w) as [[contents|e1] wa]; cbn [fst snd] in *; [|discriminate].
    destruct (writeContents newProvider _ contents (durable wa)) as [[[]|e2] d];
      [|discriminate].
    cbv zeta.
    destruct (clear _ _ d) as [[[]|e3] d1]; [|discriminate].
    destruct (rename newProvider _ _ d1) as [[[]|e4] d2]; [|discriminate].
    intros _. exists contents. cbn [snd].
    split; [exact Hmemo|]. split; [|reflexivity].
    unfold afterRename, afterClear, afterTempWrite.
    cbn [trace with_currentContentProvider with_durable logEvent]. rewrite Hpre.
    rewrite !elem_of_app. left. left. right. left. }
  destruct Hrun as (contents & Hmemo & Hev & Hp).
  exists contents. split; [exact Hmemo|]. split; [exact Hev|]. split; [exact Hd|].
  split; [apply (flush_atTarget newProvider (currentFilePrefix w) w1 Hp Hprefix)|].
  split.
  - intros Hclean. apply (flush_clean_frame w1). congruence.
  - intros Hdirty sd d1 Hin Hmk.
    assert (Hcontents : currentContents w1 sd = Ok contents).
    { unfold currentContents. rewrite Hmemo. reflexivity. }
    rewrite <- Hprefix in Hmk.
    rewrite (flush_dirty_until_write w1 sd contents d1 ltac:(congruence) Hin Hcontents Hmk).
    rewrite Hp, Hprefix.
    destruct (writeContents newProvider _ contents d1) as [[[]|e] d2]; cbn [snd].
    + match goal with |- context [afterWrite ?h ?w0] =>
        destruct (afterWrite_frame h w0) as [_ (evs & Hevs & _)] end.
      cbn [trace] in Hevs. exists evs. rewrite Hevs, <- !app_assoc. reflexivity.
    + exists []. unfold writeFailedWorld. cbn [trace]. rewrite Hp, Hprefix. reflexivity.
Qed.

End FootprintProofs.

(** * From [flush] to the next load *)

Section ReloadProofs.
Context `{C : Collaborators}.
Local Open Scope world_scope.

Lemma elements_setAll_lookup (m : gmap string Element) (l : list Element) :
  (forall e, e ∈ l -> m !! getFullName (elemID e) = Some e) ->
  forall (acc : gmap string Element) (k : string),
    elements_setAll l acc !! k
    = if decide (k ∈ map (fun e => getFullName (elemID e)) l) then m !! k else acc !! k.
Proof.
  induction l as [|e0 l IH]; intros Hcons acc k.
  - cbn. destruct (decide (k ∈ [])) as [H|_]; [inversion H|reflexivity].
  - unfold elements_setAll in *. cbn [fold_left map].
    rewrite IH; [|intros e1 H1; apply Hcons; right; exact H1].
    set (keys := map (fun e => getFullName (elemID e)) l).
    destruct (decide (k ∈ keys)) as [Hin|Hout].
    + destruct (decide (k ∈ getFullName (elemID e0) :: keys)) as [_|H]; [reflexivity|].
      destruct H. right. exact Hin.
    + destruct (decide (k = getFullName (elemID e0))) as [->|Hne].
      * rewrite lookup_insert_eq.
        destruct (decide (_ ∈ _ :: keys)) as [_|H]; [|destruct H; left].
        symmetry. apply Hcons. left.
      * rewrite lookup_insert_ne; [|congruence].
        destruct (decide (k ∈ _ :: keys)) as [H|_]; [|reflexivity].
        apply elem_of_cons in H as [->|H]; [congruence|contradiction].
Qed.

Lemma keyedByFullName_setAll (l : list Element) :
  forall acc : gmap string Element,
    keyedByFullName acc -> keyedByFullName (elements_setAll l acc).
Proof.
  induction l as [|e0 l IH]; intros acc Hacc; [exact Hacc|].
  unfold elements_setAll in *. cbn [fold_left]. apply IH.
  intros k e Hk. destruct (decide (k = getFullName (elemID e0))) as [->|Hne].
  - rewrite lookup_insert_eq in Hk. injection Hk as <-. reflexivity.
  - rewrite lookup_insert_ne in Hk; [|congruence]. apply (Hacc k e Hk).
Qed.

(** Setting all the values of a map keyed by full name, in any order,
    into an empty map gives the map back. *)
Lemma elements_setAll_values (m : gmap string Element) (l : list Element) :
  keyedByFullName m ->
  l ≡ₚ map snd (map_to_list m) ->
  elements_setAll l ∅ = m.
Proof.
  intros Hkeyed Hperm.
  assert (Hin : forall e, e ∈ l <-> exists k, m !! k = Some e).
  { intros e. rewrite Hperm, elem_of_map. split.
    - intros ([k e'] & -> & Hke). exists k. apply elem_of_map_to_list, Hke.
    - intros (k & Hk). exists (k, e). split; [reflexivity|apply elem_of_map_to_list, Hk]. }
  apply map_eq. intros k.
  rewrite (elements_setAll_lookup m l).
  2:{ intros e He. apply Hin in He as (k' & Hk').
      rewrite (Hkeyed k' e Hk'). exact Hk'. }
  destruct (decide _) as [_|Hout]; [reflexivity|].
  rewrite lookup_empty. destruct (m !! k) as [e|] eqn:Hk; [|reflexivity].
  destruct Hout. rewrite <- (Hkeyed k e Hk).
  apply (elem_of_map_2 (fun e => getFullName (elemID e))). apply Hin. eauto.
Qed.

Lemma flush_durable_is_written (w : World) (sd : StateData.t) :
  dirty w = true ->
  innerStateData w = Some sd ->
  memoCurrent w ->
  fst (flush w) = Ok tt ->
  exists d1,
    fst (mkdirp (path_dirname (currentFilePrefix w)) (durable w)) = Ok tt
    /\ d1 = snd (mkdirp (path_dirname (currentFilePrefix w)) (durable w))
    /\ writeContents (currentContentProvider w) (currentFilePrefix w) (contentsOf sd) d1
       = (Ok tt, durable (snd (flush w))).
Proof.
  intros Hd Hin Hcur.
  destruct (mkdirp (path_dirname (currentFilePrefix w)) (durable w)) as [rm d1] eqn:Hmk.
  destruct rm as [[]|e].
  2:{ rewrite (flush_dirty_eval w Hd), Hmk. discriminate. }
  destruct (contentsAndHash w) as [[contents|e]|] eqn:Hmemo.
  2:{ rewrite (flush_dirty_eval w Hd), Hmk.
      rewrite (getContentAndHash_memoized (afterMkdirp w d1) (Err e) Hmemo). discriminate. }
  - destruct (Hcur contents Hmemo) as (sd' & Hin' & ->).
    assert (sd' = sd) as -> by congruence.
    assert (Hcontents : currentContents w sd = Ok (contentsOf sd)).
    { unfold currentContents. rewrite Hmemo. reflexivity. }
    rewrite (flush_dirty_until_write w sd (contentsOf sd) d1 Hd Hin Hcontents Hmk).
    destruct (writeContents _ _ (contentsOf sd) d1) as [[[]|e] d2] eqn:Hw; [|discriminate].
    intros _. exists d1. split; [reflexivity|]. split; [reflexivity|].
    match goal with |- context [afterWrite ?h ?w0] =>
      destruct (afterWrite_frame h w0) as [Hdur _] end.
    cbn [durable] in Hdur. rewrite Hdur. exact Hw.
  - assert (Hcontents : currentContents w sd = Ok (contentsOf sd)).
    { unfold currentContents. rewrite Hmemo. reflexivity. }
    rewrite (flush_dirty_until_write w sd (contentsOf sd) d1 Hd Hin Hcontents Hmk).
    destruct (writeContents _ _ (contentsOf sd) d1) as [[[]|e] d2] eqn:Hw; [|discriminate].
    intros _. exists d1. split; [reflexivity|]. split; [reflexivity|].
    match goal with |- context [afterWrite ?h ?w0] =>
      destruct (afterWrite_frame h w0) as [Hdur _] end.
    cbn [durable] in Hdur. rewrite Hdur. exact Hw.
Qed.

(** X18. What a [flush] writes is what the next load reads. After a successful
    [flush] of dirty, loaded state whose memoized contents, if it has any,
    are those of the data in memory, the storage is the one left by the
    provider's write of the state's contents. If the provider then shows
    those contents under the prefix, and the libraries read each account's
    text back as written, a state opened on that storage with a cache that
    records another hash loads successfully, and the elements it loads are
    exactly the elements that were flushed, its account names those of the
    written units, and its recorded hash that of the state files. *)
Theorem flush_then_reload :
  forall (w : World) (sd : StateData.t) (c0 : CacheStore) (quick : StateData.t)
         (filePaths : list string) (stateFilesHash : string) (streams : list NamedStream),
    dirty w = true ->
    innerStateData w = Some sd ->
    memoCurrent w ->
    keyedByFullName (StateData.elements sd) ->
    codecRoundTrips (map snd (map_to_list (StateData.elements sd)))
      (map_to_list (StateData.pathIndex sd)) ->
    fst (flush w) = Ok tt ->
    showsContents (currentContentProvider w) (currentFilePrefix w) (durable (snd (flush w)))
      (contentsOf sd) filePaths stateFilesHash streams ->
    buildStateData c0 = Ok quick ->
    quickAccessHashOf quick <> stateFilesHash ->
    let reopened :=
      localState (currentFilePrefix w) (currentContentProvider w) (staticFilesSourceArg w)
        (durable (snd (flush w))) c0 in
    (exists d1,
        writeContents (currentContentProvider w) (currentFilePrefix w) (contentsOf sd) d1
        = (Ok tt, durable (snd (flush w))))
    /\ exists loaded,
         fst (loadStateData reopened) = Ok loaded
         /\ StateData.elements loaded = StateData.elements sd
         /\ StateData.accounts loaded !! "account_names"
            = Some (map JStr (map account (contentsOf sd)))
         /\ StateData.saltoMetadata loaded !! "hash" = Some stateFilesHash
         /\ cacheDirty (snd (loadStateData reopened)) = true
         /\ dirty (snd (loadStateData reopened)) = false.
Proof.
  intros w sd c0 quick filePaths stateFilesHash streams Hd Hin Hmemo Hkeyed Hcodec Hok
    [Hfiles Hhash Hread Hbytes] Hbuild Hne reopened.
  split.
  { destruct (flush_durable_is_written w sd Hd Hin Hmemo Hok) as (d1 & _ & _ & Hw).
    exists d1. exact Hw. }
  set (elements := map snd (map_to_list (StateData.elements sd))) in *.
  set (entries := map_to_list (StateData.pathIndex sd)) in *.
  set (pathGroup := obj_get (groupPathIndexByAccount entries)).
  destruct (stateTextPerAccount_entries elements entries) as (order & Horder & Hentries).
  fold pathGroup in Hentries.
  assert (Hcontents : contentsOf sd
            = map (fun e => contentAndHashOf
                              (fst e, accountText (snd e) (fst e) (pathGroup (fst e))))
                order).
  { unfold contentsOf. fold elements. fold entries. rewrite Hentries, map_map. reflexivity. }
  assert (Hrt : forall a es, (a, es) ∈ order -> roundTrips es a (pathGroup a)).
  { intros a es Hae. apply Hcodec. rewrite <- Horder. exact Hae. }
  assert (Hstreams : map stream streams
            = map (fun e => createGZipWriteStream
                              (accountText (snd e) (fst e) (pathGroup (fst e)))) order).
  { rewrite Hbytes, Hcontents, map_map. reflexivity. }
  pose proof (parseStreams_round_trip pathGroup order Hrt streams emptyParsedState Hstreams)
    as Hparse.
  fold (parseStateContent streams) in Hparse.
  cbn [ParsedState.elements ParsedState.accounts ParsedState.pathIndices emptyParsedState app]
    in Hparse.
  eexists.
  rewrite loadStateData_eval. cbv zeta.
  change (cacheStore reopened) with c0.
  change (currentContentProvider reopened) with (currentContentProvider w).
  change (currentFilePrefix reopened) with (currentFilePrefix w).
  change (durable reopened) with (durable (snd (flush w))).
  rewrite Hbuild, Hfiles, Hhash.
  destruct (decide (quickAccessHashOf quick <> stateFilesHash)); [|contradiction].
  rewrite Hread, Hparse. cbn [fst snd].
  split; [reflexivity|].
  unfold syncedStateData.
  cbn [StateData.elements StateData.accounts StateData.saltoMetadata
       ParsedState.elements ParsedState.accounts ParsedState.pathIndices].
  split; [|split; [|split; [apply lookup_insert_eq|split; reflexivity]]].
  - apply elements_setAll_values; [exact Hkeyed|].
    fold elements.
    rewrite <- (groupBy_concat (fun element => adapter (elemID element)) elements).
    rewrite <- Horder.
    clear. induction order as [|[a es] order IH]; [reflexivity|].
    cbn [map concat snd]. rewrite sortBy_Permutation, IH. reflexivity.
  - rewrite lookup_insert_eq. f_equal. rewrite Hcontents, !map_map. reflexivity.
Qed.

End ReloadProofs.

(** * The further theorems at work on the sample workspaces *)

Section MoreWitnesses.
Import Doubles Samples MoreSamples.
#[local] Existing Instance inMemory.

Lemma loadedData_roundTrips :
  codecRoundTrips (map snd (map_to_list (StateData.elements loadedData)))
    (map_to_list (StateData.pathIndex loadedData)).
Proof.
  intros a es Hin. vm_compute in Hin.
  apply elem_of_cons in Hin as [[= -> ->]|Hin];
    [|apply elem_of_cons in Hin as [[= -> ->]|Hin]; [|inversion Hin]].
  - exists (JArr (map elementJson [accountType; leadType])).
    split; vm_compute; reflexivity.
  - exists (JArr (map elementJson [ticketField])).
    split; vm_compute; reflexivity.
Qed.

(** Clearing the sample after it was flushed, on the file backend and on
    a backend that refuses to remove anything. *)
Lemma clear_spec_witness :
  (fst (state_clear (snd (flush edited))) = Ok tt
   /\ dirty (snd (flush edited)) = false
   /\ dirty (snd (state_clear (snd (flush edited)))) = true
   /\ contentsAndHash (snd (state_clear (snd (flush edited)))) = None
   /\ durable (snd (state_clear (snd (flush edited)))) = [])
  /\ (fst (state_clear flushedLocked) = Err "EACCES: permission denied"
      /\ dirty flushedLocked = false
      /\ dirty (snd (state_clear flushedLocked)) = false
      /\ contentsAndHash (snd (state_clear flushedLocked)) = Some (Ok sampleContents)
      /\ innerStateData (snd (state_clear flushedLocked)) = Some (StateData.mk ∅ ∅ ∅ ∅)).
Proof.
  split.
  - destruct (clear_spec (snd (flush edited))) as (Hiff & _ & Hdur & _ & _ & _ & Hok & _).
    assert (Hboth : fst (state_clear (snd (flush edited))) = Ok tt).
    { apply Hiff. split; vm_compute; reflexivity. }
    destruct (Hok Hboth) as [Hd Hm].
    split; [exact Hboth|]. split; [vm_compute; reflexivity|]. split; [exact Hd|].
    split; [exact Hm|]. rewrite Hdur. vm_compute. reflexivity.
  - destruct (clear_spec flushedLocked) as (_ & _ & _ & _ & _ & Hempty & _ & Hfail).
    assert (Herr : fst (state_clear flushedLocked) = Err "EACCES: permission denied")
      by (vm_compute; reflexivity).
    destruct (Hfail _ Herr) as [Hd Hm].
    split; [exact Herr|]. split; [vm_compute; reflexivity|].
    split; [rewrite Hd; vm_compute; reflexivity|].
    split; [rewrite Hm; vm_compute; reflexivity|].
    apply Hempty. vm_compute. reflexivity.
Defined.

(** Flushing the edited sample, and flushing it again. *)
Lemma flush_settles_witness :
  fst (flush edited) = Ok tt
  /\ dirty (snd (flush edited)) = false
  /\ durable (snd (flush edited)) = storedState
  /\ flush (snd (flush edited)) = (Ok tt, snd (flush edited)).
Proof.
  assert (Hok : fst (flush edited) = Ok tt) by (vm_compute; reflexivity).
  destruct (flush_settles edited Hok) as (Hd & _ & _ & Hnothing & _).
  split; [exact Hok|]. split; [exact Hd|].
  split; [vm_compute; reflexivity|].
  apply Hnothing. vm_compute. reflexivity.
Defined.

(** Hashing the edited sample and flushing it. *)
Lemma calculateHash_then_flush_witness :
  dirty edited = true
  /\ fst (calculateHash edited) = Ok tt
  /\ exists contents sd d c,
       StateData.saltoMetadata sd !! "hash" = Some (combinedHash contents)
       /\ flush (snd (calculateHash edited))
          = (Ok tt, flushedAsHashed (snd (calculateHash edited)) sd contents d c).
Proof.
  assert (Hd : dirty edited = true) by reflexivity.
  assert (Hok : fst (calculateHash edited) = Ok tt) by (vm_compute; reflexivity).
  destruct (calculateHash_then_flush edited Hd Hok) as (contents & sd & _ & _ & Hhash & Hflush).
  split; [exact Hd|]. split; [exact Hok|].
  exists contents, sd. eexists. eexists. split; [exact Hhash|].
  eapply Hflush; reflexivity.
Defined.

(** A state file that cannot be decompressed: the failure stays, even
    once the storage holds the stored sample again. *)
Lemma failed_contents_stay_memoized_witness :
  contentsAndHash openedCorrupt = None
  /\ fst (getContentAndHash openedCorrupt) = Err "incorrect header check"
  /\ let repaired :=
       with_durable storedState (with_dirty true (snd (getContentAndHash openedCorrupt))) in
     calculateHash repaired = (Err "incorrect header check", repaired)
     /\ fst (flush repaired) = Err "incorrect header check".
Proof.
  assert (Hnone : contentsAndHash openedCorrupt = None) by reflexivity.
  assert (Hfail : fst (getContentAndHash openedCorrupt) = Err "incorrect header check")
    by (vm_compute; reflexivity).
  destruct (failed_contents_stay_memoized openedCorrupt _ Hnone Hfail) as [Hmemo Hlater].
  split; [exact Hnone|]. split; [exact Hfail|]. intros repaired.
  destruct (Hlater repaired Hmemo) as (_ & Hhash & Hflush & _).
  split; [apply Hhash; reflexivity|].
  rewrite (Hflush eq_refl storedState eq_refl). reflexivity.
Defined.

(** Loading a state file that cannot be decompressed. *)
Lemma loadStateData_failure_witness :
  loadFailsWith openedCorrupt "incorrect header check"
  /\ fst (loadStateData openedCorrupt) = Err "incorrect header check"
  /\ cacheDirty (snd (loadStateData openedCorrupt)) = false
  /\ innerStateData (snd (loadStateData openedCorrupt)) = None
  /\ durable (snd (loadStateData openedCorrupt)) = corruptState.
Proof.
  assert (Hfails : loadFailsWith openedCorrupt "incorrect header check").
  { right. exists emptyCache. split; [reflexivity|].
    right. exists ["ws/envs/prod/state.salesforce.jsonl.zip"]. split; [reflexivity|].
    right. eexists. split; [vm_compute; reflexivity|].
    split; [vm_compute; intros [=]|].
    right. eexists. split; [vm_compute; reflexivity|]. vm_compute. reflexivity. }
  destruct (loadStateData_failure openedCorrupt _ Hfails) as (Herr & Hcd & Hin & [Hdur _ _ _ _ _ _ _]).
  split; [exact Hfails|]. split; [exact Herr|]. split; [exact Hcd|].
  split; [exact Hin|exact Hdur].
Defined.

(** Opening the stored sample with an empty cache, reading it and
    flushing. *)
Lemma refresh_then_flush_witness :
  innerStateData opened = None
  /\ dirty opened = false
  /\ quickAccessHashOf emptyCache <> storedHash
  /\ cacheDirty (snd (inMemState_getAll opened)) = true
  /\ fst (flush (snd (inMemState_getAll opened))) = Ok tt
  /\ durable (snd (flush (snd (inMemState_getAll opened)))) = storedState
  /\ cacheDirty (snd (flush (snd (inMemState_getAll opened)))) = false.
Proof.
  assert (H1 : buildStateData (cacheStore opened) = Ok emptyCache) by reflexivity.
  assert (H2 : findStateFiles (currentContentProvider opened) (currentFilePrefix opened)
                 (durable opened) = Ok storedFiles) by (vm_compute; reflexivity).
  assert (H3 : getHash (currentContentProvider opened) storedFiles (durable opened)
               = Ok storedHash) by (vm_compute; reflexivity).
  assert (H4 : quickAccessHashOf emptyCache <> storedHash) by (vm_compute; intros [=]).
  assert (H5 : readContents (currentContentProvider opened) storedFiles (durable opened)
               = Ok storedStreams) by (vm_compute; reflexivity).
  destruct (parseStateContent storedStreams) as [res|e] eqn:Hparse;
    [|vm_compute in Hparse; discriminate Hparse].
  destruct (refresh_then_flush opened emptyCache storedFiles storedHash storedStreams res
              (syncedStateData emptyCache res storedHash)
              eq_refl eq_refl H1 H2 H3 H4 H5 Hparse eq_refl)
    as (_ & Hcd & _ & _ & _ & Hflush).
  split; [reflexivity|]. split; [reflexivity|]. split; [exact H4|].
  split; [exact Hcd|]. rewrite Hflush. repeat split; reflexivity.
Defined.

(** Migrating to object storage from a backend that refuses to remove
    anything, and from the file backend. *)
Lemma updateConfig_switches_after_rename_witness :
  configFailsWith s3Config flushedLocked "EACCES: permission denied"
  /\ fst (updateConfig s3Config flushedLocked) = Err "EACCES: permission denied"
  /\ currentContentProvider (snd (updateConfig s3Config flushedLocked)) = lockedBackend
  /\ fst (updateConfig s3Config (snd (flush edited))) = Ok tt
  /\ currentContentProvider (snd (updateConfig s3Config (snd (flush edited)))) = s3Backend.
Proof.
  assert (Hfails : configFailsWith s3Config flushedLocked "EACCES: permission denied").
  { right. exists s3Backend. split; [reflexivity|].
    right. exists sampleContents. split; [vm_compute; reflexivity|].
    right. eexists. split; [reflexivity|]. left. reflexivity. }
  destruct (updateConfig_switches_after_rename s3Config flushedLocked) as (Hfail & _).
  destruct (Hfail _ Hfails) as (Herr & Hprov & _).
  destruct (updateConfig_switches_after_rename s3Config (snd (flush edited)))
    as (_ & _ & _ & Hdone & _).
  assert (Hok : fst (updateConfig s3Config (snd (flush edited))) = Ok tt)
    by (vm_compute; reflexivity).
  destruct (Hdone s3Backend eq_refl Hok) as [Hnew _].
  split; [exact Hfails|]. split; [exact Herr|]. split; [rewrite Hprov; reflexivity|].
  split; [exact Hok|exact Hnew].
Defined.

(** The sample elements in two orders. *)
Lemma stateText_independent_of_order_witness :
  sampleElements ≡ₚ reorderedElements
  /\ NoDup (map (fun element => getFullName (elemID element)) sampleElements)
  /\ obj_get (stateTextPerAccount sampleElements (map_to_list sampleIndex)) "salesforce"
     = obj_get (stateTextPerAccount reorderedElements (map_to_list sampleIndex)) "salesforce".
Proof.
  assert (Hperm : sampleElements ≡ₚ reorderedElements).
  { unfold sampleElements, reorderedElements.
    etransitivity; [apply perm_skip, perm_swap|apply perm_swap]. }
  assert (Hnd : NoDup (map (fun element => getFullName (elemID element)) sampleElements)).
  { apply (bool_decide_unpack _). vm_compute. reflexivity. }
  split; [exact Hperm|]. split; [exact Hnd|].
  apply (stateText_independent_of_order sampleElements reorderedElements
           (map_to_list sampleIndex) "salesforce" Hperm Hnd).
Defined.

(** The contents memoized by a flush of the edited sample are those of
    its data. *)
Lemma memoized_contents_are_current_witness :
  memoCurrent edited
  /\ contentsAndHash (run OpFlush edited) <> None
  /\ memoCurrent (run OpFlush edited).
Proof.
  assert (Hcur : memoCurrent edited) by (intros contents [=]).
  split; [exact Hcur|]. split; [vm_compute; discriminate|].
  apply (memoized_contents_are_current OpFlush edited Hcur). intros [=].
Defined.

(** The edited sample, with no contents memoized and with its contents
    memoized by a calculation of the hash, flushed to the file backend and
    opened again with an empty cache. *)
Lemma flush_then_reload_witness :
  (dirty edited = true
   /\ contentsAndHash edited = None
   /\ fst (flush edited) = Ok tt
   /\ showsContents fileBackend filePrefix (durable (snd (flush edited)))
        (contentsOf loadedData) storedFiles storedHash storedStreams
   /\ exists loaded,
        fst (loadStateData (localState filePrefix fileBackend None
                              (durable (snd (flush edited))) emptyCache))
        = Ok loaded
        /\ StateData.elements loaded = StateData.elements loadedData)
  /\ (dirty hashedEdited = true
      /\ contentsAndHash hashedEdited = Some (Ok (contentsOf hashedData))
      /\ memoCurrent hashedEdited
      /\ fst (flush hashedEdited) = Ok tt
      /\ exists loaded,
           fst (loadStateData (localState filePrefix fileBackend None
                                 (durable (snd (flush hashedEdited))) emptyCache))
           = Ok loaded
           /\ StateData.elements loaded = StateData.elements loadedData).
Proof.
  assert (Hne : quickAccessHashOf emptyCache <> storedHash) by (vm_compute; intros [=]).
  assert (Hkeyed : keyedByFullName (StateData.elements loadedData)).
  { apply keyedByFullName_setAll. intros k e Hk. rewrite lookup_empty in Hk. discriminate Hk. }
  split.
  - assert (Hd : dirty edited = true) by reflexivity.
    assert (Hok : fst (flush edited) = Ok tt) by (vm_compute; reflexivity).
    assert (Hshows : showsContents (currentContentProvider edited) (currentFilePrefix edited)
                       (durable (snd (flush edited))) (contentsOf loadedData)
                       storedFiles storedHash storedStreams).
    { split; vm_compute; reflexivity. }
    assert (Hcur : memoCurrent edited) by (intros contents [=]).
    destruct (flush_then_reload edited loadedData emptyCache emptyCache storedFiles storedHash
                storedStreams Hd eq_refl Hcur Hkeyed loadedData_roundTrips Hok Hshows
                eq_refl Hne)
      as (_ & loaded & Hload & Hels & _).
    split; [exact Hd|]. split; [reflexivity|]. split; [exact Hok|]. split; [exact Hshows|].
    exists loaded. split; [exact Hload|exact Hels].
  - assert (Hd : dirty hashedEdited = true) by (vm_compute; reflexivity).
    assert (Hin : innerStateData hashedEdited = Some hashedData) by (vm_compute; reflexivity).
    assert (Hmemo : contentsAndHash hashedEdited = Some (Ok (contentsOf hashedData)))
      by (vm_compute; reflexivity).
    assert (Hcur : memoCurrent hashedEdited).
    { intros contents Hc. exists hashedData. split; [exact Hin|]. congruence. }
    assert (Hok : fst (flush hashedEdited) = Ok tt) by (vm_compute; reflexivity).
    assert (Hshows : showsContents (currentContentProvider hashedEdited)
                       (currentFilePrefix hashedEdited)
                       (durable (snd (flush hashedEdited))) (contentsOf hashedData)
                       storedFiles storedHash storedStreams).
    { split; vm_compute; reflexivity. }
    destruct (flush_then_reload hashedEdited hashedData emptyCache emptyCache storedFiles
                storedHash storedStreams Hd Hin Hcur Hkeyed loadedData_roundTrips Hok Hshows
                eq_refl Hne)
      as (_ & loaded & Hload & Hels & _).
    split; [exact Hd|]. split; [exact Hmemo|]. split; [exact Hcur|]. split; [exact Hok|].
    exists loaded. split; [exact Hload|exact Hels].
Defined.

(** The flush of the edited sample hands the file backend the contents
    of the sample data. *)
Lemma flush_writes_data_in_memory_witness :
  memoCurrent edited
  /\ dirty edited = true
  /\ durable (snd (flush edited))
     = snd (writeContents fileBackend filePrefix (contentsOf loadedData) [])
  /\ exists evs,
       trace (snd (flush edited))
       = [EvMkdirp "ws/envs/prod";
          EvWriteContents fileBackend filePrefix (contentsOf loadedData)] ++ evs.
Proof.
  assert (Hcur : memoCurrent edited) by (intros contents [=]).
  assert (Hnoerr : forall e, contentsAndHash edited <> Some (Err e)) by (intros e [=]).
  destruct (flush_writes_data_in_memory edited loadedData [] Hcur Hnoerr eq_refl eq_refl eq_refl)
    as (Hdur & evs & Hevs).
  split; [exact Hcur|]. split; [reflexivity|]. split; [exact Hdur|].
  exists evs. exact Hevs.
Defined.

(** Migrating the edited sample to object storage and flushing it. *)
Lemma updateConfig_then_flush_witness :
  getStateContentProvider (workspaceId s3Config) (stateConfig s3Config) = Ok s3Backend
  /\ fst (updateConfig s3Config edited) = Ok tt
  /\ dirty (snd (updateConfig s3Config edited)) = true
  /\ exists contents evs,
       contentsAndHash (snd (updateConfig s3Config edited)) = Some (Ok contents)
       /\ trace (snd (flush (snd (updateConfig s3Config edited))))
          = trace (snd (updateConfig s3Config edited))
              ++ [EvMkdirp (path_dirname filePrefix);
                  EvWriteContents s3Backend filePrefix contents] ++ evs.
Proof.
  assert (Hnew : getStateContentProvider (workspaceId s3Config) (stateConfig s3Config)
                 = Ok s3Backend) by reflexivity.
  assert (Hok : fst (updateConfig s3Config edited) = Ok tt) by (vm_compute; reflexivity).
  destruct (updateConfig_then_flush s3Config edited s3Backend Hnew Hok)
    as (contents & Hmemo & _ & Hd & _ & _ & Hflush).
  destruct (innerStateData (snd (updateConfig s3Config edited))) as [sd|] eqn:Hin;
    [|vm_compute in Hin; discriminate Hin].
  destruct (Hflush eq_refl sd (durable (snd (updateConfig s3Config edited))) eq_refl eq_refl)
    as (evs & Hevs).
  split; [exact Hnew|]. split; [exact Hok|]. split; [exact Hd|].
  exists contents, evs. split; [exact Hmemo|exact Hevs].
Defined.

End MoreWitnesses.
